(** * NEON structural indexer (src/neon/neon_json.c): model and properties

    A shallow embedding of the CPU backend of the JSON Stage-1 structural
    indexer.  Machine integers are [Z] with their wrap-around written out,
    byte buffers are [list Z], C pointers that may be NULL are [option],
    and every memory access is bounds-checked: an out-of-range access (or a
    loop running out of its iteration budget) makes the model return
    [None].  The functions that allocate and free are modelled a second
    time on an explicit heap of live blocks. *)

From stdpp Require Import base list numbers option.
From Stdlib Require Import ZArith Lia Bool List.
Import ListNotations.
Local Open Scope Z_scope.

(** ** Machine integers *)

Module Mach.

Definition u8 (x : Z) : Z := x mod 2 ^ 8.
Definition u32 (x : Z) : Z := x mod 2 ^ 32.
Definition u64 (x : Z) : Z := x mod 2 ^ 64.

(** [(int64_t)x] for a 64-bit unsigned [x]. *)
Definition to_int64 (x : Z) : Z :=
  let y := u64 x in if y <? 2 ^ 63 then y else y - 2 ^ 64.

Definition add64 (x y : Z) : Z := u64 (x + y).
Definition sub64 (x y : Z) : Z := u64 (x - y).
Definition shl64 (x n : Z) : Z := u64 (Z.shiftl x n).
Definition not64 (x : Z) : Z := u64 (Z.lnot x).

(** C truth values. *)
Definition c_true (x : Z) : bool := negb (x =? 0).
Definition c_not (x : Z) : Z := if x =? 0 then 1 else 0.

(** [__builtin_ctzll]: index of the lowest set bit (the C result is
    undefined for 0; the search below stops at 64). *)
Fixpoint ctz_from (fuel : nat) (x k : Z) : Z :=
  match fuel with
  | O => k
  | S f => if Z.testbit x k then k else ctz_from f x (k + 1)
  end.
Definition ctzll (x : Z) : Z := ctz_from 64 x 0.

(** Number of set bits among bits [0 .. n-1]. *)
Fixpoint popcount_upto (n : nat) (x : Z) : nat :=
  match n with
  | O => O
  | S m => (popcount_upto m x + (if Z.testbit x (Z.of_nat m) then 1 else 0))%nat
  end.

(** [__builtin_parityll]: parity of the number of set bits. *)
Definition parityll (x : Z) : Z := Z.of_nat (popcount_upto 64 x) mod 2.

End Mach.
Import Mach.

(** ** Memory: bounds-checked loads and stores *)

Definition load (a : list Z) (i : Z) : option Z :=
  if (0 <=? i) && (i <? Z.of_nat (length a)) then a !! Z.to_nat i else None.

Definition store (a : list Z) (i v : Z) : option (list Z) :=
  if (0 <=? i) && (i <? Z.of_nat (length a))
  then Some (<[Z.to_nat i := v]> a) else None.

Notation "'do' x <- e ; k" := (match e with Some x => k | None => None end)
  (at level 10, x pattern, e at level 100, k at level 200,
   format "'[v' 'do'  x  <-  e ; '/' k ']'").

(** ** NEON intrinsics on [uint8x16_t], a vector of 16 bytes *)

Module Neon.

Definition vdupq_n_u8 (c : Z) : list Z := replicate 16 c.

Definition vld1q_u8 (mem : list Z) (off : Z) : option (list Z) :=
  if (0 <=? off) && (off + 16 <=? Z.of_nat (length mem))
  then Some (take 16 (drop (Z.to_nat off) mem)) else None.

Definition vceqq_u8 (a b : list Z) : list Z :=
  zip_with (fun x y => if x =? y then 255 else 0) a b.
Definition vorrq_u8 (a b : list Z) : list Z := zip_with Z.lor a b.
Definition vandq_u8 (a b : list Z) : list Z := zip_with Z.land a b.

Fixpoint pairwise_add (l : list Z) : list Z :=
  match l with
  | x :: y :: r => u8 (x + y) :: pairwise_add r
  | _ => []
  end.
Definition vpaddq_u8 (a b : list Z) : list Z := pairwise_add a ++ pairwise_add b.

(** [vreinterpretq_u16_u8] followed by [vgetq_lane_u16 (., lane)]:
    little-endian pairs of bytes. *)
Definition vgetq_lane_u16 (v : list Z) (lane : nat) : Z :=
  nth (2 * lane) v 0 + 256 * nth (2 * lane + 1) v 0.

(** [vmull_p64]: carry-less (polynomial) 64x64 -> 128 bit multiplication. *)
Definition vmull_p64 (a b : Z) : Z :=
  fold_right (fun i acc => if Z.testbit a i then Z.lxor (Z.shiftl b i) acc else acc)
             0 (seqZ 0 64).

End Neon.
Import Neon.

(** ** The source, function by function *)

Record NeonContext := {
  quote_bits : option (list Z);
  string_mask : option (list Z);
  buffer_capacity : Z
}.

(** [calloc]'ed context (allocation taken to succeed): NULL buffers,
    capacity 0. *)
Definition neon_json_init : option NeonContext :=
  Some {| quote_bits := None; string_mask := None; buffer_capacity := 0 |}.

(** The two scratch buffers are reallocated when too small; their contents
    are never read by the indexer (modelled as zeroes). *)
Definition ensure_buffers (ctx : NeonContext) (input_len : Z) : NeonContext :=
  let num_chunks := add64 input_len 63 / 64 in
  if num_chunks <=? buffer_capacity ctx then ctx
  else {| quote_bits := Some (replicate (Z.to_nat num_chunks) 0);
          string_mask := Some (replicate (Z.to_nat num_chunks) 0);
          buffer_capacity := num_chunks |}.

Definition shift_vals : list Z :=
  [1; 2; 4; 8; 16; 32; 64; 128; 1; 2; 4; 8; 16; 32; 64; 128].

Definition neon_movemask_16 (v : list Z) : Z :=
  let shift_mask := shift_vals in
  let masked := vandq_u8 v shift_mask in
  let paired := vpaddq_u8 masked masked in
  let paired := vpaddq_u8 paired paired in
  let paired := vpaddq_u8 paired paired in
  vgetq_lane_u16 paired 0.

(** One iteration of the four-lane loop of [classify_chunk_64]. *)
Definition classify_lane (input : list Z) (base : Z) (acc : Z * Z * Z) (i : Z)
  : option (Z * Z * Z) :=
  let '(structural, quotes, backslashes) := acc in
  let v_quote := vdupq_n_u8 34 in
  let v_backslash := vdupq_n_u8 92 in
  let v_brace_open := vdupq_n_u8 123 in
  let v_brace_close := vdupq_n_u8 125 in
  let v_bracket_open := vdupq_n_u8 91 in
  let v_bracket_close := vdupq_n_u8 93 in
  let v_colon := vdupq_n_u8 58 in
  let v_comma := vdupq_n_u8 44 in
  do chunk <- vld1q_u8 input (base + i * 16);
  let is_quote := vceqq_u8 chunk v_quote in
  let is_backslash := vceqq_u8 chunk v_backslash in
  let is_brace_o := vceqq_u8 chunk v_brace_open in
  let is_brace_c := vceqq_u8 chunk v_brace_close in
  let is_brack_o := vceqq_u8 chunk v_bracket_open in
  let is_brack_c := vceqq_u8 chunk v_bracket_close in
  let is_colon := vceqq_u8 chunk v_colon in
  let is_comma := vceqq_u8 chunk v_comma in
  let struct_mask := vorrq_u8 is_brace_o is_brace_c in
  let struct_mask := vorrq_u8 struct_mask is_brack_o in
  let struct_mask := vorrq_u8 struct_mask is_brack_c in
  let struct_mask := vorrq_u8 struct_mask is_colon in
  let struct_mask := vorrq_u8 struct_mask is_comma in
  let struct_mask := vorrq_u8 struct_mask is_quote in
  Some (Z.lor structural (shl64 (neon_movemask_16 struct_mask) (i * 16)),
        Z.lor quotes (shl64 (neon_movemask_16 is_quote) (i * 16)),
        Z.lor backslashes (shl64 (neon_movemask_16 is_backslash) (i * 16))).

(** [classify_chunk_64 (input + base, ...)]: the (structural, quote,
    backslash) masks of the 64 bytes at [base]. *)
Definition classify_chunk_64 (input : list Z) (base : Z) : option (Z * Z * Z) :=
  do a0 <- classify_lane input base (0, 0, 0) 0;
  do a1 <- classify_lane input base a0 1;
  do a2 <- classify_lane input base a1 2;
  classify_lane input base a2 3.

Definition prefix_xor (mask : Z) : Z :=
  u64 (vmull_p64 mask 18446744073709551615).

(** Inner loop of [find_odd_backslash_sequences]:
    [while (temp & 1) { count++; temp >>= 1; }]. *)
Fixpoint count_ones (fuel : nat) (temp count : Z) : option Z :=
  match fuel with
  | O => None
  | S f =>
      if c_true (Z.land temp 1)
      then count_ones f (Z.shiftr temp 1) (count + 1)
      else Some count
  end.

(** Outer loop of [find_odd_backslash_sequences]: [while (seq) { ... }]. *)
Fixpoint odd_loop (fuel : nat) (seq odd_ends : Z) : option Z :=
  match fuel with
  | O => None
  | S f =>
      if c_true seq then
        let pos := ctzll seq in
        do count <- count_ones 65 (Z.shiftr seq pos) 0;
        let odd_ends :=
          if c_true (Z.land count 1)
          then Z.lor odd_ends (shl64 1 (pos + count - 1)) else odd_ends in
        let seq := Z.land seq (sub64 seq (shl64 1 (pos + count - 1))) in
        odd_loop f seq odd_ends
      else Some odd_ends
  end.

Definition find_odd_backslash_sequences (backslashes : Z) : option Z :=
  if backslashes =? 0 then Some 0
  else
    (* computed by the source, never used *)
    let starts := Z.land backslashes (not64 (shl64 backslashes 1)) in
    let odd_ends := 0 in
    let seq := backslashes in
    odd_loop 65 seq odd_ends.

(** The caller's two output arrays and the running [count]. *)
Record outbuf := {
  positions_buf : list Z;
  characters_buf : list Z;
  count : Z
}.

(** [positions[count] = (uint32_t)p; characters[count] = ch; count++;] *)
Definition emit (o : outbuf) (p ch : Z) : option outbuf :=
  do ps <- store (positions_buf o) (count o) (u32 p);
  do cs <- store (characters_buf o) (count o) ch;
  Some {| positions_buf := ps; characters_buf := cs; count := add64 (count o) 1 |}.

(** [while (filtered && count < max_output) { ... }] *)
Fixpoint extract_loop (fuel : nat) (input : list Z) (i filtered max_output : Z)
    (o : outbuf) : option outbuf :=
  match fuel with
  | O => None
  | S f =>
      if c_true filtered && (count o <? max_output) then
        let pos := ctzll filtered in
        do ch <- load input (add64 i pos);
        do o' <- emit o (add64 i pos) ch;
        extract_loop f input i (Z.land filtered (sub64 filtered 1)) max_output o'
      else Some o
  end.

(** The 64-bytes-at-a-time loop; returns the final [i],
    [prev_string_state] and output state. *)
Fixpoint simd_loop (fuel : nat) (input : list Z) (input_len max_output : Z)
    (i prev_string_state : Z) (o : outbuf) : option (Z * Z * outbuf) :=
  match fuel with
  | O => None
  | S f =>
      if (add64 i 64 <=? input_len) && (count o <? max_output) then
        do masks <- classify_chunk_64 input i;
        let '(structural, quotes, backslashes) := masks in
        do odd_bs <- find_odd_backslash_sequences backslashes;
        let escaped_quotes := Z.land quotes (shl64 odd_bs 1) in
        let unescaped_quotes := Z.land quotes (not64 escaped_quotes) in
        let string_mask := prefix_xor unescaped_quotes in
        let string_mask :=
          if c_true prev_string_state then not64 string_mask else string_mask in
        let prev_string_state := parityll unescaped_quotes in
        let filtered :=
          Z.lor (Z.land structural (not64 string_mask)) unescaped_quotes in
        do o' <- extract_loop 65 input i filtered max_output o;
        simd_loop f input input_len max_output (add64 i 64) prev_string_state o'
      else Some (i, prev_string_state, o)
  end.

Definition is_json_punct (ch : Z) : bool :=
  (ch =? 123) || (ch =? 125) || (ch =? 91) || (ch =? 93) || (ch =? 58) || (ch =? 44).

(** The scalar loop over the remaining bytes. *)
Fixpoint tail_loop (fuel : nat) (input : list Z) (input_len max_output : Z)
    (i in_string prev_backslash : Z) (o : outbuf) : option outbuf :=
  match fuel with
  | O => None
  | S f =>
      if (i <? input_len) && (count o <? max_output) then
        do ch <- load input i;
        if (ch =? 92) && negb (c_true prev_backslash) then
          tail_loop f input input_len max_output (add64 i 1) in_string 1 o
        else if (ch =? 34) && negb (c_true prev_backslash) then
          do o' <- emit o i ch;
          tail_loop f input input_len max_output (add64 i 1) (c_not in_string) 0 o'
        else if negb (c_true in_string) && negb (c_true prev_backslash) then
          if is_json_punct ch then
            do o' <- emit o i ch;
            tail_loop f input input_len max_output (add64 i 1) in_string 0 o'
          else tail_loop f input input_len max_output (add64 i 1) in_string 0 o
        else tail_loop f input input_len max_output (add64 i 1) in_string 0 o
      else Some o
  end.

(** What a call leaves behind: the returned value, the context and the two
    output arrays. *)
Record result := {
  ret : Z;
  res_ctx : option NeonContext;
  res_positions : option (list Z);
  res_characters : option (list Z)
}.

Definition neon_json_find_structural
    (ctx : option NeonContext) (input : option (list Z)) (input_len : Z)
    (positions characters : option (list Z)) (max_output : Z) : option result :=
  match ctx, input, positions, characters with
  | Some c, Some inp, Some ps, Some cs =>
      if input_len =? 0 then
        Some {| ret := -1; res_ctx := ctx; res_positions := positions;
                res_characters := characters |}
      else
        let c := ensure_buffers c input_len in
        let o := {| positions_buf := ps; characters_buf := cs; count := 0 |} in
        do st <- simd_loop (S (Z.to_nat (input_len / 64))) inp input_len max_output 0 0 o;
        let '(i, prev_string_state, o) := st in
        let in_string := prev_string_state in
        let prev_backslash := 0 in
        do o <- tail_loop 65 inp input_len max_output i in_string prev_backslash o;
        Some {| ret := to_int64 (count o); res_ctx := Some c;
                res_positions := Some (positions_buf o);
                res_characters := Some (characters_buf o) |}
  | _, _, _, _ =>
      Some {| ret := -1; res_ctx := ctx; res_positions := positions;
              res_characters := characters |}
  end.

(** The classification table of [neon_json_classify]. *)
Definition LOOKUP : list Z :=
  [ 9; 9; 9; 9; 9; 9; 9; 9; 9; 0; 0; 9; 9; 0; 9; 9;
    9; 9; 9; 9; 9; 9; 9; 9; 9; 9; 9; 9; 9; 9; 9; 9;
    0; 9; 5; 9; 9; 9; 9; 9; 9; 9; 9; 9; 7; 9; 9; 9;
    9; 9; 9; 9; 9; 9; 9; 9; 9; 9; 6; 9; 9; 9; 9; 9;
    9; 9; 9; 9; 9; 9; 9; 9; 9; 9; 9; 9; 9; 9; 9; 9;
    9; 9; 9; 9; 9; 9; 9; 9; 9; 9; 9; 3; 8; 4; 9; 9;
    9; 9; 9; 9; 9; 9; 9; 9; 9; 9; 9; 9; 9; 9; 9; 9;
    9; 9; 9; 9; 9; 9; 9; 9; 9; 9; 9; 1; 9; 2; 9; 9;
    9; 9; 9; 9; 9; 9; 9; 9; 9; 9; 9; 9; 9; 9; 9; 9;
    9; 9; 9; 9; 9; 9; 9; 9; 9; 9; 9; 9; 9; 9; 9; 9;
    9; 9; 9; 9; 9; 9; 9; 9; 9; 9; 9; 9; 9; 9; 9; 9;
    9; 9; 9; 9; 9; 9; 9; 9; 9; 9; 9; 9; 9; 9; 9; 9;
    9; 9; 9; 9; 9; 9; 9; 9; 9; 9; 9; 9; 9; 9; 9; 9;
    9; 9; 9; 9; 9; 9; 9; 9; 9; 9; 9; 9; 9; 9; 9; 9;
    9; 9; 9; 9; 9; 9; 9; 9; 9; 9; 9; 9; 9; 9; 9; 9;
    9; 9; 9; 9; 9; 9; 9; 9; 9; 9; 9; 9; 9; 9; 9; 9 ].

(** [for (; i < len; i++) output[i] = LOOKUP[input[i]];] *)
Fixpoint classify_loop (fuel : nat) (input output : list Z) (len i : Z)
  : option (list Z) :=
  match fuel with
  | O => None
  | S f =>
      if i <? len then
        do ch <- load input i;
        do code <- load LOOKUP ch;
        do output' <- store output i code;
        classify_loop f input output' len (add64 i 1)
      else Some output
  end.

(** Returned value and the output array after the call. *)
Definition neon_json_classify (input output : option (list Z)) (len : Z)
  : option (Z * option (list Z)) :=
  match input, output with
  | Some inp, Some out =>
      if len =? 0 then Some (-1, output)
      else
        do out' <- classify_loop (S (Z.to_nat len)) inp out len 0;
        Some (0, Some out')
  | _, _ => Some (-1, output)
  end.

Definition neon_json_is_available : Z := 1.

(** * Vocabulary of the properties *)

(** ** Bytes and 64-bit words *)

Definition in64 (x : Z) : Prop := 0 <= x < 2 ^ 64.

Definition is_byte (b : Z) : Prop := 0 <= b < 256.

(** The byte at offset [p] of a buffer (0 outside the buffer). *)
Definition byte_at (input : list Z) (p : Z) : Z := nth (Z.to_nat p) input 0.

Definition is_quote (ch : Z) : bool := ch =? 34.
Definition is_backslash (ch : Z) : bool := ch =? 92.
(** The seven characters of the [structural] mask, in the order the
    comparisons are OR-ed together. *)
Definition is_structural (ch : Z) : bool :=
  (ch =? 123) || (ch =? 125) || (ch =? 91) || (ch =? 93) || (ch =? 58)
  || (ch =? 44) || (ch =? 34).

(** A lane of a comparison result: 0xFF where the comparison holds. *)
Definition mask_of (b : bool) : Z := if b then 255 else 0.

(** The little-endian number whose bit [k] is the [k]-th boolean. *)
Fixpoint bits_of_bools (l : list bool) : Z :=
  match l with
  | [] => 0
  | b :: r => Z.b2z b + 2 * bits_of_bools r
  end.

(** The 16-bit mask of one lane: bit [j] is [P] of the byte at [off + j]. *)
Definition lane_mask (P : Z -> bool) (input : list Z) (off : Z) : Z :=
  bits_of_bools (map P (take 16 (drop (Z.to_nat off) input))).

(** Ascending list of the set bits of a 64-bit word. *)
Definition bits_list (x : Z) : list Z := List.filter (Z.testbit x) (seqZ 0 64).
Arguments bits_list : simpl never.

(** ** Runs and parities *)

(** [esc_run b k]: offset [k] is immediately preceded by an odd number of
    consecutive offsets satisfying [b], the count starting at offset 0. *)
Fixpoint esc_run (b : Z -> bool) (k : nat) : bool :=
  match k with
  | O => false
  | S j => b (Z.of_nat j) && negb (esc_run b j)
  end.

Definition escZ (b : Z -> bool) (k : Z) : bool := esc_run b (Z.to_nat k).

(** XOR of [u 0 .. u (n-1)]. *)
Fixpoint pxor_upto (u : Z -> bool) (n : nat) : bool :=
  match n with
  | O => false
  | S m => xorb (pxor_upto u m) (u (Z.of_nat m))
  end.

(** Number of consecutive offsets satisfying [b] immediately before [k]. *)
Fixpoint run_before (b : Z -> bool) (k : nat) : nat :=
  match k with
  | O => O
  | S j => if b (Z.of_nat j) then S (run_before b j) else O
  end.

(** Number of offsets below [n] satisfying [u]. *)
Fixpoint count_upto (u : Z -> bool) (n : nat) : nat :=
  match n with
  | O => O
  | S m => (count_upto u m + (if u (Z.of_nat m) then 1 else 0))%nat
  end.

(** Invariant of the outer loop of [find_odd_backslash_sequences]: [seq]
    keeps a lower part of every remaining run of [bs], and [odd_ends]
    already holds the verdict for every backslash removed from [seq]. *)
Definition odd_inv (bs seq odd_ends : Z) : Prop :=
  in64 seq /\ in64 odd_ends /\
  (forall k, 0 <= k < 64 -> Z.testbit seq k = true -> Z.testbit bs k = true) /\
  (forall k, 0 <= k < 63 -> Z.testbit seq (k + 1) = true ->
             Z.testbit bs k = true -> Z.testbit seq k = true) /\
  (forall k, 0 <= k < 64 ->
     Z.testbit odd_ends k =
     Z.testbit bs k && negb (Z.testbit seq k) && negb (escZ (Z.testbit bs) k)).

(** ** The output arrays *)

(** The effect of a successful [emit]. *)
Definition push (o : outbuf) (e : Z * Z) : outbuf :=
  {| positions_buf := <[Z.to_nat (count o) := u32 (fst e)]> (positions_buf o);
     characters_buf := <[Z.to_nat (count o) := snd e]> (characters_buf o);
     count := count o + 1 |}.

Definition push_all (o : outbuf) (es : list (Z * Z)) : outbuf :=
  fold_left push es o.

(** The arrays can take [max_output] entries. *)
Definition buf_ok (max_output : Z) (o : outbuf) : Prop :=
  0 <= count o /\ max_output < 2 ^ 64 /\
  max_output <= Z.of_nat (length (positions_buf o)) /\
  max_output <= Z.of_nat (length (characters_buf o)).

(** The caller's arrays hold at least [max_output] entries. *)
Definition capacity_ok (max_output : Z) (ps cs : list Z) : Prop :=
  0 <= max_output < 2 ^ 64 /\
  max_output <= Z.of_nat (length ps) /\ max_output <= Z.of_nat (length cs).

(** The output state after writing the entries [es] from index 0. *)
Definition written (ps cs : list Z) (es : list (Z * Z)) : outbuf :=
  push_all {| positions_buf := ps; characters_buf := cs; count := 0 |} es.

(** The (position, character) pairs a call left in the output arrays. *)
Definition emitted (r : result) : list (Z * Z) :=
  match res_positions r, res_characters r with
  | Some ps, Some cs =>
      zip (take (Z.to_nat (ret r)) ps) (take (Z.to_nat (ret r)) cs)
  | _, _ => []
  end.

(** ** What one 64-byte chunk and the scalar tail emit *)

(** Offsets are relative to [base], the first byte of the chunk (or of the
    tail); both paths restart their backslash bookkeeping there. *)
Definition bs_at (input : list Z) (base k : Z) : bool :=
  is_backslash (byte_at input (base + k)).

Definition esc_local (input : list Z) (base k : Z) : bool :=
  escZ (bs_at input base) k.

Definition uq_local (input : list Z) (base k : Z) : bool :=
  is_quote (byte_at input (base + k)) && negb (esc_local input base k).

(** Bit [k] of [filtered] for the chunk at [base], entered with string
    state [carry]. *)
Definition simd_keep (input : list Z) (base : Z) (carry : bool) (k : Z) : bool :=
  (is_structural (byte_at input (base + k))
   && negb (xorb carry (pxor_upto (uq_local input base) (Z.to_nat k + 1))))
  || uq_local input base k.

(** The decision the scalar loop takes on a byte [ch]. *)
Definition tail_decision (ch : Z) (in_string prev_backslash : bool) : bool :=
  if (ch =? 92) && negb prev_backslash then false
  else if (ch =? 34) && negb prev_backslash then true
  else if negb in_string && negb prev_backslash then is_json_punct ch
  else false.

(** Whether the scalar loop, started at [base] with string state [carry],
    emits the byte at offset [k]. *)
Definition tail_keep (input : list Z) (base : Z) (carry : bool) (k : Z) : bool :=
  uq_local input base k
  || (negb (xorb carry (pxor_upto (uq_local input base) (Z.to_nat k)))
      && negb (esc_local input base k)
      && is_json_punct (byte_at input (base + k))).

(** The pairs (offset, byte) of the offsets [base + k], [k] in [ks]. *)
Definition entries (input : list Z) (base : Z) (ks : list Z) : list (Z * Z) :=
  map (fun k => (base + k, byte_at input (base + k))) ks.

Definition chunk_out (input : list Z) (base : Z) (carry : bool) : list (Z * Z) :=
  entries input base (List.filter (simd_keep input base carry) (seqZ 0 64)).

(** The value [prev_string_state] takes after the chunk at [base]: the
    parity of that chunk's unescaped quotes. *)
Definition chunk_carry (input : list Z) (base : Z) : bool :=
  pxor_upto (uq_local input base) 64.

(** Entries of [n] consecutive chunks starting at [base], and the string
    state handed on after them. *)
Fixpoint chunks_out (input : list Z) (base : Z) (carry : bool) (n : nat)
  : list (Z * Z) :=
  match n with
  | O => []
  | S m => chunk_out input base carry
           ++ chunks_out input (base + 64) (chunk_carry input base) m
  end.

Fixpoint carry_after (input : list Z) (base : Z) (carry : bool) (n : nat) : bool :=
  match n with
  | O => carry
  | S m => carry_after input (base + 64) (chunk_carry input base) m
  end.

Definition tail_out (input : list Z) (base : Z) (carry : bool) (len : Z)
  : list (Z * Z) :=
  entries input base (List.filter (tail_keep input base carry) (seqZ 0 (len - base))).

(** Everything a call with unlimited capacity would emit, in order. *)
Definition code_out (input : list Z) : list (Z * Z) :=
  let len := Z.of_nat (length input) in
  let n := Z.to_nat (len / 64) in
  chunks_out input 0 false n
  ++ tail_out input (64 * (len / 64)) (carry_after input 0 false n) len.

(** [ks] holds the first [max_output] positions of [code_out]. *)
Definition code_out_prefix (input : list Z) (max_output : Z) (ks : list Z) : Prop :=
  exists ks0, ks = take (Z.to_nat max_output) ks0 /\
              code_out input = entries input 0 ks0.

(** [l] is strictly increasing and lies within [lo, hi). *)
Fixpoint increasing_in (lo hi : Z) (l : list Z) : Prop :=
  match l with
  | [] => lo <= hi
  | x :: r => lo <= x < hi /\ increasing_in (x + 1) hi r
  end.

(** The escape mask [odd_bs << 1] the chunk loop computes for the 64 bytes
    at [i] (the first two steps of the loop body): bit [k] set means that
    the byte at [i + k] is taken as escaped. *)
Definition escape_mask (input : list Z) (i : Z) : option Z :=
  do masks <- classify_chunk_64 input i;
  let '(structural, quotes, backslashes) := masks in
  do odd_bs <- find_odd_backslash_sequences backslashes;
  Some (shl64 odd_bs 1).

(** ** The sets and contracts of the specification *)

(** A byte is escaped when it immediately follows an odd number of
    consecutive backslashes. *)
Definition escaped (input : list Z) (p : Z) : bool :=
  Nat.odd (run_before (fun j => is_backslash (byte_at input j)) (Z.to_nat p)).

Definition unescaped_quote (input : list Z) (p : Z) : bool :=
  is_quote (byte_at input p) && negb (escaped input p).

(** Inside a string region: an odd number of unescaped quotes lies before
    the byte. *)
Definition in_string (input : list Z) (p : Z) : bool :=
  Nat.odd (count_upto (unescaped_quote input) (Z.to_nat p)).

(** The positions the specification wants in the index. *)
Definition should_emit (input : list Z) (p : Z) : bool :=
  (is_json_punct (byte_at input p) && negb (in_string input p))
  || unescaped_quote input p.

(** The emitted pairs are exactly the pairs (p, input[p]) with [keep p]. *)
Definition emits_exactly (input : list Z) (r : result) (keep : Z -> bool) : Prop :=
  forall p c, In (p, c) (emitted r) <->
    0 <= p < Z.of_nat (length input) /\ c = byte_at input p /\ keep p = true.

(** The emitted positions are exactly the offsets with [keep p]. *)
Definition emits_positions (input : list Z) (r : result) (keep : Z -> bool) : Prop :=
  forall p, In p (map fst (emitted r)) <->
    0 <= p < Z.of_nat (length input) /\ keep p = true.

(** Backslashes occur only inside strings, no 64-byte boundary (nor the
    start of the scalar tail) cuts an odd run of backslashes, and every full
    chunk after the first that is followed by more input starts outside a
    string. *)
Record well_placed (input : list Z) : Prop := {
  backslashes_in_strings : forall p,
    0 <= p < Z.of_nat (length input) ->
    is_backslash (byte_at input p) = true -> in_string input p = true;
  boundaries_unescaped : forall c,
    0 <= c -> 64 * c < Z.of_nat (length input) ->
    escaped input (64 * c) = false;
  chunks_start_outside : forall c,
    1 <= c -> 64 * c + 64 < Z.of_nat (length input) ->
    in_string input (64 * c) = false
}.

(** A decision procedure for [well_placed], to check concrete inputs. *)
Definition well_placedb (input : list Z) : bool :=
  let len := Z.of_nat (length input) in
  forallb (fun p => implb (is_backslash (byte_at input p)) (in_string input p))
          (seqZ 0 len)
  && forallb (fun c => negb (escaped input (64 * c))) (seqZ 0 (len / 64 + 1))
  && forallb (fun c => negb (in_string input (64 * c))) (seqZ 1 (len / 64)).

(** No quote and no backslash among the bytes. *)
Definition plain (input : list Z) : Prop :=
  Forall (fun b => b <> 34 /\ b <> 92) input.

(** Stored positions strictly increase, stored characters are the input
    bytes at the stored positions. *)
Definition ordered_and_consistent (input : list Z) (r : result) : Prop :=
  exists ps' cs',
    res_positions r = Some ps' /\ res_characters r = Some cs' /\
    (forall i j p q, (i < j)%nat -> Z.of_nat j < ret r ->
       ps' !! i = Some p -> ps' !! j = Some q -> p < q) /\
    (forall i p c, Z.of_nat i < ret r ->
       ps' !! i = Some p -> cs' !! i = Some c -> c = byte_at input p).

(** Only indices below the returned count were written, the count is at
    most [max_output], and entry [j] holds an offset below the input length
    together with the input byte at the in-bounds position [q] it was found
    at. *)
Definition writes_within_count (input ps cs : list Z) (max_output : Z)
    (r : result) : Prop :=
  0 <= ret r <= max_output /\
  exists ps' cs',
    res_positions r = Some ps' /\ res_characters r = Some cs' /\
    length ps' = length ps /\ length cs' = length cs /\
    (forall j, ret r <= Z.of_nat j -> ps' !! j = ps !! j /\ cs' !! j = cs !! j) /\
    (forall j, Z.of_nat j < ret r ->
       exists q, 0 <= q < Z.of_nat (length input) /\
         ps' !! j = Some (u32 q) /\
         0 <= u32 q < Z.of_nat (length input) /\
         cs' !! j = Some (byte_at input q)).

(** Positions at or after the insertion point [q] move up by one. *)
Definition shift_pos (q p : Z) : Z := if p <? q then p else p + 1.
Definition shift_after (q : Z) (e : Z * Z) : Z * Z := (shift_pos q (fst e), snd e).

(** The classification contract, written out. *)
Definition classify_code (b : Z) : Z :=
  if (b =? 32) || (b =? 9) || (b =? 10) || (b =? 13) then 0
  else if b =? 123 then 1
  else if b =? 125 then 2
  else if b =? 91 then 3
  else if b =? 93 then 4
  else if b =? 34 then 5
  else if b =? 58 then 6
  else if b =? 44 then 7
  else if b =? 92 then 8
  else 9.

(** The buffers behind non-null pointers are as large as the call says. *)
Definition valid_find_args (input : option (list Z)) (input_len : Z)
    (positions characters : option (list Z)) (max_output : Z) : Prop :=
  0 <= input_len /\
  (forall inp, input = Some inp ->
     Z.of_nat (length inp) = input_len /\ input_len < 2 ^ 63) /\
  (forall ps cs, positions = Some ps -> characters = Some cs ->
     capacity_ok max_output ps cs).

Definition valid_classify_args (input output : option (list Z)) (len : Z) : Prop :=
  0 <= len < 2 ^ 64 /\
  (forall inp, input = Some inp ->
     Forall is_byte inp /\ Z.of_nat (length inp) = len) /\
  (forall out, output = Some out -> len <= Z.of_nat (length out)).

(** -1 exactly on a null pointer or a zero length, and then no write. *)
Definition find_error_contract (ctx : option NeonContext)
    (input : option (list Z)) (input_len : Z)
    (positions characters : option (list Z)) (r : result) : Prop :=
  (ret r = -1 <->
   ctx = None \/ input = None \/ input_len = 0 \/
   positions = None \/ characters = None) /\
  (ret r = -1 ->
   res_positions r = positions /\ res_characters r = characters).

Definition classify_error_contract (input output : option (list Z)) (len : Z)
    (rc : Z) (output' : option (list Z)) : Prop :=
  (rc = -1 <-> input = None \/ output = None \/ len = 0) /\
  (rc = -1 -> output' = output).

(** ** Example arguments *)

Definition ex_ctx : NeonContext :=
  {| quote_bits := None; string_mask := None; buffer_capacity := 0 |}.
Definition ex_buf : list Z := [0; 0; 0; 0; 0; 0; 0; 0].
Definition ex_buf16 : list Z := [0; 0; 0; 0; 0; 0; 0; 0; 0; 0; 0; 0; 0; 0; 0; 0].

(** The seven bytes of an object with one member, key a and value 1. *)
Definition ex_object : list Z := [123; 34; 97; 34; 58; 49; 125].

(** An object whose string value holds one escaped quote:
    brace, quote, x, quote, colon, quote, backslash, quote, quote, brace. *)
Definition ex_escaped : list Z := [123; 34; 120; 34; 58; 34; 92; 34; 34; 125].

(** Punctuation only: the array of 1, 2, 3. *)
Definition ex_array : list Z := [91; 49; 44; 50; 44; 51; 93].

(** One byte of every class, then a NUL and a byte above 127. *)
Definition ex_bytes : list Z :=
  [32; 9; 10; 13; 123; 125; 91; 93; 34; 58; 44; 92; 0; 255].

(** 63 letters, a backslash, a quote, 63 letters: the backslash is the last
    byte of the first chunk, the quote the first byte of the second. *)
Definition ex_straddle : list Z :=
  replicate 63 97 ++ [92; 34] ++ replicate 63 97.

(** 63 letters, a backslash, a quote: the backslash ends the only chunk and
    the quote is the whole scalar tail. *)
Definition ex_boundary : list Z := replicate 63 97 ++ [92; 34].

(** A quote, 127 letters (the string stays open over both chunks), then an
    opening brace in the scalar tail. *)
Definition ex_open_string : list Z :=
  [34] ++ replicate 127 97 ++ [123].

(** An opening brace, [n] letters a, an opening brace. *)
Definition sparse (n : nat) : list Z := 123 :: replicate n 97 ++ [123].

(** 2^32 - 1, kept folded. *)
Definition big : nat := Z.to_nat 4294967295.

(** 2^32 + 1 bytes: a brace at offset 0 and one at offset 2^32. *)
Definition huge : list Z := sparse big.

(** * The context on the heap *)

(** ** The heap behind [calloc], [malloc] and [free] *)

Module Heap.

(** A live block holds the [NeonContext] struct (its two buffer pointers
    and [buffer_capacity]) or a scratch buffer of so many bytes. *)
Inductive block :=
| CtxBlock (q s : option Z) (capacity : Z)
| BufBlock (bytes : Z).

(** The live blocks, by address. *)
Definition heap := list (Z * block).

Definition at_addr (a : Z) (e : Z * block) : bool := fst e =? a.

Definition lookup (h : heap) (a : Z) : option block :=
  option_map snd (List.find (at_addr a) h).

(** An address above every live one. *)
Definition fresh (h : heap) : Z :=
  1 + fold_right (fun e m => Z.max (fst e) m) 0 h.

(** [malloc] and [calloc]: a fresh block, or NULL when the allocation fails
    ([ok = false]). *)
Definition alloc (ok : bool) (h : heap) (b : block) : option Z * heap :=
  if ok then (Some (fresh h), (fresh h, b) :: h) else (None, h).

(** [free]: nothing happens on NULL; releasing an address that is not live
    is undefined. *)
Definition free (h : heap) (p : option Z) : option heap :=
  match p with
  | None => Some h
  | Some a =>
      match lookup h a with
      | Some _ => Some (List.filter (fun e => negb (at_addr a e)) h)
      | None => None
      end
  end.

(** Overwrite the block at [a]. *)
Definition set_block (h : heap) (a : Z) (b : block) : heap :=
  map (fun e => if at_addr a e then (a, b) else e) h.

End Heap.

(** ** The allocating functions, on the heap *)

(** [neon_json_init]: a zeroed context block, or NULL. *)
Definition neon_json_init_heap (ok : bool) (h : Heap.heap)
  : option Z * Heap.heap :=
  Heap.alloc ok h (Heap.CtxBlock None None 0).

(** [neon_json_free]. *)
Definition neon_json_free_heap (h : Heap.heap) (ctx : option Z)
  : option Heap.heap :=
  match ctx with
  | None => Some h
  | Some a =>
      match Heap.lookup h a with
      | Some (Heap.CtxBlock q s _) =>
          do h1 <- Heap.free h q;
          do h2 <- Heap.free h1 s;
          Heap.free h2 (Some a)
      | _ => None
      end
  end.

(** [ensure_buffers]; [ok_q] and [ok_s] say whether its two [malloc] calls
    succeed. *)
Definition ensure_buffers_heap (ok_q ok_s : bool) (h : Heap.heap)
    (ctx input_len : Z) : option Heap.heap :=
  match Heap.lookup h ctx with
  | Some (Heap.CtxBlock q s capacity) =>
      let num_chunks := add64 input_len 63 / 64 in
      if num_chunks <=? capacity then Some h
      else
        do h1 <- Heap.free h q;
        do h2 <- Heap.free h1 s;
        let '(q', h3) :=
          Heap.alloc ok_q h2 (Heap.BufBlock (u64 (num_chunks * 8))) in
        let '(s', h4) :=
          Heap.alloc ok_s h3 (Heap.BufBlock (u64 (num_chunks * 8))) in
        Some (Heap.set_block h4 ctx (Heap.CtxBlock q' s' num_chunks))
  | _ => None
  end.

(** A series of [ensure_buffers] calls on one context, each with the
    outcomes of its two allocations and its input length. *)
Fixpoint ensure_all (h : Heap.heap) (ctx : Z) (calls : list (bool * bool * Z))
  : option Heap.heap :=
  match calls with
  | [] => Some h
  | (ok_q, ok_s, input_len) :: rest =>
      do h' <- ensure_buffers_heap ok_q ok_s h ctx input_len;
      ensure_all h' ctx rest
  end.

(** ** Vocabulary of the heap properties *)

(** The chunk count [ensure_buffers] computes for an input length. *)
Definition chunks_needed (input_len : Z) : Z := add64 input_len 63 / 64.

(** The largest chunk count among the calls. *)
Definition max_chunks (calls : list (bool * bool * Z)) : Z :=
  fold_right (fun c m => Z.max (chunks_needed (snd c)) m) 0 calls.

(** The block behind a buffer pointer of a context with capacity [cap]. *)
Definition buf_blocks (p : option Z) (cap : Z) : Heap.heap :=
  match p with
  | Some x => [(x, Heap.BufBlock (u64 (cap * 8)))]
  | None => []
  end.

(** The heap [h0] with, in front of it, a context at [a] and the buffers
    its two pointers own. *)
Definition ctx_heap (h0 : Heap.heap) (a : Z) (q s : option Z) (cap : Z)
  : Heap.heap :=
  buf_blocks s cap ++ buf_blocks q cap ++ (a, Heap.CtxBlock q s cap) :: h0.

(** The buffer pointers lie above the context and differ. *)
Definition owned_above (a : Z) (q s : option Z) : Prop :=
  (forall x, q = Some x -> a < x) /\ (forall y, s = Some y -> a < y) /\
  (forall x y, q = Some x -> s = Some y -> x <> y).

(** * The code's own emission rules *)

(** What the scalar loop emits when it starts at offset 0: unescaped quotes,
    and punctuation that is outside a string and not escaped. *)
Definition scalar_keep (input : list Z) (p : Z) : bool :=
  unescaped_quote input p
  || (is_json_punct (byte_at input p) && negb (in_string input p)
      && negb (escaped input p)).

(** What the chunk loop emits in the first chunk: unescaped quotes, and any
    of the seven structural bytes outside a string, escaped or not. *)
Definition first_chunk_keep (input : list Z) (p : Z) : bool :=
  unescaped_quote input p
  || (is_structural (byte_at input p) && negb (in_string input p)).

(** The string state with which the chunk loop enters chunk number [c]. *)
Definition carry_at (input : list Z) (c : Z) : bool :=
  carry_after input 0 false (Z.to_nat c).

(** Whether the byte at offset [p] is emitted: by the chunk rule inside a
    full chunk, by the scalar rule in the tail. *)
Definition code_keep (input : list Z) (p : Z) : bool :=
  let len := Z.of_nat (length input) in
  if p / 64 <? len / 64
  then simd_keep input (64 * (p / 64)) (carry_at input (p / 64))
         (p - 64 * (p / 64))
  else tail_keep input (64 * (len / 64)) (carry_at input (len / 64))
         (p - 64 * (len / 64)).

(** Sixteen lanes with assorted bit patterns. *)
Definition ex_lanes : list Z :=
  [255; 0; 4; 3; 16; 223; 64; 128; 1; 2; 251; 0; 255; 32; 0; 127].

(** * Properties *)

(** ** 64-bit words as sets of bit positions *)

Section Bits.

Lemma u64_in64 x : in64 (u64 x).
Proof. unfold in64, u64. apply Z.mod_pos_bound. lia. Qed.

Lemma u64_small x : in64 x -> u64 x = x.
Proof. unfold in64, u64. intros. apply Z.mod_small. lia. Qed.

Lemma u64_testbit x k :
  0 <= k -> Z.testbit (u64 x) k = (k <? 64) && Z.testbit x k.
Proof.
  intros Hk. unfold u64.
  destruct (Z.ltb_spec k 64).
  - rewrite Z.mod_pow2_bits_low by lia. reflexivity.
  - rewrite Z.mod_pow2_bits_high by lia. reflexivity.
Qed.

Lemma in64_testbit_high x k : in64 x -> 64 <= k -> Z.testbit x k = false.
Proof.
  intros Hx Hk. rewrite <- (u64_small x Hx). rewrite u64_testbit by lia.
  destruct (Z.ltb_spec k 64); [lia | reflexivity].
Qed.

Lemma in64_of_bits x :
  0 <= x -> (forall k, 64 <= k -> Z.testbit x k = false) -> in64 x.
Proof.
  intros H0 Hb. assert (u64 x = x) as <-; [| apply u64_in64].
  apply Z.bits_inj'. intros k Hk. rewrite u64_testbit by lia.
  destruct (Z.ltb_spec k 64); [reflexivity |].
  rewrite Hb by lia. reflexivity.
Qed.

Lemma in64_eq x y :
  in64 x -> in64 y ->
  (forall k, 0 <= k < 64 -> Z.testbit x k = Z.testbit y k) -> x = y.
Proof.
  intros Hx Hy H. apply Z.bits_inj'. intros k Hk.
  destruct (Z.ltb_spec k 64); [apply H; lia |].
  rewrite !in64_testbit_high by (assumption || lia). reflexivity.
Qed.

Lemma in64_land x y : in64 x -> in64 y -> in64 (Z.land x y).
Proof.
  intros Hx Hy. apply in64_of_bits.
  - apply Z.land_nonneg. left. apply Hx.
  - intros k Hk. rewrite Z.land_spec, (in64_testbit_high x) by assumption.
    reflexivity.
Qed.

Lemma in64_lor x y : in64 x -> in64 y -> in64 (Z.lor x y).
Proof.
  intros Hx Hy. apply in64_of_bits.
  - apply Z.lor_nonneg. split; [apply Hx | apply Hy].
  - intros k Hk. rewrite Z.lor_spec, !in64_testbit_high by assumption.
    reflexivity.
Qed.

Lemma not64_testbit x k :
  0 <= k < 64 -> Z.testbit (not64 x) k = negb (Z.testbit x k).
Proof.
  intros Hk. unfold not64. rewrite u64_testbit, Z.lnot_spec by lia.
  destruct (Z.ltb_spec k 64); [reflexivity | lia].
Qed.

Lemma shl64_testbit x n k :
  0 <= k < 64 -> Z.testbit (shl64 x n) k = Z.testbit x (k - n).
Proof.
  intros Hk. unfold shl64. rewrite u64_testbit, Z.shiftl_spec by lia.
  destruct (Z.ltb_spec k 64); [reflexivity | lia].
Qed.

Lemma pow2_testbit n k : 0 <= n -> Z.testbit (2 ^ n) k = (k =? n).
Proof.
  intros Hn. destruct (Z.eqb_spec k n) as [-> | Hne].
  - apply Z.pow2_bits_true. lia.
  - apply Z.pow2_bits_false. lia.
Qed.

Lemma shl64_one n : 0 <= n < 64 -> shl64 1 n = 2 ^ n.
Proof.
  intros Hn. unfold shl64. rewrite Z.shiftl_1_l. apply u64_small.
  split; [lia |]. apply Z.pow_lt_mono_r; lia.
Qed.

(** Clearing a set bit by subtraction. *)
Lemma sub_pow2_testbit x n k :
  0 <= n -> Z.testbit x n = true ->
  Z.testbit (x - 2 ^ n) k = Z.testbit x k && negb (k =? n).
Proof.
  intros Hn Hx.
  rewrite Z.sub_nocarry_ldiff.
  - rewrite Z.ldiff_spec, pow2_testbit by lia. reflexivity.
  - apply Z.bits_inj'. intros j Hj.
    rewrite Z.ldiff_spec, pow2_testbit, Z.bits_0 by lia.
    destruct (Z.eqb_spec j n) as [-> | ?]; [rewrite Hx |]; reflexivity.
Qed.

Lemma nonzero_has_bit x : in64 x -> x <> 0 ->
  exists t, 0 <= t < 64 /\ Z.testbit x t = true.
Proof.
  intros Hx Hne. exists (Z.log2 x).
  assert (0 < x) by (unfold in64 in Hx; lia).
  split.
  - split; [apply Z.log2_nonneg |].
    apply Z.log2_lt_pow2; [assumption | apply Hx].
  - apply Z.bit_log2. assumption.
Qed.

Lemma ctz_from_spec x fuel : forall k t,
  0 <= k <= t -> t < k + Z.of_nat fuel -> Z.testbit x t = true ->
  (forall j, 0 <= j < k -> Z.testbit x j = false) ->
  k <= ctz_from fuel x k <= t /\
  Z.testbit x (ctz_from fuel x k) = true /\
  (forall j, 0 <= j < ctz_from fuel x k -> Z.testbit x j = false).
Proof.
  induction fuel as [| f IH]; intros k t Hk Ht Hbit Hlow; [lia |].
  simpl. destruct (Z.testbit x k) eqn:Hxk.
  - repeat split; try lia; assumption.
  - assert (k <> t) by congruence.
    destruct (IH (k + 1) t) as (H1 & H2 & H3); try lia; try assumption.
    + intros j Hj. destruct (Z.eq_dec j k) as [-> | ?]; [assumption |].
      apply Hlow. lia.
    + repeat split; try lia; assumption.
Qed.

Lemma ctzll_spec x : in64 x -> x <> 0 ->
  0 <= ctzll x < 64 /\ Z.testbit x (ctzll x) = true /\
  (forall j, 0 <= j < ctzll x -> Z.testbit x j = false).
Proof.
  intros Hx Hne. destruct (nonzero_has_bit x Hx Hne) as (t & Ht & Hbit).
  destruct (ctz_from_spec x 64 0 t) as (H1 & H2 & H3); try lia; try assumption.
  unfold ctzll. repeat split; try lia; assumption.
Qed.

(** [x & (x - 2^n)] clears bit [n] when it is set. *)
Lemma clear_bit_testbit x n k :
  in64 x -> 0 <= n < 64 -> Z.testbit x n = true -> 0 <= k < 64 ->
  Z.testbit (Z.land x (sub64 x (2 ^ n))) k = Z.testbit x k && negb (k =? n).
Proof.
  intros Hx Hn Hbit Hk. unfold sub64.
  rewrite Z.land_spec, u64_testbit, sub_pow2_testbit by (lia || assumption).
  destruct (Z.ltb_spec k 64); [| lia].
  destruct (Z.testbit x k); reflexivity.
Qed.

Lemma clear_bit_in64 x y : in64 x -> in64 (Z.land x (sub64 x y)).
Proof. intros Hx. apply in64_land; [assumption | apply u64_in64]. Qed.

(** [x & (x - 1)] clears the lowest set bit. *)
Lemma clear_lowest_testbit x k :
  in64 x -> x <> 0 -> 0 <= k < 64 ->
  Z.testbit (Z.land x (sub64 x 1)) k = Z.testbit x k && negb (k =? ctzll x).
Proof.
  intros Hx Hne Hk.
  destruct (ctzll_spec x Hx Hne) as (Hc & Hset & Hlow).
  unfold sub64. rewrite Z.land_spec, u64_testbit by lia.
  destruct (Z.ltb_spec k 64); [| lia]. simpl.
  (* x - 1 : bits below ctz become 1, bit ctz becomes 0, others unchanged *)
  assert (x - 1 = Z.lor (x - 2 ^ ctzll x) (Z.ones (ctzll x))) as ->.
  { rewrite Z.ones_equiv.
    rewrite <- Z.add_nocarry_lor.
    - lia.
    - apply Z.bits_inj'. intros j Hj.
      rewrite Z.land_spec, Z.bits_0, sub_pow2_testbit by (lia || assumption).
      rewrite <- Z.ones_equiv, Z.testbit_ones_nonneg by lia.
      destruct (Z.ltb_spec j (ctzll x)).
      + rewrite Hlow by lia. reflexivity.
      + rewrite andb_false_r. reflexivity. }
  rewrite Z.lor_spec, sub_pow2_testbit, Z.testbit_ones_nonneg by (lia || assumption).
  destruct (Z.eqb_spec k (ctzll x)) as [-> | Hne'].
  - rewrite Hset. destruct (Z.ltb_spec (ctzll x) (ctzll x)); [lia |].
    reflexivity.
  - destruct (Z.ltb_spec k (ctzll x)).
    + rewrite Hlow by lia. reflexivity.
    + destruct (Z.testbit x k); reflexivity.
Qed.

End Bits.

(** ** Escape analysis inside one chunk *)

Section EscapeAnalysis.

Lemma escZ_0 b : escZ b 0 = false.
Proof. reflexivity. Qed.

Lemma escZ_succ b k : 0 <= k -> escZ b (k + 1) = b k && negb (escZ b k).
Proof.
  intros Hk. unfold escZ.
  replace (Z.to_nat (k + 1)) with (S (Z.to_nat k)) by lia.
  simpl. rewrite Z2Nat.id by lia. reflexivity.
Qed.

Lemma esc_run_ext b b' n :
  (forall j, 0 <= j < Z.of_nat n -> b j = b' j) -> esc_run b n = esc_run b' n.
Proof.
  induction n as [| n IH]; intros H; [reflexivity |].
  simpl. rewrite H by lia. rewrite IH; [reflexivity |].
  intros j Hj. apply H. lia.
Qed.

Lemma escZ_ext b b' k :
  (forall j, 0 <= j < k -> b j = b' j) -> escZ b k = escZ b' k.
Proof.
  intros H. unfold escZ. apply esc_run_ext. intros j Hj. apply H. lia.
Qed.

Lemma escZ_along_run b p j :
  0 <= p -> 0 <= j -> escZ b p = false ->
  (forall i, p <= i < p + j -> b i = true) ->
  escZ b (p + j) = Z.odd j.
Proof.
  intros Hp Hj H0. revert j Hj.
  apply (natlike_ind (fun j => (forall i, p <= i < p + j -> b i = true) ->
                               escZ b (p + j) = Z.odd j)).
  - intros _. rewrite Z.add_0_r. assumption.
  - intros j Hj IH Hrun.
    replace (p + Z.succ j) with (p + j + 1) by lia.
    rewrite escZ_succ by lia. rewrite Hrun by lia.
    rewrite IH by (intros; apply Hrun; lia).
    rewrite Z.odd_succ, <- Z.negb_odd. reflexivity.
Qed.

Lemma c_true_land_1 t : c_true (Z.land t 1) = Z.testbit t 0.
Proof.
  unfold c_true. change 1 with (Z.ones 1) at 1.
  rewrite Z.land_ones by lia. change (2 ^ 1) with 2.
  rewrite <- Z.bit0_mod. destruct (Z.testbit t 0); reflexivity.
Qed.

Lemma count_ones_spec fuel : forall temp c,
  0 <= temp < 2 ^ (Z.of_nat fuel - 1) ->
  exists n, 0 <= n < Z.of_nat fuel /\
    count_ones fuel temp c = Some (c + n) /\
    (forall j, 0 <= j < n -> Z.testbit temp j = true) /\
    Z.testbit temp n = false.
Proof.
  induction fuel as [| f IH]; intros temp c Ht.
  - simpl in Ht. change (2 ^ (-1)) with 0 in Ht. lia.
  - simpl count_ones. rewrite c_true_land_1.
    destruct (Z.testbit temp 0) eqn:Hb0.
    + assert (Hf : 1 <= Z.of_nat f).
      { destruct f; [| lia]. simpl in Ht. change (2 ^ 0) with 1 in Ht.
        assert (temp = 0) as -> by lia. discriminate. }
      destruct (IH (Z.shiftr temp 1) (c + 1)) as (n & Hn & Hrun & Hall & Hstop).
      { rewrite Z.shiftr_div_pow2 by lia. change (2 ^ 1) with 2.
        split; [apply Z.div_pos; lia |].
        apply Z.div_lt_upper_bound; [lia |].
        replace (Z.of_nat (S f) - 1) with (Z.succ (Z.of_nat f - 1)) in Ht by lia.
        rewrite Z.pow_succ_r in Ht by lia. lia. }
      exists (n + 1). split; [lia |]. split; [rewrite Hrun; f_equal; lia |].
      split.
      * intros j Hj. destruct (Z.eq_dec j 0) as [-> | ?]; [assumption |].
        specialize (Hall (j - 1) ltac:(lia)).
        rewrite Z.shiftr_spec in Hall by lia.
        replace (j - 1 + 1) with j in Hall by lia. assumption.
      * rewrite Z.shiftr_spec in Hstop by lia. assumption.
    + exists 0. split; [lia |]. split; [f_equal; lia |].
      split; [intros; lia | assumption].
Qed.

Lemma popcount_clear x x' t n :
  0 <= t ->
  (forall k, 0 <= k < 64 -> Z.testbit x' k = Z.testbit x k && negb (k =? t)) ->
  Z.testbit x t = true -> (n <= 64)%nat ->
  popcount_upto n x =
  (popcount_upto n x' + (if (Z.of_nat n <=? t)%Z then 0 else 1))%nat.
Proof.
  intros Ht Hx' Hbit. induction n as [| n IH]; intros Hn.
  - simpl. change (Z.of_nat 0) with 0. destruct (Z.leb_spec 0 t); [reflexivity | lia].
  - simpl popcount_upto. rewrite IH by lia. rewrite Hx' by lia.
    destruct (Z.eqb_spec (Z.of_nat n) t) as [<- | Hne].
    + rewrite Hbit. simpl.
      destruct (Z.leb_spec (Z.of_nat n) (Z.of_nat n)); [| lia].
      destruct (Z.leb_spec (Z.of_nat (S n)) (Z.of_nat n)); lia.
    + rewrite andb_true_r.
      destruct (Z.leb_spec (Z.of_nat n) t), (Z.leb_spec (Z.of_nat (S n)) t);
        lia.
Qed.

Lemma popcount_upto_le n x : (popcount_upto n x <= n)%nat.
Proof.
  induction n as [| n IH]; simpl; [lia |].
  destruct (Z.testbit x (Z.of_nat n)); lia.
Qed.

Section OddLoop.

Variable bs : Z.
Hypothesis bs_in64 : in64 bs.

Let B := Z.testbit bs.

Lemma odd_loop_S f seq odd_ends :
  odd_loop (S f) seq odd_ends =
  if c_true seq then
    do count <- count_ones 65 (Z.shiftr seq (ctzll seq)) 0;
    odd_loop f (Z.land seq (sub64 seq (shl64 1 (ctzll seq + count - 1))))
      (if c_true (Z.land count 1)
       then Z.lor odd_ends (shl64 1 (ctzll seq + count - 1)) else odd_ends)
  else Some odd_ends.
Proof. reflexivity. Qed.

Lemma odd_loop_spec fuel : forall seq odd_ends,
  odd_inv bs seq odd_ends -> (popcount_upto 64 seq < fuel)%nat ->
  exists r, odd_loop fuel seq odd_ends = Some r /\ in64 r /\
    forall k, 0 <= k < 64 -> Z.testbit r k = B k && negb (escZ B k).
Proof.
  induction fuel as [| f IH]; intros seq odd (Hs & Ho & Hsub & Hdown & Hodd) Hpc;
    [lia |].
  rewrite odd_loop_S. unfold c_true at 1.
  destruct (Z.eqb_spec seq 0) as [-> | Hne].
  - simpl negb. cbv iota. exists odd. split; [reflexivity |]. split; [assumption |].
    intros k Hk. rewrite Hodd by lia. rewrite Z.bits_0, andb_true_r. reflexivity.
  - simpl negb. cbv iota.
    destruct (ctzll_spec seq Hs Hne) as (Hpos & Hpset & Hplow).
    set (pos := ctzll seq) in *.
    destruct (count_ones_spec 65 (Z.shiftr seq pos) 0) as (n & Hn & Hrun & Hall & Hstop).
    { rewrite Z.shiftr_div_pow2 by lia. change (Z.of_nat 65 - 1) with 64.
      destruct Hs as [Hs0 Hs1]. split.
      - apply Z.div_pos; lia.
      - apply Z.div_lt_upper_bound; [lia |]. 
        assert (1 <= 2 ^ pos) by (apply (Z.pow_le_mono_r 2 0 pos); lia). nia. }
    rewrite Hrun. change (0 + n) with n.
    assert (Hall' : forall j, pos <= j < pos + n -> Z.testbit seq j = true).
    { intros j Hj. specialize (Hall (j - pos) ltac:(lia)).
      rewrite Z.shiftr_spec in Hall by lia.
      replace (j - pos + pos) with j in Hall by lia. assumption. }
    assert (Hstop' : Z.testbit seq (pos + n) = false).
    { rewrite Z.shiftr_spec in Hstop by lia.
      rewrite Z.add_comm. assumption. }
    assert (Hn1 : 1 <= n).
    { destruct (Z.eq_dec n 0) as [-> | ?]; [| lia].
      rewrite Z.add_0_r in Hstop'. congruence. }
    set (top := pos + n - 1).
    assert (Htop : Z.testbit seq top = true) by (apply Hall'; unfold top; lia).
    assert (Htop64 : 0 <= top < 64).
    { split; [unfold top; lia |].
      destruct (Z.lt_ge_cases top 64); [assumption |].
      rewrite in64_testbit_high in Htop by (assumption || lia). discriminate. }
    rewrite shl64_one by assumption.
    (* the run of [bs] holding [top] starts at [pos] *)
    assert (Hesc_pos : escZ B pos = false).
    { destruct (Z.eq_dec pos 0) as [-> | Hp0]; [reflexivity |].
      replace pos with (pos - 1 + 1) by lia. rewrite escZ_succ by lia.
      destruct (B (pos - 1)) eqn:Hb; [| reflexivity].
      assert (Z.testbit seq (pos - 1) = true) as Hc.
      { apply Hdown; [lia | | assumption].
        replace (pos - 1 + 1) with pos by lia. assumption. }
      rewrite Hplow in Hc by lia. discriminate. }
    assert (Hesc_top : escZ B top = Z.odd (n - 1)).
    { unfold top. replace (pos + n - 1) with (pos + (n - 1)) by lia.
      apply escZ_along_run; try lia; try assumption.
      intros i Hi. apply Hsub; [lia |]. apply Hall'. lia. }
    set (seq' := Z.land seq (sub64 seq (2 ^ top))).
    assert (Hseq' : forall k, 0 <= k < 64 ->
              Z.testbit seq' k = Z.testbit seq k && negb (k =? top)).
    { intros k Hk. apply clear_bit_testbit; assumption. }
    apply IH.
    + split; [apply clear_bit_in64; assumption |].
      split.
      { destruct (c_true (Z.land n 1)); [| assumption].
        apply in64_lor; [assumption |].
        split; [lia |]. apply Z.pow_lt_mono_r; lia. }
      split.
      { intros k Hk. rewrite Hseq' by lia. intros H.
        apply andb_true_iff in H. apply Hsub; tauto. }
      split.
      { intros k Hk. rewrite !Hseq' by lia. intros H Hb.
        apply andb_true_iff in H. destruct H as [H1 H2].
        rewrite Hdown by (lia || assumption). simpl.
        destruct (Z.eqb_spec k top) as [-> | ?]; [| reflexivity].
        replace (top + 1) with (pos + n) in H1 by (unfold top; lia).
        congruence. }
      intros k Hk. rewrite Hseq' by lia.
      rewrite c_true_land_1, Z.bit0_odd.
      assert (Hpar : Z.odd n = negb (escZ B top)).
      { rewrite Hesc_top. replace n with (Z.succ (n - 1)) at 1 by lia.
        rewrite Z.odd_succ, <- Z.negb_odd. reflexivity. }
      destruct (Z.eqb_spec k top) as [-> | Hkt].
      * rewrite Htop. simpl. rewrite andb_true_r.
        rewrite (Hsub top) by assumption. simpl.
        destruct (Z.odd n) eqn:Hoddn.
        -- rewrite Z.lor_spec, pow2_testbit, Z.eqb_refl by lia.
           rewrite orb_true_r. assumption.
        -- rewrite Hodd by lia. rewrite Htop. simpl. rewrite andb_false_r.
           assumption.
      * rewrite andb_true_r.
        destruct (Z.odd n).
        -- rewrite Z.lor_spec, pow2_testbit by lia.
           destruct (Z.eqb_spec k top); [lia |]. rewrite orb_false_r.
           apply Hodd. lia.
        -- apply Hodd. lia.
    + pose proof (popcount_clear seq seq' top 64 ltac:(lia) Hseq' Htop ltac:(lia)) as Hc.
      destruct (Z.leb_spec (Z.of_nat 64) top); [lia |]. lia.
Qed.

(** The escape mask [odd_bs << 1] of a chunk: bit [k] says that offset [k]
    follows an odd run of backslashes inside the chunk. *)
Lemma find_odd_backslash_sequences_spec :
  exists odd_bs, find_odd_backslash_sequences bs = Some odd_bs /\
    in64 odd_bs /\
    (forall k, 0 <= k < 64 -> Z.testbit odd_bs k = B k && negb (escZ B k)) /\
    (forall k, 0 <= k < 64 -> Z.testbit (shl64 odd_bs 1) k = escZ B k).
Proof.
  destruct (odd_loop_spec 65 bs 0) as (r & Hr & Hr64 & Hbits).
  - split; [assumption |]. split; [unfold in64; lia |].
    split; [intros; assumption |]. split; [intros; assumption |].
    intros k Hk. rewrite Z.bits_0. unfold B.
    destruct (Z.testbit bs k); reflexivity.
  - pose proof (popcount_upto_le 64 bs). lia.
  - exists r. split.
    + unfold find_odd_backslash_sequences.
      destruct (Z.eqb_spec bs 0) as [-> | ?]; [| assumption].
      rewrite odd_loop_S in Hr. simpl in Hr. congruence.
    + split; [assumption |]. split; [assumption |].
      intros k Hk. rewrite shl64_testbit by lia.
      destruct (Z.eq_dec k 0) as [-> | Hk0].
      * rewrite Z.testbit_neg_r by lia. reflexivity.
      * rewrite Hbits by lia. replace k with (k - 1 + 1) at 3 by lia.
        rewrite escZ_succ by lia. reflexivity.
Qed.

End OddLoop.

End EscapeAnalysis.

(** ** Prefix XOR and parity *)

Section PrefixXor.

Lemma pxor_upto_ext u u' n :
  (forall j, 0 <= j < Z.of_nat n -> u j = u' j) -> pxor_upto u n = pxor_upto u' n.
Proof.
  induction n as [| n IH]; intros H; [reflexivity |].
  simpl. rewrite H by lia. rewrite IH; [reflexivity |].
  intros j Hj. apply H. lia.
Qed.

Lemma fold_xor_acc (f : Z -> bool) l c :
  fold_right (fun i acc => xorb (f i) acc) c l =
  xorb (fold_right (fun i acc => xorb (f i) acc) false l) c.
Proof.
  induction l as [| x l IH]; simpl.
  - reflexivity.
  - rewrite IH. rewrite xorb_assoc. reflexivity.
Qed.

Lemma fold_xor_seqZ (f : Z -> bool) n :
  fold_right (fun i acc => xorb (f i) acc) false (seqZ 0 (Z.of_nat n)) =
  pxor_upto f n.
Proof.
  induction n as [| n IH].
  - reflexivity.
  - rewrite seqZ_S, fold_right_app. simpl fold_right at 2.
    rewrite fold_xor_acc, IH. simpl. rewrite xorb_false_r. reflexivity.
Qed.

Lemma pxor_upto_cut u k n :
  0 <= k ->
  pxor_upto (fun i => u i && (i <=? k)) n =
  pxor_upto u (Nat.min n (Z.to_nat k + 1)).
Proof.
  intros Hk. induction n as [| n IH]; [reflexivity |].
  simpl pxor_upto at 1. rewrite IH.
  destruct (Z.leb_spec (Z.of_nat n) k).
  - rewrite andb_true_r.
    replace (Nat.min (S n) (Z.to_nat k + 1)) with (S n) by lia.
    replace (Nat.min n (Z.to_nat k + 1)) with n by lia. reflexivity.
  - rewrite andb_false_r, xorb_false_r. f_equal. lia.
Qed.

Lemma vmull_p64_testbit a b k : 0 <= k ->
  Z.testbit (vmull_p64 a b) k =
  fold_right (fun i acc => xorb (Z.testbit a i && Z.testbit b (k - i)) acc)
             false (seqZ 0 64).
Proof.
  intros Hk. unfold vmull_p64. induction (seqZ 0 64) as [| i l IH].
  - apply Z.bits_0.
  - simpl. destruct (Z.testbit a i).
    + rewrite Z.lxor_spec, Z.shiftl_spec, IH by lia. reflexivity.
    + rewrite IH. reflexivity.
Qed.

(** Bit [k] of [prefix_xor mask] is the XOR of bits [0 .. k] of [mask]. *)
Lemma prefix_xor_testbit mask k :
  0 <= k < 64 ->
  Z.testbit (prefix_xor mask) k = pxor_upto (Z.testbit mask) (Z.to_nat k + 1).
Proof.
  intros Hk. unfold prefix_xor. rewrite u64_testbit by lia.
  destruct (Z.ltb_spec k 64); [| lia]. simpl andb.
  rewrite vmull_p64_testbit by lia.
  change 64 with (Z.of_nat 64) at 1.
  rewrite (fold_xor_seqZ (fun i => Z.testbit mask i &&
             Z.testbit 18446744073709551615 (k - i))).
  rewrite (pxor_upto_ext _ (fun i => Z.testbit mask i && (i <=? k))).
  - rewrite pxor_upto_cut by lia. f_equal. lia.
  - intros j Hj. f_equal. change 18446744073709551615 with (Z.ones 64).
    destruct (Z.leb_spec j k).
    + apply Z.ones_spec_low. lia.
    + apply Z.testbit_neg_r. lia.
Qed.

Lemma prefix_xor_in64 mask : in64 (prefix_xor mask).
Proof. apply u64_in64. Qed.

Lemma popcount_odd x n :
  Nat.odd (popcount_upto n x) = pxor_upto (Z.testbit x) n.
Proof.
  induction n as [| n IH]; [reflexivity |].
  simpl. rewrite <- IH. destruct (Z.testbit x (Z.of_nat n)).
  - rewrite Nat.add_1_r, Nat.odd_succ, <- Nat.negb_odd.
    destruct (Nat.odd (popcount_upto n x)); reflexivity.
  - rewrite Nat.add_0_r, xorb_false_r. reflexivity.
Qed.

Lemma parityll_spec x :
  parityll x = Z.b2z (pxor_upto (Z.testbit x) 64).
Proof.
  unfold parityll. rewrite <- popcount_odd.
  generalize (popcount_upto 64 x). intros n.
  rewrite <- Z.bit0_mod, Z.bit0_odd.
  f_equal. induction n as [| n IH]; [reflexivity |].
  rewrite Nat2Z.inj_succ, Z.odd_succ, Nat.odd_succ.
  rewrite <- Z.negb_odd, <- Nat.negb_odd. f_equal. assumption.
Qed.

Lemma c_true_b2z b : c_true (Z.b2z b) = b.
Proof. destruct b; reflexivity. Qed.

End PrefixXor.

(** ** Chunk classification *)

Section Classify.

Lemma bits_of_bools_testbit l : forall k,
  0 <= k -> Z.testbit (bits_of_bools l) k = nth (Z.to_nat k) l false.
Proof.
  induction l as [| b r IH]; intros k Hk.
  - simpl. rewrite Z.bits_0. destruct (Z.to_nat k); reflexivity.
  - simpl bits_of_bools. rewrite Z.add_comm.
    destruct (Z.eq_dec k 0) as [-> | Hk0].
    + rewrite Z.testbit_0_r. reflexivity.
    + replace k with (Z.succ (k - 1)) at 1 by lia.
      rewrite Z.testbit_succ_r by lia. rewrite IH by lia.
      replace (Z.to_nat k) with (S (Z.to_nat (k - 1))) by lia. reflexivity.
Qed.

Lemma bits_of_bools_range l :
  0 <= bits_of_bools l < 2 ^ Z.of_nat (length l).
Proof.
  induction l as [| b r IH].
  - simpl. lia.
  - simpl bits_of_bools. simpl length. rewrite Nat2Z.inj_succ.
    rewrite Z.pow_succ_r by lia. destruct b; simpl Z.b2z; lia.
Qed.

Lemma movemask_byte b0 b1 b2 b3 b4 b5 b6 b7 :
  u8 (u8 (u8 (Z.land (mask_of b0) 1 + Z.land (mask_of b1) 2)
          + u8 (Z.land (mask_of b2) 4 + Z.land (mask_of b3) 8))
      + u8 (u8 (Z.land (mask_of b4) 16 + Z.land (mask_of b5) 32)
            + u8 (Z.land (mask_of b6) 64 + Z.land (mask_of b7) 128)))
  = bits_of_bools [b0; b1; b2; b3; b4; b5; b6; b7].
Proof.
  destruct b0, b1, b2, b3, b4, b5, b6, b7; reflexivity.
Qed.

Lemma movemask_bools b0 b1 b2 b3 b4 b5 b6 b7 b8 b9 b10 b11 b12 b13 b14 b15 :
  neon_movemask_16
    (map mask_of [b0; b1; b2; b3; b4; b5; b6; b7;
                  b8; b9; b10; b11; b12; b13; b14; b15])
  = bits_of_bools [b0; b1; b2; b3; b4; b5; b6; b7;
                   b8; b9; b10; b11; b12; b13; b14; b15].
Proof.
  change (neon_movemask_16 _) with
    (u8 (u8 (u8 (Z.land (mask_of b0) 1 + Z.land (mask_of b1) 2)
             + u8 (Z.land (mask_of b2) 4 + Z.land (mask_of b3) 8))
         + u8 (u8 (Z.land (mask_of b4) 16 + Z.land (mask_of b5) 32)
               + u8 (Z.land (mask_of b6) 64 + Z.land (mask_of b7) 128)))
     + 256 * u8 (u8 (u8 (Z.land (mask_of b8) 1 + Z.land (mask_of b9) 2)
                     + u8 (Z.land (mask_of b10) 4 + Z.land (mask_of b11) 8))
                 + u8 (u8 (Z.land (mask_of b12) 16 + Z.land (mask_of b13) 32)
                       + u8 (Z.land (mask_of b14) 64 + Z.land (mask_of b15) 128)))).
  rewrite !movemask_byte. cbn [bits_of_bools]. lia.
Qed.

Lemma length_16 {A} (l : list A) :
  length l = 16%nat ->
  exists x0 x1 x2 x3 x4 x5 x6 x7 x8 x9 x10 x11 x12 x13 x14 x15,
    l = [x0; x1; x2; x3; x4; x5; x6; x7; x8; x9; x10; x11; x12; x13; x14; x15].
Proof.
  intros H.
  do 16 (destruct l as [| ? l]; [discriminate H |]).
  destruct l; [| discriminate H]. do 16 eexists. reflexivity.
Qed.

(** [neon_movemask_16] packs a vector of 0x00 / 0xFF bytes into bits. *)
Lemma movemask_map (P : Z -> bool) (l : list Z) :
  length l = 16%nat ->
  neon_movemask_16 (map (fun x => mask_of (P x)) l) = bits_of_bools (map P l).
Proof.
  intros H. destruct (length_16 l H) as
    (x0 & x1 & x2 & x3 & x4 & x5 & x6 & x7 & x8 & x9 & x10 & x11 & x12 & x13
     & x14 & x15 & ->).
  apply (movemask_bools (P x0) (P x1) (P x2) (P x3) (P x4) (P x5) (P x6) (P x7)
           (P x8) (P x9) (P x10) (P x11) (P x12) (P x13) (P x14) (P x15)).
Qed.

Lemma vceqq_dup (l : list Z) c :
  length l = 16%nat ->
  vceqq_u8 l (vdupq_n_u8 c) = map (fun x => mask_of (x =? c)) l.
Proof.
  intros H. destruct (length_16 l H) as
    (x0 & x1 & x2 & x3 & x4 & x5 & x6 & x7 & x8 & x9 & x10 & x11 & x12 & x13
     & x14 & x15 & ->).
  reflexivity.
Qed.

Lemma vorrq_masks (P Q : Z -> bool) (l : list Z) :
  vorrq_u8 (map (fun x => mask_of (P x)) l) (map (fun x => mask_of (Q x)) l)
  = map (fun x => mask_of (P x || Q x)) l.
Proof.
  unfold vorrq_u8. induction l as [| x l IH]; [reflexivity |].
  simpl. rewrite <- IH. f_equal. destruct (P x), (Q x); reflexivity.
Qed.

Lemma vld1q_u8_ok input off :
  0 <= off -> off + 16 <= Z.of_nat (length input) ->
  exists chunk, vld1q_u8 input off = Some chunk /\ length chunk = 16%nat /\
    forall k, 0 <= k < 16 -> nth (Z.to_nat k) chunk 0 = byte_at input (off + k).
Proof.
  intros H0 H1. unfold vld1q_u8.
  destruct (Z.leb_spec 0 off); [| lia].
  destruct (Z.leb_spec (off + 16) (Z.of_nat (length input))); [| lia].
  eexists. split; [reflexivity |]. split.
  - rewrite length_take, length_drop. lia.
  - intros k Hk. unfold byte_at.
    rewrite !nth_lookup. rewrite lookup_take_lt by lia. rewrite lookup_drop.
    replace (Z.to_nat off + Z.to_nat k)%nat with (Z.to_nat (off + k)) by lia.
    reflexivity.
Qed.

End Classify.

Section ClassifyChunk.

Lemma lane_mask_testbit P input off j :
  0 <= off -> off + 16 <= Z.of_nat (length input) ->
  Z.testbit (lane_mask P input off) j =
  (0 <=? j) && (j <? 16) && P (byte_at input (off + j)).
Proof.
  intros H0 H1.
  destruct (vld1q_u8_ok input off H0 H1) as (chunk & Hld & Hlen & Hnth).
  unfold vld1q_u8 in Hld.
  destruct ((0 <=? off) && (off + 16 <=? Z.of_nat (length input)));
    [| discriminate].
  injection Hld as Hld. unfold lane_mask. rewrite Hld.
  destruct (Z.leb_spec 0 j); [| apply Z.testbit_neg_r; lia].
  rewrite bits_of_bools_testbit by lia.
  destruct (Z.ltb_spec j 16); simpl andb.
  - rewrite <- Hnth by lia.
    rewrite (nth_indep _ false (P 0)) by (rewrite length_map; lia).
    apply map_nth.
  - apply nth_overflow. rewrite length_map. lia.
Qed.

Lemma classify_lane_eq input base s q b i :
  0 <= base + i * 16 -> base + i * 16 + 16 <= Z.of_nat (length input) ->
  classify_lane input base (s, q, b) i =
  Some (Z.lor s (shl64 (lane_mask is_structural input (base + i * 16)) (i * 16)),
        Z.lor q (shl64 (lane_mask is_quote input (base + i * 16)) (i * 16)),
        Z.lor b (shl64 (lane_mask is_backslash input (base + i * 16)) (i * 16))).
Proof.
  intros H0 H1. unfold classify_lane.
  destruct (vld1q_u8_ok input _ H0 H1) as (chunk & Hld & Hlen & _).
  rewrite Hld. unfold lane_mask.
  unfold vld1q_u8 in Hld.
  destruct ((0 <=? base + i * 16) &&
            (base + i * 16 + 16 <=? Z.of_nat (length input))); [| discriminate].
  injection Hld as <-.
  rewrite !vceqq_dup by assumption.
  rewrite !vorrq_masks.
  rewrite !movemask_map by assumption.
  reflexivity.
Qed.

(** The three masks of a chunk, bit by bit. *)
Lemma classify_chunk_64_spec input base :
  0 <= base -> base + 64 <= Z.of_nat (length input) ->
  exists s q b, classify_chunk_64 input base = Some (s, q, b) /\
    in64 s /\ in64 q /\ in64 b /\
    forall k, 0 <= k < 64 ->
      Z.testbit s k = is_structural (byte_at input (base + k)) /\
      Z.testbit q k = is_quote (byte_at input (base + k)) /\
      Z.testbit b k = is_backslash (byte_at input (base + k)).
Proof.
  intros H0 H1. unfold classify_chunk_64.
  rewrite !classify_lane_eq by lia.
  do 3 eexists. split; [reflexivity |].
  assert (Hz : in64 0) by (unfold in64; lia).
  assert (Hbit : forall P k, 0 <= k < 64 ->
    Z.testbit
      (Z.lor (Z.lor (Z.lor (Z.lor 0
         (shl64 (lane_mask P input (base + 0 * 16)) (0 * 16)))
         (shl64 (lane_mask P input (base + 1 * 16)) (1 * 16)))
         (shl64 (lane_mask P input (base + 2 * 16)) (2 * 16)))
         (shl64 (lane_mask P input (base + 3 * 16)) (3 * 16))) k
    = P (byte_at input (base + k))).
  { intros P k Hk.
    rewrite !Z.lor_spec, Z.bits_0, !shl64_testbit by lia.
    rewrite !lane_mask_testbit by lia.
    replace (base + 0 * 16 + (k - 0 * 16)) with (base + k) by lia.
    replace (base + 1 * 16 + (k - 1 * 16)) with (base + k) by lia.
    replace (base + 2 * 16 + (k - 2 * 16)) with (base + k) by lia.
    replace (base + 3 * 16 + (k - 3 * 16)) with (base + k) by lia.
    destruct (P (byte_at input (base + k))).
    - rewrite !andb_true_r.
      destruct (Z.leb_spec 0 (k - 0 * 16)), (Z.ltb_spec (k - 0 * 16) 16),
        (Z.leb_spec 0 (k - 1 * 16)), (Z.ltb_spec (k - 1 * 16) 16),
        (Z.leb_spec 0 (k - 2 * 16)), (Z.ltb_spec (k - 2 * 16) 16),
        (Z.leb_spec 0 (k - 3 * 16)), (Z.ltb_spec (k - 3 * 16) 16);
        try reflexivity; lia.
    - rewrite !andb_false_r. reflexivity. }
  repeat split;
    try (repeat apply in64_lor; try apply u64_in64; assumption);
    apply Hbit; assumption.
Qed.

End ClassifyChunk.

(** ** Writing to the output arrays *)

Section Output.

Lemma emit_push max_output o p ch :
  buf_ok max_output o -> count o < max_output ->
  emit o p ch = Some (push o (p, ch)).
Proof.
  intros (H0 & Hmax & Hp & Hc) Hlt. unfold emit, store, push.
  destruct (Z.leb_spec 0 (count o)); [| lia].
  destruct (Z.ltb_spec (count o) (Z.of_nat (length (positions_buf o)))); [| lia].
  destruct (Z.ltb_spec (count o) (Z.of_nat (length (characters_buf o)))); [| lia].
  simpl. f_equal. f_equal. unfold add64. apply u64_small. unfold in64. lia.
Qed.

Lemma push_buf_ok max_output o e :
  buf_ok max_output o -> buf_ok max_output (push o e).
Proof.
  intros (H0 & Hmax & Hp & Hc). unfold buf_ok, push. simpl.
  rewrite !length_insert. lia.
Qed.

Lemma push_all_cons o e es : push_all o (e :: es) = push_all (push o e) es.
Proof. reflexivity. Qed.

Lemma push_count o e : count (push o e) = count o + 1.
Proof. reflexivity. Qed.

Lemma push_all_app o es1 es2 :
  push_all o (es1 ++ es2) = push_all (push_all o es1) es2.
Proof. apply fold_left_app. Qed.

Lemma push_all_count o es :
  count (push_all o es) = count o + Z.of_nat (length es).
Proof.
  revert o. induction es as [| e es IH]; intros o; simpl.
  - lia.
  - rewrite IH. simpl. lia.
Qed.

Lemma push_all_buf_ok max_output o es :
  buf_ok max_output o -> buf_ok max_output (push_all o es).
Proof.
  revert o. induction es as [| e es IH]; intros o H; simpl; [assumption |].
  apply IH, push_buf_ok, H.
Qed.

Lemma push_all_lengths o es :
  length (positions_buf (push_all o es)) = length (positions_buf o) /\
  length (characters_buf (push_all o es)) = length (characters_buf o).
Proof.
  revert o. induction es as [| e es IH]; intros o; simpl; [tauto |].
  destruct (IH (push o e)) as [-> ->]. simpl. rewrite !length_insert. tauto.
Qed.

(** Entries are appended at [count]; nothing else is touched. *)
Lemma push_all_contents o es :
  0 <= count o ->
  count o + Z.of_nat (length es) <= Z.of_nat (length (positions_buf o)) ->
  count o + Z.of_nat (length es) <= Z.of_nat (length (characters_buf o)) ->
  positions_buf (push_all o es) =
    take (Z.to_nat (count o)) (positions_buf o) ++ map (fun e => u32 (fst e)) es
    ++ drop (Z.to_nat (count o) + length es) (positions_buf o) /\
  characters_buf (push_all o es) =
    take (Z.to_nat (count o)) (characters_buf o) ++ map snd es
    ++ drop (Z.to_nat (count o) + length es) (characters_buf o).
Proof.
  revert o. induction es as [| e es IH]; intros o H0 Hp Hc.
  - simpl. rewrite Nat.add_0_r, !take_drop. tauto.
  - simpl length in *. simpl push_all.
    destruct (IH (push o e)) as [-> ->]; simpl;
      try rewrite !length_insert; try lia.
    replace (Z.to_nat (count o + 1)) with (S (Z.to_nat (count o))) by lia.
    assert (forall (l : list Z) n x, (n < length l)%nat ->
              take (S n) (<[n:=x]> l) = take n l ++ [x]) as Htake.
    { intros l n x Hn. erewrite take_S_r.
      - rewrite take_insert_ge by lia. reflexivity.
      - apply list_lookup_insert_eq. assumption. }
    rewrite !Htake by lia.
    rewrite !drop_insert_lt by lia.
    rewrite <- !app_assoc. simpl.
    rewrite <- !Nat.add_succ_r. tauto.
Qed.

Lemma load_ok input p :
  0 <= p < Z.of_nat (length input) -> load input p = Some (byte_at input p).
Proof.
  intros Hp. unfold load, byte_at.
  destruct (Z.leb_spec 0 p); [| lia].
  destruct (Z.ltb_spec p (Z.of_nat (length input))); [| lia]. simpl.
  destruct (lookup_lt_is_Some_2 input (Z.to_nat p)) as [x Hx]; [lia |].
  rewrite Hx. f_equal. symmetry. apply nth_lookup_Some. assumption.
Qed.

Lemma filter_none {A} (f : A -> bool) l :
  (forall a, In a l -> f a = false) -> List.filter f l = [].
Proof.
  induction l as [| a l IH]; intros H; [reflexivity |].
  simpl. rewrite H by (left; reflexivity). apply IH.
  intros b Hb. apply H. right. assumption.
Qed.

Lemma In_seqZ k m n : In k (seqZ m n) <-> m <= k < m + n.
Proof. rewrite <- list_elem_of_In. apply elem_of_seqZ. Qed.

Lemma bits_list_0 : bits_list 0 = [].
Proof. apply filter_none. intros a _. apply Z.bits_0. Qed.

Lemma bits_list_step x :
  in64 x -> x <> 0 ->
  bits_list x = ctzll x :: bits_list (Z.land x (sub64 x 1)).
Proof.
  intros Hx Hne. destruct (ctzll_spec x Hx Hne) as (Hp & Hset & Hlow).
  set (p := ctzll x) in *. unfold bits_list.
  replace 64 with (p + (1 + (63 - p))) by lia.
  rewrite !(seqZ_app 0 p), !(seqZ_app (0 + p) 1) by lia.
  rewrite !List.filter_app.
  rewrite (filter_none (Z.testbit x) (seqZ 0 p)).
  2:{ intros a Ha. apply In_seqZ in Ha. apply Hlow. lia. }
  rewrite (filter_none _ (seqZ 0 p)).
  2:{ intros a Ha. apply In_seqZ in Ha.
      rewrite clear_lowest_testbit by (assumption || lia).
      rewrite Hlow by lia. reflexivity. }
  change (seqZ (0 + p) 1) with [0 + p]. simpl List.filter at 1 3.
  replace (0 + p) with p by lia. rewrite Hset.
  rewrite clear_lowest_testbit by (assumption || lia).
  fold p. rewrite Z.eqb_refl, andb_false_r. simpl. f_equal.
  apply List.filter_ext_in. intros a Ha. apply In_seqZ in Ha.
  rewrite clear_lowest_testbit by (assumption || lia). fold p.
  destruct (Z.eqb_spec a p); [lia |]. rewrite andb_true_r. reflexivity.
Qed.

Lemma bits_list_ext x f :
  (forall k, 0 <= k < 64 -> Z.testbit x k = f k) ->
  bits_list x = List.filter f (seqZ 0 64).
Proof.
  intros H. apply List.filter_ext_in. intros a Ha. apply In_seqZ in Ha.
  apply H. lia.
Qed.

Lemma bits_list_bound x k : In k (bits_list x) -> 0 <= k < 64.
Proof.
  unfold bits_list. rewrite List.filter_In, In_seqZ. lia.
Qed.

Lemma bits_list_length x : (length (bits_list x) <= 64)%nat.
Proof.
  unfold bits_list. etransitivity; [apply List.filter_length_le |].
  rewrite length_seqZ. lia.
Qed.

Lemma extract_loop_S f input i filtered max_output o :
  extract_loop (S f) input i filtered max_output o =
  if c_true filtered && (count o <? max_output) then
    do ch <- load input (add64 i (ctzll filtered));
    do o' <- emit o (add64 i (ctzll filtered)) ch;
    extract_loop f input i (Z.land filtered (sub64 filtered 1)) max_output o'
  else Some o.
Proof. reflexivity. Qed.

(** The extraction loop appends the set bits of [filtered], lowest first,
    until the capacity is reached. *)
Lemma extract_loop_spec input i max_output fuel : forall filtered o,
  0 <= i -> i + 64 <= Z.of_nat (length input) ->
  Z.of_nat (length input) < 2 ^ 64 ->
  in64 filtered -> buf_ok max_output o ->
  (length (bits_list filtered) < fuel)%nat ->
  extract_loop fuel input i filtered max_output o =
  Some (push_all o
          (take (Z.to_nat (max_output - count o))
                (map (fun k => (i + k, byte_at input (i + k)))
                     (bits_list filtered)))).
Proof.
  induction fuel as [| f IH]; intros filtered o Hi Hlen H64 Hf Hok Hfuel; [lia |].
  rewrite extract_loop_S. unfold c_true.
  destruct (Z.eqb_spec filtered 0) as [-> | Hne].
  - rewrite bits_list_0, andb_false_l. cbn [map]. rewrite take_nil. reflexivity.
  - rewrite andb_true_l.
    destruct (Z.ltb_spec (count o) max_output) as [Hlt | Hge].
    + rewrite bits_list_step in Hfuel |- * by assumption.
      rewrite length_cons in Hfuel.
      destruct (ctzll_spec filtered Hf Hne) as (Hp & _ & _).
      assert (add64 i (ctzll filtered) = i + ctzll filtered) as ->.
      { apply u64_small. unfold in64. lia. }
      rewrite load_ok by lia.
      rewrite (emit_push max_output) by assumption.
      rewrite IH; try assumption.
      * f_equal. rewrite map_cons, push_count.
        replace (Z.to_nat (max_output - count o))
          with (S (Z.to_nat (max_output - (count o + 1)))) by lia.
        rewrite firstn_cons, push_all_cons. reflexivity.
      * apply clear_bit_in64. assumption.
      * apply push_buf_ok. assumption.
      * lia.
    + replace (Z.to_nat (max_output - count o)) with O by lia.
      rewrite firstn_O. reflexivity.
Qed.

End Output.

(** ** What one 64-byte chunk and the scalar tail emit *)

Section Loops.

Lemma simd_loop_S f input input_len max_output i prev_string_state o :
  simd_loop (S f) input input_len max_output i prev_string_state o =
  if (add64 i 64 <=? input_len) && (count o <? max_output) then
    do masks <- classify_chunk_64 input i;
    let '(structural, quotes, backslashes) := masks in
    do odd_bs <- find_odd_backslash_sequences backslashes;
    let escaped_quotes := Z.land quotes (shl64 odd_bs 1) in
    let unescaped_quotes := Z.land quotes (not64 escaped_quotes) in
    let string_mask := prefix_xor unescaped_quotes in
    let string_mask :=
      if c_true prev_string_state then not64 string_mask else string_mask in
    let prev_string_state := parityll unescaped_quotes in
    let filtered :=
      Z.lor (Z.land structural (not64 string_mask)) unescaped_quotes in
    do o' <- extract_loop 65 input i filtered max_output o;
    simd_loop f input input_len max_output (add64 i 64) prev_string_state o'
  else Some (i, prev_string_state, o).
Proof. reflexivity. Qed.

(** The masks computed for the chunk at [i], bit by bit. *)
Lemma chunk_masks input i q b odd_bs :
  in64 q -> in64 b -> in64 odd_bs ->
  (forall k, 0 <= k < 64 ->
     Z.testbit q k = is_quote (byte_at input (i + k)) /\
     Z.testbit b k = is_backslash (byte_at input (i + k))) ->
  (forall k, 0 <= k < 64 -> Z.testbit (shl64 odd_bs 1) k = escZ (Z.testbit b) k) ->
  let unescaped_quotes := Z.land q (not64 (Z.land q (shl64 odd_bs 1))) in
  in64 unescaped_quotes /\
  (forall k, 0 <= k < 64 ->
     Z.testbit (shl64 odd_bs 1) k = esc_local input i k) /\
  (forall k, 0 <= k < 64 -> Z.testbit unescaped_quotes k = uq_local input i k).
Proof.
  intros Hq Hb Ho Hqb Hesc uq.
  assert (Hesc' : forall k, 0 <= k < 64 ->
            Z.testbit (shl64 odd_bs 1) k = esc_local input i k).
  { intros k Hk. rewrite Hesc by lia. unfold esc_local. apply escZ_ext.
    intros j Hj. apply Hqb. lia. }
  split; [apply in64_land; [assumption | apply u64_in64] |].
  split; [assumption |].
  intros k Hk. unfold uq, uq_local.
  rewrite Z.land_spec, not64_testbit, Z.land_spec, Hesc' by lia.
  destruct (Hqb k Hk) as [-> _].
  destruct (is_quote (byte_at input (i + k))), (esc_local input i k); reflexivity.
Qed.

Lemma simd_loop_step f input max_output i prev o :
  0 <= i -> i + 64 <= Z.of_nat (length input) ->
  Z.of_nat (length input) < 2 ^ 64 ->
  buf_ok max_output o -> count o < max_output ->
  simd_loop (S f) input (Z.of_nat (length input)) max_output i prev o =
  simd_loop f input (Z.of_nat (length input)) max_output (i + 64)
    (Z.b2z (chunk_carry input i))
    (push_all o (take (Z.to_nat (max_output - count o))
                      (chunk_out input i (c_true prev)))).
Proof.
  intros Hi Hlen H64 Hok Hlt. rewrite simd_loop_S.
  assert (add64 i 64 = i + 64) as -> by (apply u64_small; unfold in64; lia).
  destruct (Z.leb_spec (i + 64) (Z.of_nat (length input))); [| lia].
  destruct (Z.ltb_spec (count o) max_output); [| lia].
  rewrite andb_true_l.
  destruct (classify_chunk_64_spec input i Hi Hlen)
    as (s & q & b & -> & Hs & Hq & Hb & Hbits).
  destruct (find_odd_backslash_sequences_spec b Hb)
    as (odd_bs & -> & Ho & _ & Hesc).
  destruct (chunk_masks input i q b odd_bs Hq Hb Ho) as (Hu & _ & Hubits);
    [intros k Hk; destruct (Hbits k Hk) as (_ & ? & ?); tauto | assumption |].
  cbv zeta.
  set (uqm := Z.land q (not64 (Z.land q (shl64 odd_bs 1)))) in *.
  assert (Hpx : forall n, (n <= 64)%nat ->
            pxor_upto (Z.testbit uqm) n = pxor_upto (uq_local input i) n).
  { intros n Hn. apply pxor_upto_ext. intros j Hj. apply Hubits. lia. }
  rewrite extract_loop_spec; try assumption.
  - rewrite parityll_spec, Hpx by lia. fold (chunk_carry input i).
    f_equal. f_equal. f_equal. unfold chunk_out, entries. f_equal.
    apply bits_list_ext. intros k Hk. unfold simd_keep.
    rewrite Z.lor_spec, Z.land_spec, not64_testbit, Hubits by lia.
    destruct (Hbits k Hk) as (-> & _ & _). f_equal. f_equal. f_equal.
    destruct (c_true prev).
    + rewrite not64_testbit, prefix_xor_testbit, Hpx by lia.
      destruct (pxor_upto (uq_local input i) (Z.to_nat k + 1)); reflexivity.
    + rewrite prefix_xor_testbit, Hpx by lia.
      destruct (pxor_upto (uq_local input i) (Z.to_nat k + 1)); reflexivity.
  - apply in64_lor; [| assumption]. apply in64_land; [assumption | apply u64_in64].
  - pose proof (bits_list_length
      (Z.lor (Z.land s (not64 (if c_true prev then not64 (prefix_xor uqm)
                               else prefix_xor uqm))) uqm)). lia.
Qed.

Lemma simd_loop_stop f input input_len max_output i prev o :
  max_output <= count o \/ input_len < add64 i 64 ->
  simd_loop (S f) input input_len max_output i prev o = Some (i, prev, o).
Proof.
  intros H. rewrite simd_loop_S.
  destruct (Z.leb_spec (add64 i 64) input_len),
    (Z.ltb_spec (count o) max_output); try reflexivity. lia.
Qed.

End Loops.

Section LoopHelpers.

Lemma push_take_app max_output o (a b : list (Z * Z)) :
  push_all (push_all o (take (Z.to_nat (max_output - count o)) a))
    (take (Z.to_nat (max_output
                     - count (push_all o (take (Z.to_nat (max_output - count o)) a))))
          b)
  = push_all o (take (Z.to_nat (max_output - count o)) (a ++ b)).
Proof.
  rewrite take_app, push_all_app, push_all_count, length_take.
  f_equal. f_equal. lia.
Qed.

Lemma c_true_c_not x : c_true (c_not x) = negb (c_true x).
Proof. unfold c_true, c_not. destruct (x =? 0); reflexivity. Qed.

Lemma pxor_upto_succ u k :
  0 <= k -> pxor_upto u (Z.to_nat (k + 1)) = xorb (pxor_upto u (Z.to_nat k)) (u k).
Proof.
  intros Hk. replace (Z.to_nat (k + 1)) with (S (Z.to_nat k)) by lia.
  cbn [pxor_upto]. rewrite Z2Nat.id by lia. reflexivity.
Qed.

Lemma esc_local_succ input base k :
  0 <= k ->
  esc_local input base (k + 1) =
  is_backslash (byte_at input (base + k)) && negb (esc_local input base k).
Proof. intros Hk. unfold esc_local. rewrite escZ_succ by lia. reflexivity. Qed.

End LoopHelpers.

Section LoopSpecs.

Variable input : list Z.
Variable max_output : Z.
Let len := Z.of_nat (length input).
Hypothesis len_bound : len < 2 ^ 63.

(** The chunk loop emits the entries of the chunks it covers, cut at the
    capacity; when capacity is left, it stops at the first byte of the tail
    with the state handed on by the last chunk. *)
Lemma simd_loop_spec : forall n fuel i prev o,
  (n < fuel)%nat -> 0 <= i ->
  i + 64 * Z.of_nat n <= len -> len < i + 64 * Z.of_nat n + 64 ->
  buf_ok max_output o ->
  exists i' prev',
    simd_loop fuel input len max_output i prev o =
      Some (i', prev',
            push_all o (take (Z.to_nat (max_output - count o))
                             (chunks_out input i (c_true prev) n))) /\
    (count o + Z.of_nat (length (chunks_out input i (c_true prev) n)) < max_output ->
     i' = i + 64 * Z.of_nat n /\
     c_true prev' = carry_after input i (c_true prev) n).
Proof.
  induction n as [| n IH]; intros fuel i prev o Hfuel Hi Hlo Hhi Hok;
    (destruct fuel as [| f]; [lia |]).
  - exists i, prev. split.
    + rewrite simd_loop_stop.
      * cbn [chunks_out]. rewrite take_nil. reflexivity.
      * right. unfold add64. rewrite u64_small; [lia |].
        unfold in64. lia.
    + intros _. cbn [carry_after]. split; [lia | reflexivity].
  - destruct (Z.lt_ge_cases (count o) max_output) as [Hlt | Hge].
    + unfold len. rewrite simd_loop_step; fold len; try assumption; try lia.
      destruct (IH f (i + 64) (Z.b2z (chunk_carry input i))
                  (push_all o (take (Z.to_nat (max_output - count o))
                                    (chunk_out input i (c_true prev)))))
        as (i' & prev' & Hrun & Hfin); try lia.
      { apply push_all_buf_ok. assumption. }
      rewrite c_true_b2z in Hrun, Hfin.
      exists i', prev'. split.
      * rewrite Hrun. cbn [chunks_out]. rewrite push_take_app. reflexivity.
      * cbn [chunks_out carry_after]. rewrite length_app. intros Hroom.
        destruct Hfin as [-> ->]; [| split; [lia | reflexivity]].
        rewrite push_all_count, length_take. lia.
    + exists i, prev. split.
      * rewrite simd_loop_stop by (left; assumption).
        replace (Z.to_nat (max_output - count o)) with O by lia.
        rewrite firstn_O. reflexivity.
      * intros Hroom. lia.
Qed.

Lemma tail_loop_S f input_len i in_string prev_backslash o :
  tail_loop (S f) input input_len max_output i in_string prev_backslash o =
  if (i <? input_len) && (count o <? max_output) then
    do ch <- load input i;
    if (ch =? 92) && negb (c_true prev_backslash) then
      tail_loop f input input_len max_output (add64 i 1) in_string 1 o
    else if (ch =? 34) && negb (c_true prev_backslash) then
      do o' <- emit o i ch;
      tail_loop f input input_len max_output (add64 i 1) (c_not in_string) 0 o'
    else if negb (c_true in_string) && negb (c_true prev_backslash) then
      if is_json_punct ch then
        do o' <- emit o i ch;
        tail_loop f input input_len max_output (add64 i 1) in_string 0 o'
      else tail_loop f input input_len max_output (add64 i 1) in_string 0 o
    else tail_loop f input input_len max_output (add64 i 1) in_string 0 o
  else Some o.
Proof. reflexivity. Qed.

Lemma tail_keep_decision base carry k :
  0 <= k ->
  tail_keep input base carry k =
  tail_decision (byte_at input (base + k))
    (xorb carry (pxor_upto (uq_local input base) (Z.to_nat k)))
    (esc_local input base k).
Proof.
  intros Hk. unfold tail_keep, tail_decision, uq_local at 1, is_quote.
  generalize (xorb carry (pxor_upto (uq_local input base) (Z.to_nat k))).
  generalize (esc_local input base k). generalize (byte_at input (base + k)).
  intros ch e s.
  destruct (Z.eqb_spec ch 92) as [E92 | ?], (Z.eqb_spec ch 34) as [E34 | ?];
    try lia; try subst ch; destruct e, s; reflexivity.
Qed.

Lemma tail_loop_spec base carry : forall fuel i in_string prev_backslash o,
  0 <= base <= i -> i <= len -> len - i < Z.of_nat fuel ->
  buf_ok max_output o ->
  c_true prev_backslash = esc_local input base (i - base) ->
  c_true in_string =
    xorb carry (pxor_upto (uq_local input base) (Z.to_nat (i - base))) ->
  tail_loop fuel input len max_output i in_string prev_backslash o =
  Some (push_all o
          (take (Z.to_nat (max_output - count o))
                (entries input base
                   (List.filter (tail_keep input base carry)
                                (seqZ (i - base) (len - i)))))).
Proof.
  induction fuel as [| f IH]; intros i ins pb o Hb Hi Hfuel Hok Hpb Hins; [lia |].
  rewrite tail_loop_S.
  destruct (Z.ltb_spec i len) as [Hlt | Hge].
  2:{ rewrite seqZ_nil by lia. cbn [List.filter entries map andb].
      rewrite take_nil. reflexivity. }
  destruct (Z.ltb_spec (count o) max_output) as [Hc | Hc].
  2:{ replace (Z.to_nat (max_output - count o)) with O by lia.
      rewrite firstn_O. reflexivity. }
  cbn [andb]. rewrite load_ok by (fold len; lia).
  assert (add64 i 1 = i + 1) as -> by (apply u64_small; unfold in64; lia).
  rewrite (seqZ_cons (i - base)) by lia.
  replace (Z.succ (i - base)) with (i + 1 - base) by lia.
  replace (Z.pred (len - i)) with (len - (i + 1)) by lia.
  cbn [List.filter]. rewrite tail_keep_decision by lia.
  rewrite <- Hins, <- Hpb.
  replace (base + (i - base)) with i by lia.
  assert (Hesc' : forall v, c_true v = is_backslash (byte_at input i)
                              && negb (c_true pb) ->
            c_true v = esc_local input base (i + 1 - base)).
  { intros v ->. replace (i + 1 - base) with (i - base + 1) by lia.
    rewrite esc_local_succ by lia. rewrite <- Hpb.
    replace (base + (i - base)) with i by lia. reflexivity. }
  assert (Hins' : forall v, c_true v = xorb (c_true ins)
                              (is_quote (byte_at input i) && negb (c_true pb)) ->
            c_true v = xorb carry (pxor_upto (uq_local input base)
                                     (Z.to_nat (i + 1 - base)))).
  { intros v ->. replace (i + 1 - base) with (i - base + 1) by lia.
    rewrite pxor_upto_succ by lia. rewrite <- xorb_assoc, <- Hins.
    unfold uq_local. rewrite <- Hpb.
    replace (base + (i - base)) with i by lia. reflexivity. }
  unfold tail_decision, is_backslash, is_quote in *.
  set (ch := byte_at input i) in *.
  destruct ((ch =? 92) && negb (c_true pb)) eqn:E1.
  { rewrite IH; try assumption; try lia; [reflexivity | |].
    - apply Hesc'. reflexivity.
    - apply Hins'. apply andb_true_iff in E1. destruct E1 as [E1 E2].
      apply Z.eqb_eq in E1. rewrite E1, E2. cbn. rewrite xorb_false_r.
      reflexivity. }
  destruct ((ch =? 34) && negb (c_true pb)) eqn:E2.
  { rewrite (emit_push max_output) by assumption.
    rewrite IH; try assumption; try lia.
    - f_equal. unfold entries. cbn [map]. rewrite push_count.
      replace (Z.to_nat (max_output - count o))
        with (S (Z.to_nat (max_output - (count o + 1)))) by lia.
      rewrite firstn_cons, push_all_cons.
      replace (base + (i - base)) with i by lia. reflexivity.
    - apply push_buf_ok. assumption.
    - apply Hesc'. reflexivity.
    - apply Hins'. rewrite c_true_c_not, xorb_true_r. reflexivity. }
  assert (Hkeep : forall v, c_true v = c_true ins ->
            c_true v = xorb carry (pxor_upto (uq_local input base)
                                     (Z.to_nat (i + 1 - base)))).
  { intros v Hv. apply Hins'. rewrite xorb_false_r. assumption. }
  destruct (negb (c_true ins) && negb (c_true pb)) eqn:E3.
  - destruct (is_json_punct ch) eqn:E4.
    + rewrite (emit_push max_output) by assumption.
      rewrite IH; try assumption; try lia.
      * f_equal. unfold entries. cbn [map]. rewrite push_count.
        replace (Z.to_nat (max_output - count o))
          with (S (Z.to_nat (max_output - (count o + 1)))) by lia.
        rewrite firstn_cons, push_all_cons.
        replace (base + (i - base)) with i by lia. reflexivity.
      * apply push_buf_ok. assumption.
      * apply Hesc'. reflexivity.
      * apply Hkeep. reflexivity.
    + rewrite IH; try assumption; try lia; [reflexivity | |].
      * apply Hesc'. reflexivity.
      * apply Hkeep. reflexivity.
  - rewrite IH; try assumption; try lia; [reflexivity | |].
    + apply Hesc'. reflexivity.
    + apply Hkeep. reflexivity.
Qed.

End LoopSpecs.

(** ** The whole call *)

Section WholeCall.

Lemma chunks_out_length input : forall n base carry,
  (length (chunks_out input base carry n) <= 64 * n)%nat.
Proof.
  induction n as [| n IH]; intros base carry; cbn [chunks_out]; [simpl; lia |].
  rewrite length_app. specialize (IH (base + 64) (chunk_carry input base)).
  unfold chunk_out, entries. rewrite length_map.
  pose proof (List.filter_length_le (simd_keep input base carry) (seqZ 0 64)) as H.
  rewrite length_seqZ in H. lia.
Qed.

Lemma code_out_length input :
  (length (code_out input) <= length input)%nat.
Proof.
  unfold code_out, tail_out, entries. rewrite length_app, length_map.
  set (len := Z.of_nat (length input)).
  pose proof (chunks_out_length input (Z.to_nat (len / 64)) 0 false) as H1.
  match goal with |- context [List.filter ?f ?l] =>
    pose proof (List.filter_length_le f l) as H2 end.
  rewrite length_seqZ in H2.
  assert (0 <= len) by lia.
  pose proof (Z.mul_div_le len 64 ltac:(lia)).
  assert (0 <= len / 64) by (apply Z.div_pos; lia).
  lia.
Qed.

Lemma to_int64_small x : 0 <= x < 2 ^ 63 -> to_int64 x = x.
Proof.
  intros Hx. unfold to_int64. rewrite u64_small by (unfold in64; lia).
  destruct (Z.ltb_spec x (2 ^ 63)); [reflexivity | lia].
Qed.

(** A call on valid arguments returns the number of entries written, which
    are the first [max_output] entries of [code_out]. *)
Lemma find_structural_run ctx input ps cs max_output :
  0 < Z.of_nat (length input) < 2 ^ 63 ->
  capacity_ok max_output ps cs ->
  neon_json_find_structural (Some ctx) (Some input) (Z.of_nat (length input))
    (Some ps) (Some cs) max_output =
  let es := take (Z.to_nat max_output) (code_out input) in
  Some {| ret := Z.of_nat (length es);
          res_ctx := Some (ensure_buffers ctx (Z.of_nat (length input)));
          res_positions := Some (positions_buf (written ps cs es));
          res_characters := Some (characters_buf (written ps cs es)) |}.
Proof.
  intros Hlen (Hmax & Hps & Hcs).
  set (len := Z.of_nat (length input)) in *.
  unfold neon_json_find_structural. fold len.
  destruct (Z.eqb_spec len 0) as [? | Hne0]; [lia |].
  set (o0 := {| positions_buf := ps; characters_buf := cs; count := 0 |}).
  set (n := Z.to_nat (len / 64)).
  assert (Hok0 : buf_ok max_output o0) by (unfold buf_ok; simpl; lia).
  assert (Hdiv : 64 * Z.of_nat n <= len < 64 * Z.of_nat n + 64).
  { unfold n. rewrite Z2Nat.id by (apply Z.div_pos; lia).
    pose proof (Z.mul_div_le len 64 ltac:(lia)).
    pose proof (Z.mul_succ_div_gt len 64 ltac:(lia)). lia. }
  destruct (simd_loop_spec input max_output ltac:(fold len; lia) n (S n) 0 0 o0)
    as (i' & prev' & Hrun & Hfin); try assumption; try (fold len; lia).
  fold len in Hrun. rewrite Hrun.
  change (c_true 0) with false in *.
  set (o1 := push_all o0 (take (Z.to_nat (max_output - count o0))
                               (chunks_out input 0 false n))) in *.
  assert (Htail :
    tail_loop 65 input len max_output i' prev' 0 o1 =
    Some (push_all o1 (take (Z.to_nat (max_output - count o1))
            (tail_out input (64 * (len / 64)) (carry_after input 0 false n) len)))).
  { destruct (Z.lt_ge_cases (count o1) max_output) as [Hroom | Hfull].
    - destruct Hfin as [-> Hprev].
      { unfold o1 in Hroom. rewrite push_all_count, length_take in Hroom.
        cbn [count o0] in *. lia. }
      replace (0 + 64 * Z.of_nat n) with (64 * (len / 64))
        by (unfold n; rewrite Z2Nat.id by (apply Z.div_pos; lia); lia).
      unfold len at 1. 
      rewrite (tail_loop_spec input max_output ltac:(fold len; lia)
                 (64 * (len / 64)) (carry_after input 0 false n)); fold len.
      + unfold tail_out. rewrite Z.sub_diag. reflexivity.
      + unfold n in Hdiv. rewrite Z2Nat.id in Hdiv by (apply Z.div_pos; lia). lia.
      + unfold n in Hdiv. rewrite Z2Nat.id in Hdiv by (apply Z.div_pos; lia). lia.
      + unfold n in Hdiv. rewrite Z2Nat.id in Hdiv by (apply Z.div_pos; lia). lia.
      + apply push_all_buf_ok. assumption.
      + rewrite Z.sub_diag. reflexivity.
      + rewrite Z.sub_diag. cbn [Z.to_nat pxor_upto]. rewrite xorb_false_r.
        assumption.
    - rewrite tail_loop_S.
      destruct (Z.ltb_spec (count o1) max_output); [lia |].
      rewrite andb_false_r.
      replace (Z.to_nat (max_output - count o1)) with O by lia.
      rewrite firstn_O. reflexivity. }
  rewrite Htail.
  assert (Hfinal :
    push_all o1 (take (Z.to_nat (max_output - count o1))
      (tail_out input (64 * (len / 64)) (carry_after input 0 false n) len))
    = written ps cs (take (Z.to_nat max_output) (code_out input))).
  { unfold o1. rewrite push_take_app. unfold written, code_out. fold len n o0.
    change (max_output - count o0) with (max_output - 0). rewrite Z.sub_0_r.
    reflexivity. }
  rewrite Hfinal. cbv zeta. f_equal. f_equal.
  unfold written. rewrite push_all_count. cbn [count].
  rewrite Z.add_0_l. apply to_int64_small.
  pose proof (code_out_length input). rewrite length_take. lia.
Qed.

End WholeCall.

(** ** Escapes and string regions of the specification *)

Section Vocabulary.

Lemma esc_run_odd b k : esc_run b k = Nat.odd (run_before b k).
Proof.
  induction k as [| k IH]; [reflexivity |].
  cbn [esc_run run_before]. destruct (b (Z.of_nat k)); [| reflexivity].
  rewrite IH, Nat.odd_succ, <- Nat.negb_odd. reflexivity.
Qed.

Lemma odd_count_upto u n : Nat.odd (count_upto u n) = pxor_upto u n.
Proof.
  induction n as [| n IH]; [reflexivity |].
  cbn [count_upto pxor_upto]. rewrite <- IH. destruct (u (Z.of_nat n)).
  - rewrite Nat.add_1_r, Nat.odd_succ, <- Nat.negb_odd.
    destruct (Nat.odd (count_upto u n)); reflexivity.
  - rewrite Nat.add_0_r, xorb_false_r. reflexivity.
Qed.

Lemma escaped_escZ input p :
  escaped input p = escZ (fun j => is_backslash (byte_at input j)) p.
Proof. unfold escaped, escZ. symmetry. apply esc_run_odd. Qed.

Lemma escaped_0 input : escaped input 0 = false.
Proof. reflexivity. Qed.

Lemma escaped_succ input p :
  0 <= p ->
  escaped input (p + 1) = is_backslash (byte_at input p) && negb (escaped input p).
Proof.
  intros Hp. rewrite !escaped_escZ.
  rewrite (escZ_succ (fun j => is_backslash (byte_at input j))) by lia.
  reflexivity.
Qed.

Lemma in_string_pxor input p :
  in_string input p = pxor_upto (unescaped_quote input) (Z.to_nat p).
Proof. apply odd_count_upto. Qed.

Lemma in_string_0 input : in_string input 0 = false.
Proof. reflexivity. Qed.

Lemma in_string_succ input p :
  0 <= p ->
  in_string input (p + 1) = xorb (in_string input p) (unescaped_quote input p).
Proof.
  intros Hp. rewrite !in_string_pxor.
  rewrite (pxor_upto_succ (unescaped_quote input)) by lia. reflexivity.
Qed.

(** When the first byte of a chunk is not escaped, the chunk-local escape
    and quote bookkeeping agrees with the global one. *)
Lemma esc_local_global input base k :
  0 <= base -> 0 <= k -> escaped input base = false ->
  esc_local input base k = escaped input (base + k).
Proof.
  intros Hb Hk H0. revert k Hk.
  apply natlike_ind.
  - rewrite Z.add_0_r, H0. reflexivity.
  - intros k Hk IH. replace (Z.succ k) with (k + 1) by lia.
    rewrite esc_local_succ by lia. rewrite IH.
    replace (base + (k + 1)) with (base + k + 1) by lia.
    rewrite escaped_succ by lia. reflexivity.
Qed.

Lemma uq_local_global input base k :
  0 <= base -> 0 <= k -> escaped input base = false ->
  uq_local input base k = unescaped_quote input (base + k).
Proof.
  intros Hb Hk H0. unfold uq_local, unescaped_quote.
  rewrite esc_local_global by assumption. reflexivity.
Qed.

Lemma pxor_local_global input base n :
  0 <= base -> escaped input base = false ->
  pxor_upto (uq_local input base) n =
  xorb (in_string input base) (in_string input (base + Z.of_nat n)).
Proof.
  intros Hb H0. induction n as [| n IH].
  - rewrite Z.add_0_r, xorb_nilpotent. reflexivity.
  - cbn [pxor_upto]. rewrite IH, uq_local_global by (assumption || lia).
    replace (base + Z.of_nat (S n)) with (base + Z.of_nat n + 1) by lia.
    rewrite in_string_succ by lia. rewrite xorb_assoc. reflexivity.
Qed.

End Vocabulary.

(** ** Inputs on which the indexer meets the specification's sets *)

Section Ideal.

Variable input : list Z.
Let len := Z.of_nat (length input).
Hypothesis Hbs : forall p,
  0 <= p < len -> is_backslash (byte_at input p) = true ->
  in_string input p = true.

Lemma is_structural_split ch :
  is_structural ch = is_json_punct ch || is_quote ch.
Proof. reflexivity. Qed.

Lemma quote_not_punct ch : is_quote ch = true -> is_json_punct ch = false.
Proof. unfold is_quote. intros H. apply Z.eqb_eq in H. subst. reflexivity. Qed.

Lemma backslash_not_quote ch : is_backslash ch = true -> is_quote ch = false.
Proof. unfold is_backslash. intros H. apply Z.eqb_eq in H. subst. reflexivity. Qed.

Lemma escaped_in_string p :
  0 <= p <= len -> escaped input p = true -> in_string input p = true.
Proof using Hbs.
  intros Hp He. destruct (Z.eq_dec p 0) as [-> | Hp0].
  - rewrite escaped_0 in He. discriminate.
  - replace p with (p - 1 + 1) in * by lia.
    rewrite escaped_succ in He by lia. apply andb_true_iff in He.
    destruct He as [Hb _].
    rewrite in_string_succ by lia. rewrite Hbs by (assumption || lia).
    unfold unescaped_quote. rewrite backslash_not_quote by assumption.
    reflexivity.
Qed.

Lemma keep_cases (P Q E I : bool) :
  (Q = true -> P = false) -> (E = true -> I = true) ->
  ((P || Q) && negb (xorb I (Q && negb E))) || (Q && negb E)
  = (P && negb I) || (Q && negb E)
  /\ (Q && negb E) || (negb I && negb E && P) = (P && negb I) || (Q && negb E).
Proof.
  destruct P, Q, E, I; intros H1 H2; try (specialize (H1 eq_refl));
    try (specialize (H2 eq_refl)); try discriminate; split; reflexivity.
Qed.

Lemma simd_keep_ideal base k :
  0 <= base -> 0 <= k -> base + k < len -> escaped input base = false ->
  simd_keep input base (in_string input base) k = should_emit input (base + k).
Proof using Hbs.
  intros Hb Hk Hlt H0. unfold simd_keep, should_emit.
  rewrite pxor_local_global, uq_local_global by assumption.
  rewrite <- xorb_assoc, xorb_nilpotent, xorb_false_l.
  replace (base + Z.of_nat (Z.to_nat k + 1)) with (base + k + 1) by lia.
  rewrite in_string_succ by lia. rewrite is_structural_split.
  unfold unescaped_quote.
  apply keep_cases.
  - apply quote_not_punct.
  - apply escaped_in_string. lia.
Qed.

Lemma tail_keep_ideal base k :
  0 <= base -> 0 <= k -> base + k < len -> escaped input base = false ->
  tail_keep input base (in_string input base) k = should_emit input (base + k).
Proof using Hbs.
  intros Hb Hk Hlt H0. unfold tail_keep, should_emit.
  rewrite pxor_local_global, uq_local_global, esc_local_global by assumption.
  rewrite <- xorb_assoc, xorb_nilpotent, xorb_false_l.
  rewrite Z2Nat.id by lia.
  unfold unescaped_quote.
  apply keep_cases.
  - apply quote_not_punct.
  - apply escaped_in_string. lia.
Qed.

Lemma entries_shift base (f g : Z -> bool) n : forall m,
  (forall k, m <= k < m + Z.of_nat n -> f k = g (base + k)) ->
  entries input base (List.filter f (seqZ m (Z.of_nat n))) =
  entries input 0 (List.filter g (seqZ (base + m) (Z.of_nat n))).
Proof.
  induction n as [| n IH]; intros m H.
  - reflexivity.
  - rewrite !(seqZ_cons _ (Z.of_nat (S n))) by lia.
    replace (Z.pred (Z.of_nat (S n))) with (Z.of_nat n) by lia.
    cbn [List.filter]. rewrite (H m) by lia.
    replace (Z.succ (base + m)) with (base + Z.succ m) by lia.
    specialize (IH (Z.succ m) ltac:(intros; apply H; lia)).
    unfold entries in *. destruct (g (base + m)); cbn [map]; rewrite IH;
      reflexivity.
Qed.

End Ideal.

Lemma entries_app input base a b :
  entries input base (a ++ b) = entries input base a ++ entries input base b.
Proof. apply map_app. Qed.

Section IdealOutput.

Variable input : list Z.
Let len := Z.of_nat (length input).
Hypothesis wp : well_placed input.

Lemma chunk_start_outside c :
  0 <= c -> 64 * c + 64 < len -> in_string input (64 * c) = false.
Proof using wp.
  intros Hc Hlt. destruct (Z.eq_dec c 0) as [-> | ?].
  - apply in_string_0.
  - apply (chunks_start_outside input wp); fold len; lia.
Qed.

Lemma chunks_ideal : forall n c,
  0 <= c -> 64 * c + 64 * Z.of_nat n <= len ->
  chunks_out input (64 * c) (in_string input (64 * c)) n =
    entries input 0 (List.filter (should_emit input)
                       (seqZ (64 * c) (64 * Z.of_nat n))) /\
  (64 * c + 64 * Z.of_nat n < len ->
   carry_after input (64 * c) (in_string input (64 * c)) n =
   in_string input (64 * c + 64 * Z.of_nat n)).
Proof using wp.
  induction n as [| n IH]; intros c Hc Hle.
  - split; [reflexivity |]. intros _. cbn [carry_after].
    f_equal. lia.
  - cbn [chunks_out carry_after].
    assert (Hesc : escaped input (64 * c) = false).
    { apply (boundaries_unescaped input wp); fold len; lia. }
    assert (Hchunk : chunk_out input (64 * c) (in_string input (64 * c)) =
              entries input 0 (List.filter (should_emit input) (seqZ (64 * c) 64))).
    { unfold chunk_out.
      pose proof (entries_shift input (64 * c)
                    (simd_keep input (64 * c) (in_string input (64 * c)))
                    (should_emit input) 64 0) as Hs.
      change (Z.of_nat 64) with 64 in Hs. rewrite Z.add_0_r in Hs.
      apply Hs. intros k Hk.
      apply simd_keep_ideal; try assumption; try (fold len; lia).
      apply (backslashes_in_strings input wp). }
    rewrite Hchunk.
    replace (64 * Z.of_nat (S n)) with (64 + 64 * Z.of_nat n) by lia.
    rewrite seqZ_app by lia. rewrite List.filter_app.
    rewrite entries_app.
    destruct (Z.lt_ge_cases (64 * c + 64) len) as [Hlt | Hge].
    + assert (Hcarry : chunk_carry input (64 * c) = in_string input (64 * (c + 1))).
      { unfold chunk_carry. rewrite pxor_local_global by (assumption || lia).
        rewrite chunk_start_outside by lia. rewrite xorb_false_l.
        f_equal. lia. }
      rewrite Hcarry.
      replace (64 * c + 64) with (64 * (c + 1)) by lia.
      destruct (IH (c + 1)) as [IH1 IH2]; try lia.
      rewrite IH1. split; [reflexivity |].
      intros H. rewrite IH2 by lia. f_equal. lia.
    + assert (n = O) as -> by lia.
      cbn [chunks_out]. rewrite (seqZ_nil (64 * c + 64)) by lia.
      split; [reflexivity |].
      intros H. lia.
Qed.

(** On a well-placed input the indexer emits exactly the positions the
    specification asks for, in increasing order. *)
Lemma code_out_ideal :
  code_out input =
  entries input 0 (List.filter (should_emit input) (seqZ 0 len)).
Proof using wp.
  unfold code_out. fold len.
  assert (Hlen0 : 0 <= len) by (unfold len; lia).
  assert (Hq : 0 <= len / 64) by (apply Z.div_pos; lia).
  pose proof (Z.mul_div_le len 64 ltac:(lia)) as Hlo.
  pose proof (Z.mul_succ_div_gt len 64 ltac:(lia)) as Hhi.
  set (n := Z.to_nat (len / 64)).
  assert (Hn : 64 * Z.of_nat n = 64 * (len / 64)) by (unfold n; lia).
  destruct (chunks_ideal n 0) as [Hch Hca]; try lia.
  change (64 * 0) with 0 in Hch, Hca. rewrite in_string_0 in Hch, Hca.
  rewrite Hch. rewrite Hn in *.
  assert (Hsplit : seqZ 0 len = seqZ 0 (64 * (len / 64))
            ++ seqZ (0 + 64 * (len / 64)) (len - 64 * (len / 64))).
  { rewrite <- seqZ_app by lia. f_equal. lia. }
  rewrite Hsplit, List.filter_app, entries_app. f_equal.
  unfold tail_out.
  destruct (Z.eq_dec (64 * (len / 64)) len) as [Heq | Hne].
  - rewrite !seqZ_nil by lia. reflexivity.
  - rewrite Hca by lia. rewrite Z.add_0_l.
    pose proof (entries_shift input (64 * (len / 64))
                  (tail_keep input (64 * (len / 64))
                             (in_string input (64 * (len / 64))))
                  (should_emit input)
                  (Z.to_nat (len - 64 * (len / 64))) 0) as Hs.
    rewrite Z2Nat.id, Z.add_0_r in Hs by lia.
    apply Hs. intros k Hk.
    apply tail_keep_ideal; try (fold len; lia).
    + apply (backslashes_in_strings input wp).
    + apply (boundaries_unescaped input wp); fold len; lia.
Qed.

End IdealOutput.

Section Emitted.

Lemma zip_maps {A B C} (f : A -> B) (g : A -> C) (l : list A) :
  zip (map f l) (map g l) = map (fun x => (f x, g x)) l.
Proof. induction l as [| x l IH]; [reflexivity |]. simpl. rewrite IH. reflexivity. Qed.

Lemma emitted_written ps cs es :
  Z.of_nat (length es) <= Z.of_nat (length ps) ->
  Z.of_nat (length es) <= Z.of_nat (length cs) ->
  zip (take (length es) (positions_buf (written ps cs es)))
      (take (length es) (characters_buf (written ps cs es)))
  = map (fun e => (u32 (fst e), snd e)) es.
Proof.
  intros Hp Hc. unfold written.
  destruct (push_all_contents
              {| positions_buf := ps; characters_buf := cs; count := 0 |} es)
    as [-> ->]; cbn [count positions_buf characters_buf]; try lia.
  change (Z.to_nat 0) with O. rewrite !take_0, !app_nil_l.
  rewrite !take_app_length'
    by (rewrite length_map; reflexivity).
  apply zip_maps.
Qed.

(** What a call on valid arguments returns and leaves in the arrays. *)
Lemma emitted_run ctx input ps cs max_output :
  0 < Z.of_nat (length input) < 2 ^ 63 ->
  capacity_ok max_output ps cs ->
  exists r,
    neon_json_find_structural (Some ctx) (Some input) (Z.of_nat (length input))
      (Some ps) (Some cs) max_output = Some r /\
    ret r = Z.of_nat (length (take (Z.to_nat max_output) (code_out input))) /\
    res_positions r = Some (positions_buf
       (written ps cs (take (Z.to_nat max_output) (code_out input)))) /\
    res_characters r = Some (characters_buf
       (written ps cs (take (Z.to_nat max_output) (code_out input)))) /\
    emitted r = map (fun e => (u32 (fst e), snd e))
                    (take (Z.to_nat max_output) (code_out input)).
Proof.
  intros Hlen Hcap. rewrite find_structural_run by assumption. cbv zeta.
  eexists. split; [reflexivity |]. cbn [ret res_positions res_characters].
  split; [reflexivity |]. split; [reflexivity |]. split; [reflexivity |].
  unfold emitted. cbn [ret res_positions res_characters].
  rewrite Nat2Z.id. destruct Hcap as (Hmax & Hps & Hcs).
  apply emitted_written; rewrite length_take; lia.
Qed.

End Emitted.

(** ** Order and bounds of the emitted positions *)

Section Increasing.

Lemma increasing_in_le lo hi l : increasing_in lo hi l -> lo <= hi.
Proof.
  revert lo. induction l as [| x r IH]; intros lo H; simpl in H; [assumption |].
  lia.
Qed.

Lemma increasing_in_weaken lo lo' hi hi' l :
  lo' <= lo -> hi <= hi' -> increasing_in lo hi l -> increasing_in lo' hi' l.
Proof.
  revert lo lo'. induction l as [| x r IH]; intros lo lo' H1 H2 H; simpl in *.
  - lia.
  - destruct H as [Hx Hr]. split; [lia |]. apply (IH (x + 1)); [lia | lia | assumption].
Qed.

Lemma increasing_in_app lo mid hi l1 l2 :
  increasing_in lo mid l1 -> increasing_in mid hi l2 ->
  increasing_in lo hi (l1 ++ l2).
Proof.
  revert lo. induction l1 as [| x r IH]; intros lo H1 H2; simpl in *.
  - apply (increasing_in_weaken mid lo hi hi); [lia | lia | assumption].
  - destruct H1 as [Hx Hr]. pose proof (increasing_in_le _ _ _ H2).
    split; [lia |]. apply IH; assumption.
Qed.

Lemma increasing_in_filter (f : Z -> bool) n : forall m,
  increasing_in m (m + Z.of_nat n) (List.filter f (seqZ m (Z.of_nat n))).
Proof.
  induction n as [| n IH]; intros m.
  - simpl. lia.
  - rewrite seqZ_cons by lia.
    replace (Z.pred (Z.of_nat (S n))) with (Z.of_nat n) by lia.
    specialize (IH (Z.succ m)).
    replace (Z.succ m + Z.of_nat n) with (m + Z.of_nat (S n)) in IH by lia.
    cbn [List.filter]. destruct (f m).
    + simpl. split; [lia |]. replace (m + 1) with (Z.succ m) by lia. assumption.
    + apply (increasing_in_weaken (Z.succ m) m (m + Z.of_nat (S n))
                                  (m + Z.of_nat (S n)));
        [lia | lia | assumption].
Qed.

Lemma increasing_in_lookup lo hi l :
  increasing_in lo hi l ->
  (forall i x, l !! i = Some x -> lo <= x < hi) /\
  (forall i j x y, (i < j)%nat -> l !! i = Some x -> l !! j = Some y -> x < y).
Proof.
  revert lo. induction l as [| a r IH]; intros lo H.
  - split; intros; discriminate.
  - simpl in H. destruct H as [Ha Hr]. destruct (IH _ Hr) as [IH1 IH2].
    split.
    + intros [| i] x Hx; simpl in Hx.
      * injection Hx as <-. assumption.
      * specialize (IH1 i x Hx). lia.
    + intros [| i] [| j] x y Hij Hx Hy; simpl in *; try lia.
      * injection Hx as <-. specialize (IH1 j y Hy). lia.
      * apply (IH2 i j); [lia | assumption | assumption].
Qed.

Lemma increasing_in_take lo hi l n :
  increasing_in lo hi l -> increasing_in lo hi (take n l).
Proof.
  revert lo n. induction l as [| a r IH]; intros lo n H.
  - rewrite take_nil. assumption.
  - destruct n as [| n]; simpl in *.
    + lia.
    + destruct H as [Ha Hr]. split; [assumption |]. apply IH. assumption.
Qed.

End Increasing.

Section CodeOutShape.

Variable input : list Z.
Let len := Z.of_nat (length input).

(** Whatever the input, [code_out] lists pairs (p, input[p]) for a strictly
    increasing sequence of positions p below the length. *)
Lemma chunk_out_shape base carry :
  exists ks, chunk_out input base carry = entries input 0 ks /\
             increasing_in base (base + 64) ks.
Proof.
  exists (List.filter (fun p => simd_keep input base carry (p - base))
                      (seqZ (base + 0) (Z.of_nat 64))).
  split.
  - unfold chunk_out. change 64 with (Z.of_nat 64).
    apply entries_shift. intros k Hk. f_equal. lia.
  - rewrite Z.add_0_r. exact (increasing_in_filter _ 64%nat base).
Qed.

Lemma chunks_out_shape : forall n base carry,
  exists ks, chunks_out input base carry n = entries input 0 ks /\
             increasing_in base (base + 64 * Z.of_nat n) ks.
Proof.
  induction n as [| n IH]; intros base carry.
  - exists []. split; [reflexivity |]. simpl. lia.
  - cbn [chunks_out].
    destruct (chunk_out_shape base carry) as (k1 & -> & H1).
    destruct (IH (base + 64) (chunk_carry input base)) as (k2 & -> & H2).
    exists (k1 ++ k2). split; [symmetry; apply entries_app |].
    apply (increasing_in_app base (base + 64)); [assumption |].
    replace (base + 64 * Z.of_nat (S n)) with (base + 64 + 64 * Z.of_nat n) by lia.
    assumption.
Qed.

Lemma code_out_shape :
  exists ks, code_out input = entries input 0 ks /\ increasing_in 0 len ks.
Proof.
  unfold code_out. fold len.
  assert (Hlen0 : 0 <= len) by (unfold len; lia).
  assert (Hq : 0 <= len / 64) by (apply Z.div_pos; lia).
  pose proof (Z.mul_div_le len 64 ltac:(lia)) as Hlo.
  destruct (chunks_out_shape (Z.to_nat (len / 64)) 0 false) as (k1 & -> & H1).
  rewrite Z2Nat.id, Z.add_0_l in H1 by lia.
  set (base := 64 * (len / 64)) in *.
  set (carry := carry_after input 0 false (Z.to_nat (len / 64))).
  exists (k1 ++ List.filter (fun p => tail_keep input base carry (p - base))
                            (seqZ (base + 0) (Z.of_nat (Z.to_nat (len - base))))).
  split.
  - rewrite entries_app. f_equal. unfold tail_out.
    replace (len - base) with (Z.of_nat (Z.to_nat (len - base))) at 1 by lia.
    apply entries_shift. intros k Hk. f_equal. lia.
  - apply (increasing_in_app 0 base); [assumption |].
    rewrite Z.add_0_r.
    replace len with (base + Z.of_nat (Z.to_nat (len - base))) at 1 by lia.
    apply increasing_in_filter.
Qed.

End CodeOutShape.

Section WrittenLookup.

Lemma written_lookup ps cs es :
  Z.of_nat (length es) <= Z.of_nat (length ps) ->
  Z.of_nat (length es) <= Z.of_nat (length cs) ->
  (forall i e, es !! i = Some e ->
     positions_buf (written ps cs es) !! i = Some (u32 (fst e)) /\
     characters_buf (written ps cs es) !! i = Some (snd e)) /\
  (forall i, (length es <= i)%nat ->
     positions_buf (written ps cs es) !! i = ps !! i /\
     characters_buf (written ps cs es) !! i = cs !! i) /\
  length (positions_buf (written ps cs es)) = length ps /\
  length (characters_buf (written ps cs es)) = length cs.
Proof.
  intros Hp Hc. unfold written.
  pose proof (push_all_lengths
    {| positions_buf := ps; characters_buf := cs; count := 0 |} es) as [L1 L2].
  destruct (push_all_contents
              {| positions_buf := ps; characters_buf := cs; count := 0 |} es)
    as [E1 E2]; cbn [count positions_buf characters_buf] in *; try lia.
  rewrite E1, E2. change (Z.to_nat 0) with O. rewrite !take_0, !app_nil_l.
  rewrite Nat.add_0_l.
  split; [| split; [| split]].
  - intros i e He. pose proof (lookup_lt_Some _ _ _ He) as Hi.
    rewrite !lookup_app_l by (rewrite length_map; assumption).
    rewrite !list_lookup_fmap, He. split; reflexivity.
  - intros i Hi.
    rewrite !lookup_app_r by (rewrite length_map; assumption).
    rewrite !length_map, !lookup_drop.
    replace (length es + (i - length es))%nat with i by lia. split; reflexivity.
  - rewrite length_app, length_map, length_drop. lia.
  - rewrite length_app, length_map, length_drop. lia.
Qed.

End WrittenLookup.

(** ** Shape of every successful call *)

Section RunShape.

Lemma entries_take input base n ks :
  take n (entries input base ks) = entries input base (take n ks).
Proof. unfold entries. apply firstn_map. Qed.

Lemma entries_length input base ks : length (entries input base ks) = length ks.
Proof. apply length_map. Qed.

Lemma entries_lookup input ks i e :
  entries input 0 ks !! i = Some e ->
  exists k, ks !! i = Some k /\ e = (k, byte_at input k).
Proof.
  unfold entries. rewrite list_lookup_fmap. destruct (ks !! i) as [k |]; [| discriminate].
  simpl. intros H. injection H as <-. exists k. split; reflexivity.
Qed.

Lemma u32_le p : 0 <= p -> 0 <= u32 p <= p.
Proof.
  intros Hp. unfold u32. split.
  - apply Z.mod_pos_bound. lia.
  - apply Z.mod_le; lia.
Qed.

Lemma u32_small p : 0 <= p < 2 ^ 32 -> u32 p = p.
Proof. intros Hp. apply Z.mod_small. assumption. Qed.

(** A call on valid arguments writes the pairs (p, input[p]) of a strictly
    increasing list [ks] of positions: the first [max_output] positions of
    [code_out]. *)
Lemma run_shape ctx input ps cs max_output :
  0 < Z.of_nat (length input) < 2 ^ 63 ->
  capacity_ok max_output ps cs ->
  exists r ks,
    neon_json_find_structural (Some ctx) (Some input) (Z.of_nat (length input))
      (Some ps) (Some cs) max_output = Some r /\
    increasing_in 0 (Z.of_nat (length input)) ks /\
    ret r = Z.of_nat (length ks) /\ Z.of_nat (length ks) <= max_output /\
    code_out_prefix input max_output ks /\
    res_positions r = Some (positions_buf (written ps cs (entries input 0 ks))) /\
    res_characters r = Some (characters_buf (written ps cs (entries input 0 ks))).
Proof.
  intros Hlen Hcap.
  destruct (emitted_run ctx input ps cs max_output Hlen Hcap)
    as (r & Hrun & Hret & Hps & Hcs & _).
  destruct (code_out_shape input) as (ks0 & Hks0 & Hinc).
  rewrite Hks0, entries_take in Hret, Hps, Hcs.
  rewrite entries_length in Hret.
  exists r, (take (Z.to_nat max_output) ks0).
  split; [assumption |]. split; [apply increasing_in_take; assumption |].
  split; [assumption |]. split; [rewrite length_take; destruct Hcap; lia |].
  split; [exists ks0; split; [reflexivity | assumption] |].
  split; assumption.
Qed.

End RunShape.

(** * The claims *)

(** ** Memory safety of the output arrays *)

Lemma entries_lookup_Some input ks i k :
  ks !! i = Some k -> entries input 0 ks !! i = Some (k, byte_at input k).
Proof.
  intros H. unfold entries. rewrite list_lookup_fmap, H. reflexivity.
Qed.

(** C10: a call that returns a count never faults on a memory access (the
    model's bounds-checked loads and stores all succeed), returns
    [count <= max_output], leaves every array index at or above [count]
    untouched, and every stored offset is below [input_len], the
    character next to it being the input byte read at the (in-bounds)
    position it was found at. *)
Theorem C10_writes_within_count ctx input ps cs max_output :
  0 < Z.of_nat (length input) < 2 ^ 63 ->
  capacity_ok max_output ps cs ->
  exists r,
    neon_json_find_structural (Some ctx) (Some input) (Z.of_nat (length input))
      (Some ps) (Some cs) max_output = Some r /\
    writes_within_count input ps cs max_output r.
Proof.
  intros Hlen Hcap.
  destruct (run_shape ctx input ps cs max_output Hlen Hcap)
    as (r & ks & Hrun & Hinc & Hret & Hle & _ & Hps & Hcs).
  exists r. split; [assumption |].
  destruct Hcap as (Hmax & Hcp & Hcc).
  destruct (written_lookup ps cs (entries input 0 ks))
    as (Hin & Hout & Hl1 & Hl2); try (rewrite entries_length; lia).
  rewrite entries_length in Hout.
  destruct (increasing_in_lookup _ _ _ Hinc) as [Hbound _].
  split; [lia |].
  eexists _, _. split; [exact Hps |]. split; [exact Hcs |].
  split; [assumption |]. split; [assumption |]. split.
  - intros j Hj. apply Hout. lia.
  - intros j Hj.
    destruct (lookup_lt_is_Some_2 ks j) as [q Hq]; [lia |].
    exists q. pose proof (Hbound j q Hq) as Hqb.
    destruct (Hin j _ (entries_lookup_Some input ks j q Hq)) as [Hp Hc].
    cbn [fst snd] in Hp, Hc. pose proof (u32_le q ltac:(lia)).
    split; [assumption |]. split; [assumption |]. split; [lia | assumption].
Qed.

Lemma C10_witness :
  exists r,
    neon_json_find_structural (Some ex_ctx) (Some ex_object)
      (Z.of_nat (length ex_object)) (Some ex_buf) (Some ex_buf) 8 = Some r /\
    writes_within_count ex_object ex_buf ex_buf 8 r.
Proof.
  apply (C10_writes_within_count ex_ctx ex_object ex_buf ex_buf 8).
  - cbn. lia.
  - unfold capacity_ok. cbn. lia.
Defined.

(** ** Inputs without quotes and backslashes *)

Section Plain.

Variable input : list Z.
Hypothesis Hplain : plain input.

Lemma plain_byte p :
  is_quote (byte_at input p) = false /\ is_backslash (byte_at input p) = false.
Proof using Hplain.
  unfold byte_at, is_quote, is_backslash.
  destruct (nth_in_or_default (Z.to_nat p) input 0) as [Hin | ->].
  - unfold plain in Hplain. rewrite List.Forall_forall in Hplain.
    destruct (Hplain _ Hin) as [H1 H2].
    split; apply Z.eqb_neq; assumption.
  - split; reflexivity.
Qed.

Lemma plain_run_before k :
  run_before (fun j => is_backslash (byte_at input j)) k = O.
Proof using Hplain.
  destruct k as [| k]; [reflexivity |]. cbn [run_before].
  destruct (plain_byte (Z.of_nat k)) as [_ ->]. reflexivity.
Qed.

Lemma plain_escaped p : escaped input p = false.
Proof using Hplain. unfold escaped. rewrite plain_run_before. reflexivity. Qed.

Lemma plain_unescaped_quote p : unescaped_quote input p = false.
Proof using Hplain.
  unfold unescaped_quote. destruct (plain_byte p) as [-> _]. reflexivity.
Qed.

Lemma plain_in_string p : in_string input p = false.
Proof using Hplain.
  unfold in_string.
  assert (forall n, count_upto (unescaped_quote input) n = O) as ->; [| reflexivity].
  induction n as [| n IH]; [reflexivity |].
  cbn [count_upto]. rewrite IH, plain_unescaped_quote. reflexivity.
Qed.

Lemma plain_should_emit p :
  should_emit input p = is_json_punct (byte_at input p).
Proof using Hplain.
  unfold should_emit. rewrite plain_in_string, plain_unescaped_quote.
  rewrite andb_true_r, orb_false_r. reflexivity.
Qed.

Lemma plain_well_placed : well_placed input.
Proof using Hplain.
  split.
  - intros p _ H. destruct (plain_byte p) as [_ H']. congruence.
  - intros. apply plain_escaped.
  - intros. apply plain_in_string.
Qed.

(** All that is emitted for a plain input: the offsets of the six
    punctuation characters. *)
Lemma plain_code_out :
  code_out input =
  entries input 0
    (List.filter (fun p => is_json_punct (byte_at input p))
                 (seqZ 0 (Z.of_nat (length input)))).
Proof using Hplain.
  rewrite (code_out_ideal input plain_well_placed). f_equal.
  apply List.filter_ext. intros p. apply plain_should_emit.
Qed.

End Plain.

Lemma byte_at_seqZ input :
  map (byte_at input) (seqZ 0 (Z.of_nat (length input))) = input.
Proof.
  apply list_eq. intros i. rewrite list_lookup_fmap.
  destruct (Nat.lt_ge_cases i (length input)) as [Hlt | Hge].
  - rewrite lookup_seqZ_lt by lia. simpl. unfold byte_at.
    rewrite Z.add_0_l, Nat2Z.id, nth_lookup.
    destruct (lookup_lt_is_Some_2 input i Hlt) as [x ->]. reflexivity.
  - rewrite lookup_seqZ_ge by lia. simpl. symmetry.
    apply lookup_ge_None_2. assumption.
Qed.

Lemma punct_positions_length input :
  length (List.filter (fun p => is_json_punct (byte_at input p))
                      (seqZ 0 (Z.of_nat (length input))))
  = length (List.filter is_json_punct input).
Proof.
  transitivity (length (List.filter is_json_punct
                  (map (byte_at input) (seqZ 0 (Z.of_nat (length input)))))).
  - rewrite List.filter_map_swap, length_map. reflexivity.
  - rewrite byte_at_seqZ. reflexivity.
Qed.

(** ** Order and consistency of the output *)

(** C5 (amended): for inputs of at most 2^32 bytes, the stored positions
    are strictly increasing and every stored character is the input byte at
    the stored position. *)
Theorem C5_ordered_consistent ctx input ps cs max_output :
  0 < Z.of_nat (length input) <= 2 ^ 32 ->
  capacity_ok max_output ps cs ->
  exists r,
    neon_json_find_structural (Some ctx) (Some input) (Z.of_nat (length input))
      (Some ps) (Some cs) max_output = Some r /\
    0 <= ret r /\ ordered_and_consistent input r.
Proof.
  intros Hlen Hcap.
  destruct (run_shape ctx input ps cs max_output ltac:(lia) Hcap)
    as (r & ks & Hrun & Hinc & Hret & Hle & _ & Hps & Hcs).
  exists r. split; [assumption |]. split; [lia |].
  destruct Hcap as (Hmax & Hcp & Hcc).
  destruct (written_lookup ps cs (entries input 0 ks))
    as (Hin & _ & _ & _); try (rewrite entries_length; lia).
  destruct (increasing_in_lookup _ _ _ Hinc) as [Hbound Hord].
  assert (Hat : forall i, Z.of_nat i < ret r ->
            exists k, ks !! i = Some k /\ 0 <= k < 2 ^ 32 /\
              positions_buf (written ps cs (entries input 0 ks)) !! i = Some k /\
              characters_buf (written ps cs (entries input 0 ks)) !! i
                = Some (byte_at input k)).
  { intros i Hi. destruct (lookup_lt_is_Some_2 ks i) as [k Hk]; [lia |].
    exists k. pose proof (Hbound i k Hk) as Hkb.
    destruct (Hin i _ (entries_lookup_Some input ks i k Hk)) as [Hp Hc].
    cbn [fst snd] in Hp, Hc. rewrite u32_small in Hp by lia.
    split; [assumption |]. split; [lia |]. split; assumption. }
  eexists _, _. split; [exact Hps |]. split; [exact Hcs |]. split.
  - intros i j p q Hij Hj Hp Hq.
    destruct (Hat i ltac:(lia)) as (a & Ha & _ & Hpa & _).
    destruct (Hat j Hj) as (b & Hb & _ & Hpb & _).
    rewrite Hpa in Hp. rewrite Hpb in Hq. injection Hp as <-. injection Hq as <-.
    apply (Hord i j); assumption.
  - intros i p c Hi Hp Hc.
    destruct (Hat i Hi) as (a & Ha & _ & Hpa & Hca).
    rewrite Hpa in Hp. rewrite Hca in Hc. injection Hp as <-. injection Hc as <-.
    reflexivity.
Qed.

Lemma C5_witness :
  exists r,
    neon_json_find_structural (Some ex_ctx) (Some ex_object)
      (Z.of_nat (length ex_object)) (Some ex_buf) (Some ex_buf) 8 = Some r /\
    0 <= ret r /\ ordered_and_consistent ex_object r.
Proof.
  apply (C5_ordered_consistent ex_ctx ex_object ex_buf ex_buf 8).
  - cbn. lia.
  - unfold capacity_ok. cbn. lia.
Defined.

(** ** The emitted set on well-placed inputs *)

Section EmittedIdeal.

Lemma entries_In input (keep : Z -> bool) len p c :
  In (p, c) (entries input 0 (List.filter keep (seqZ 0 len))) <->
  0 <= p < len /\ c = byte_at input p /\ keep p = true.
Proof.
  unfold entries. rewrite in_map_iff. split.
  - intros (k & Hk & Hin). rewrite Z.add_0_l in Hk. injection Hk as <- <-.
    apply List.filter_In in Hin. rewrite In_seqZ in Hin.
    split; [lia |]. split; [reflexivity | tauto].
  - intros (Hp & -> & Hk). exists p. rewrite Z.add_0_l.
    split; [reflexivity |]. apply List.filter_In. rewrite In_seqZ.
    split; [lia | assumption].
Qed.

Lemma entries_u32 input len (keep : Z -> bool) :
  len <= 2 ^ 32 ->
  map (fun e : Z * Z => (u32 (fst e), snd e))
      (entries input 0 (List.filter keep (seqZ 0 len)))
  = entries input 0 (List.filter keep (seqZ 0 len)).
Proof.
  intros Hlen. unfold entries. rewrite map_map. apply map_ext_in.
  intros k Hin. apply List.filter_In in Hin. rewrite In_seqZ in Hin.
  cbn [fst snd]. rewrite Z.add_0_l, u32_small by lia. reflexivity.
Qed.

(** With room for every entry, a well-placed input of at most 2^32 bytes
    yields exactly the specification's pairs. *)
Lemma emitted_ideal ctx input ps cs max_output :
  well_placed input ->
  0 < Z.of_nat (length input) <= 2 ^ 32 ->
  capacity_ok max_output ps cs ->
  Z.of_nat (length (List.filter (should_emit input)
                      (seqZ 0 (Z.of_nat (length input))))) <= max_output ->
  exists r,
    neon_json_find_structural (Some ctx) (Some input) (Z.of_nat (length input))
      (Some ps) (Some cs) max_output = Some r /\
    emitted r = entries input 0 (List.filter (should_emit input)
                                   (seqZ 0 (Z.of_nat (length input)))).
Proof.
  intros Hwp Hlen Hcap Hroom.
  destruct (emitted_run ctx input ps cs max_output ltac:(lia) Hcap)
    as (r & Hrun & _ & _ & _ & Hem).
  exists r. split; [assumption |].
  rewrite Hem, (code_out_ideal input Hwp).
  rewrite take_ge by (rewrite entries_length; lia).
  apply entries_u32. lia.
Qed.

End EmittedIdeal.

(** C1 (amended): on a well-placed input of at most 2^32 bytes, with
    capacity for every byte, the emitted (position, character) pairs are
    exactly the punctuation bytes outside string regions together with the
    unescaped quotes. *)
Theorem C1_emitted_set ctx input ps cs max_output :
  well_placed input ->
  0 < Z.of_nat (length input) <= 2 ^ 32 ->
  capacity_ok max_output ps cs ->
  Z.of_nat (length input) <= max_output ->
  exists r,
    neon_json_find_structural (Some ctx) (Some input) (Z.of_nat (length input))
      (Some ps) (Some cs) max_output = Some r /\
    emits_exactly input r (should_emit input).
Proof.
  intros Hwp Hlen Hcap Hroom.
  destruct (emitted_ideal ctx input ps cs max_output Hwp Hlen Hcap)
    as (r & Hrun & Hem).
  { pose proof (List.filter_length_le (should_emit input)
                  (seqZ 0 (Z.of_nat (length input)))) as H.
    rewrite length_seqZ in H. lia. }
  exists r. split; [assumption |].
  intros p c. rewrite Hem. apply entries_In.
Qed.

(** C6 (amended): on an input of at most 2^32 bytes without quotes and
    backslashes, with capacity for every punctuation byte, the emitted
    positions are exactly the offsets of the six punctuation characters. *)
Theorem C6_plain_positions ctx input ps cs max_output :
  plain input ->
  0 < Z.of_nat (length input) <= 2 ^ 32 ->
  capacity_ok max_output ps cs ->
  Z.of_nat (length (List.filter is_json_punct input)) <= max_output ->
  exists r,
    neon_json_find_structural (Some ctx) (Some input) (Z.of_nat (length input))
      (Some ps) (Some cs) max_output = Some r /\
    emits_positions input r (fun p => is_json_punct (byte_at input p)).
Proof.
  intros Hplain Hlen Hcap Hroom.
  assert (Hf : List.filter (should_emit input) (seqZ 0 (Z.of_nat (length input)))
             = List.filter (fun p => is_json_punct (byte_at input p))
                           (seqZ 0 (Z.of_nat (length input)))).
  { apply List.filter_ext. intros p. apply plain_should_emit. assumption. }
  destruct (emitted_ideal ctx input ps cs max_output
              (plain_well_placed input Hplain) Hlen Hcap)
    as (r & Hrun & Hem).
  { rewrite Hf, punct_positions_length. assumption. }
  exists r. split; [assumption |].
  intros p. rewrite Hem, Hf. rewrite in_map_iff. split.
  - intros ([q c] & Hq & Hin). cbn [fst] in Hq. subst q.
    apply entries_In in Hin. tauto.
  - intros [Hp Hk]. exists (p, byte_at input p). split; [reflexivity |].
    apply entries_In. tauto.
Qed.

Lemma well_placedb_sound input : well_placedb input = true -> well_placed input.
Proof.
  unfold well_placedb. intros H.
  apply andb_true_iff in H. destruct H as [H H3].
  apply andb_true_iff in H. destruct H as [H1 H2].
  rewrite forallb_forall in H1, H2, H3.
  assert (Hlen : 0 <= Z.of_nat (length input)) by lia.
  split.
  - intros p Hp Hb. specialize (H1 p). rewrite In_seqZ in H1.
    specialize (H1 ltac:(lia)). rewrite Hb in H1. exact H1.
  - intros c Hc Hlt. specialize (H2 c). rewrite In_seqZ in H2.
    assert (c <= Z.of_nat (length input) / 64)
      by (apply Z.div_le_lower_bound; lia).
    specialize (H2 ltac:(lia)). apply negb_true_iff in H2. exact H2.
  - intros c Hc Hlt. specialize (H3 c). rewrite In_seqZ in H3.
    assert (c <= Z.of_nat (length input) / 64)
      by (apply Z.div_le_lower_bound; lia).
    assert (c <> Z.of_nat (length input) / 64).
    { intros ->.
      pose proof (Z.mul_succ_div_gt (Z.of_nat (length input)) 64 ltac:(lia)).
      lia. }
    specialize (H3 ltac:(lia)). apply negb_true_iff in H3. exact H3.
Qed.

Lemma C1_witness :
  exists r,
    neon_json_find_structural (Some ex_ctx) (Some ex_escaped)
      (Z.of_nat (length ex_escaped)) (Some ex_buf16) (Some ex_buf16) 16 = Some r /\
    emits_exactly ex_escaped r (should_emit ex_escaped).
Proof.
  apply (C1_emitted_set ex_ctx ex_escaped ex_buf16 ex_buf16 16).
  - apply well_placedb_sound. vm_compute. reflexivity.
  - cbn. lia.
  - unfold capacity_ok. cbn. lia.
  - cbn. lia.
Defined.

Lemma C6_witness :
  exists r,
    neon_json_find_structural (Some ex_ctx) (Some ex_array)
      (Z.of_nat (length ex_array)) (Some ex_buf) (Some ex_buf) 4 = Some r /\
    emits_positions ex_array r (fun p => is_json_punct (byte_at ex_array p)).
Proof.
  apply (C6_plain_positions ex_ctx ex_array ex_buf ex_buf 4).
  - unfold plain, ex_array. repeat constructor; lia.
  - cbn. lia.
  - unfold capacity_ok. cbn. lia.
  - cbn. lia.
Defined.

(** *** Inputs longer than 2^32 bytes *)

Section Sparse.

Variable n : nat.

Lemma sparse_length : Z.of_nat (length (sparse n)) = Z.of_nat n + 2.
Proof.
  unfold sparse. cbn [length]. rewrite length_app, length_replicate.
  cbn [length]. lia.
Qed.

Lemma sparse_plain : plain (sparse n).
Proof.
  unfold plain, sparse. constructor; [lia |].
  apply Forall_app. split.
  - apply Forall_replicate. lia.
  - constructor; [lia | constructor].
Qed.

Lemma byte_at_sparse_0 : byte_at (sparse n) 0 = 123.
Proof. reflexivity. Qed.

Lemma byte_at_sparse_tail p :
  1 <= p -> byte_at (sparse n) p = nth (Z.to_nat (p - 1)) (replicate n 97 ++ [123]) 0.
Proof.
  intros Hp. unfold byte_at, sparse.
  replace (Z.to_nat p) with (S (Z.to_nat (p - 1))) by lia. reflexivity.
Qed.

Lemma byte_at_sparse_mid p : 1 <= p <= Z.of_nat n -> byte_at (sparse n) p = 97.
Proof.
  intros Hp. rewrite byte_at_sparse_tail by lia.
  rewrite nth_lookup, lookup_app_l by (rewrite length_replicate; lia).
  rewrite lookup_replicate_2 by lia. reflexivity.
Qed.

Lemma byte_at_sparse_last : byte_at (sparse n) (Z.of_nat n + 1) = 123.
Proof.
  rewrite byte_at_sparse_tail by lia.
  rewrite nth_lookup, lookup_app_r by (rewrite length_replicate; lia).
  rewrite length_replicate.
  replace (Z.to_nat (Z.of_nat n + 1 - 1) - n)%nat with O by lia. reflexivity.
Qed.

Lemma sparse_code_out :
  code_out (sparse n) = [(0, 123); (Z.of_nat n + 1, 123)].
Proof.
  rewrite (plain_code_out _ sparse_plain), sparse_length.
  replace (Z.of_nat n + 2) with (1 + (Z.of_nat n + 1)) by lia.
  rewrite (seqZ_app 0 1), (seqZ_app (0 + 1) (Z.of_nat n) 1) by lia.
  rewrite !List.filter_app.
  rewrite (filter_none _ (seqZ (0 + 1) (Z.of_nat n))).
  2:{ intros p Hp. apply In_seqZ in Hp. rewrite byte_at_sparse_mid by lia.
      reflexivity. }
  change (seqZ 0 1) with [0]. change (seqZ (0 + 1 + Z.of_nat n) 1)
    with [0 + 1 + Z.of_nat n].
  replace (0 + 1 + Z.of_nat n) with (Z.of_nat n + 1) by lia.
  cbn [List.filter]. rewrite byte_at_sparse_0, byte_at_sparse_last.
  change (is_json_punct 123) with true. cbn iota. unfold entries.
  cbn [app map].
  rewrite !Z.add_0_l, byte_at_sparse_0, byte_at_sparse_last. reflexivity.
Qed.

Lemma written_two a b x y :
  written [0; 0] [0; 0] [(a, x); (b, y)] =
  {| positions_buf := [u32 a; u32 b]; characters_buf := [x; y]; count := 2 |}.
Proof. reflexivity. Qed.

(** With room for two entries, both braces are reported, the second one at
    its offset modulo 2^32. *)
Lemma sparse_run ctx :
  Z.of_nat n + 2 < 2 ^ 63 ->
  exists r,
    neon_json_find_structural (Some ctx) (Some (sparse n))
      (Z.of_nat (length (sparse n))) (Some [0; 0]) (Some [0; 0]) 2 = Some r /\
    ret r = 2 /\
    res_positions r = Some [0; u32 (Z.of_nat n + 1)] /\
    res_characters r = Some [123; 123].
Proof.
  intros Hn.
  destruct (emitted_run ctx (sparse n) [0; 0] [0; 0] 2)
    as (r & Hrun & Hret & Hps & Hcs & _).
  - rewrite sparse_length. lia.
  - unfold capacity_ok. cbn. lia.
  - exists r. split; [assumption |].
    rewrite sparse_code_out in Hret, Hps, Hcs.
    change (take (Z.to_nat 2) [(0, 123); (Z.of_nat n + 1, 123)])
      with [(0, 123); (Z.of_nat n + 1, 123)] in Hret, Hps, Hcs.
    rewrite written_two in Hps, Hcs.
    split; [exact Hret |]. split; [exact Hps | exact Hcs].
Qed.

End Sparse.

Lemma big_val : Z.of_nat big = 4294967295.
Proof. unfold big. lia. Qed.

Opaque big.

Lemma huge_length : Z.of_nat (length huge) = 4294967297.
Proof. unfold huge. rewrite sparse_length, big_val. reflexivity. Qed.

Lemma huge_run :
  exists r,
    neon_json_find_structural (Some ex_ctx) (Some huge) 4294967297
      (Some [0; 0]) (Some [0; 0]) 2 = Some r /\
    ret r = 2 /\ res_positions r = Some [0; 0] /\
    res_characters r = Some [123; 123].
Proof.
  destruct (sparse_run big ex_ctx) as (r & Hrun & Hret & Hps & Hcs).
  - rewrite big_val. lia.
  - fold huge in Hrun. rewrite huge_length in Hrun.
    rewrite big_val in Hps. change (u32 (4294967295 + 1)) with 0 in Hps.
    exists r. exact (conj Hrun (conj Hret (conj Hps Hcs))).
Qed.

Lemma huge_punct_count :
  Z.of_nat (length (List.filter is_json_punct huge)) = 2.
Proof.
  unfold huge, sparse. cbn [List.filter]. change (is_json_punct 123) with true.
  cbn iota. rewrite List.filter_app, (filter_none is_json_punct (replicate big 97)).
  - reflexivity.
  - intros a Ha. apply list_elem_of_In, elem_of_replicate in Ha.
    destruct Ha as [-> _]. reflexivity.
Qed.

(** C5 as stated fails beyond 2^32 bytes: both braces of [huge] are stored
    at position 0. *)
Lemma C5_counterexample :
  Z.of_nat (length huge) = 4294967297 /\ capacity_ok 2 [0; 0] [0; 0] /\
  exists r,
    neon_json_find_structural (Some ex_ctx) (Some huge) 4294967297
      (Some [0; 0]) (Some [0; 0]) 2 = Some r /\
    0 <= ret r /\ ~ ordered_and_consistent huge r.
Proof.
  split; [apply huge_length |].
  split; [unfold capacity_ok; cbn; lia |].
  destruct huge_run as (r & Hrun & Hret & Hps & Hcs).
  exists r. split; [assumption |]. split; [lia |].
  intros (ps' & cs' & Hps' & _ & Hord & _).
  rewrite Hps in Hps'. injection Hps' as <-.
  specialize (Hord 0%nat 1%nat 0 0 ltac:(lia) ltac:(lia) eq_refl eq_refl). lia.
Qed.

(** C6 as stated fails beyond 2^32 bytes: the brace at offset 2^32 of
    [huge] is not among the emitted positions. *)
Lemma C6_counterexample :
  plain huge /\ capacity_ok 2 [0; 0] [0; 0] /\
  Z.of_nat (length (List.filter is_json_punct huge)) <= 2 /\
  exists r,
    neon_json_find_structural (Some ex_ctx) (Some huge) 4294967297
      (Some [0; 0]) (Some [0; 0]) 2 = Some r /\
    ~ emits_positions huge r (fun p => is_json_punct (byte_at huge p)).
Proof.
  split; [apply sparse_plain |].
  split; [unfold capacity_ok; cbn; lia |].
  split; [rewrite huge_punct_count; lia |].
  destruct huge_run as (r & Hrun & Hret & Hps & Hcs).
  exists r. split; [assumption |].
  intros H. destruct (H 4294967296) as [_ Hin].
  assert (Hem : map fst (emitted r) = [0; 0]).
  { unfold emitted. rewrite Hps, Hcs, Hret. reflexivity. }
  rewrite Hem in Hin.
  assert (In 4294967296 [0; 0]) as Hbad.
  { apply Hin. rewrite huge_length. split; [lia |].
    replace 4294967296 with (Z.of_nat big + 1)
      by (rewrite big_val; reflexivity).
    unfold huge. rewrite byte_at_sparse_last. reflexivity. }
  simpl in Hbad. lia.
Qed.

(** C1 as stated fails on the two bytes backslash, opening brace: the brace
    is outside any string, yet the scalar loop skips it. *)
Lemma C1_counterexample :
  exists r,
    neon_json_find_structural (Some ex_ctx) (Some [92; 123]) 2
      (Some [0; 0]) (Some [0; 0]) 2 = Some r /\
    ~ emits_exactly [92; 123] r (should_emit [92; 123]).
Proof.
  eexists. split; [vm_compute; reflexivity |].
  intros H. destruct (H 1 123) as [_ Hin].
  apply Hin. split; [cbn; lia |]. split; reflexivity.
Qed.

(** ** Byte classification *)

Section ClassifyLoop.

Lemma LOOKUP_spec b : is_byte b -> load LOOKUP b = Some (classify_code b).
Proof.
  intros Hb.
  assert (H : forallb (fun b => match load LOOKUP b with
                                | Some c => c =? classify_code b
                                | None => false
                                end) (seqZ 0 256) = true)
    by (vm_compute; reflexivity).
  rewrite forallb_forall in H. specialize (H b).
  rewrite In_seqZ in H. specialize (H ltac:(unfold is_byte in Hb; lia)).
  destruct (load LOOKUP b) as [c |]; [| discriminate].
  apply Z.eqb_eq in H. congruence.
Qed.

Lemma classify_loop_S f input output len i :
  classify_loop (S f) input output len i =
  if i <? len then
    do ch <- load input i;
    do code <- load LOOKUP ch;
    do output' <- store output i code;
    classify_loop f input output' len (add64 i 1)
  else Some output.
Proof. reflexivity. Qed.

Lemma classify_loop_spec input : forall fuel output i,
  Forall is_byte input ->
  Z.of_nat (length input) < 2 ^ 64 ->
  Z.of_nat (length input) <= Z.of_nat (length output) ->
  0 <= i <= Z.of_nat (length input) ->
  Z.of_nat (length input) - i < Z.of_nat fuel ->
  classify_loop fuel input output (Z.of_nat (length input)) i =
  Some (take (Z.to_nat i) output
        ++ map classify_code (drop (Z.to_nat i) input)
        ++ drop (length input) output).
Proof.
  induction fuel as [| f IH]; intros output i Hbytes H64 Hcap Hi Hfuel; [lia |].
  rewrite classify_loop_S.
  destruct (Z.ltb_spec i (Z.of_nat (length input))) as [Hlt | Hge].
  - rewrite load_ok by lia.
    assert (Hb : is_byte (byte_at input i)).
    { unfold byte_at. rewrite List.Forall_forall in Hbytes. apply Hbytes.
      apply nth_In. lia. }
    rewrite (LOOKUP_spec _ Hb).
    unfold store.
    destruct (Z.leb_spec 0 i); [| lia].
    destruct (Z.ltb_spec i (Z.of_nat (length output))); [| lia].
    cbn [andb].
    assert (add64 i 1 = i + 1) as -> by (apply u64_small; unfold in64; lia).
    rewrite IH; try assumption; try lia; [| rewrite length_insert; lia].
    f_equal.
    replace (Z.to_nat (i + 1)) with (S (Z.to_nat i)) by lia.
    assert (Hin : input !! Z.to_nat i = Some (byte_at input i)).
    { unfold byte_at. rewrite nth_lookup.
      destruct (lookup_lt_is_Some_2 input (Z.to_nat i)) as [x ->]; [lia |].
      reflexivity. }
    rewrite (drop_S input (byte_at input i) (Z.to_nat i) Hin).
    erewrite take_S_r by (apply list_lookup_insert_eq; lia).
    rewrite take_insert_ge by lia. rewrite drop_insert_lt by lia.
    rewrite <- app_assoc. reflexivity.
  - assert (i = Z.of_nat (length input)) as -> by lia.
    rewrite Nat2Z.id, drop_all. cbn [map app]. rewrite take_drop. reflexivity.
Qed.

(** A call with valid arguments: every input byte is replaced by its code,
    the rest of the output array is kept. *)
Lemma classify_run input output :
  Forall is_byte input ->
  1 <= Z.of_nat (length input) < 2 ^ 64 ->
  Z.of_nat (length input) <= Z.of_nat (length output) ->
  neon_json_classify (Some input) (Some output) (Z.of_nat (length input)) =
  Some (0, Some (map classify_code input ++ drop (length input) output)).
Proof.
  intros Hbytes Hlen Hout. unfold neon_json_classify.
  destruct (Z.eqb_spec (Z.of_nat (length input)) 0); [lia |].
  rewrite classify_loop_spec; try assumption; try lia.
  change (Z.to_nat 0) with O. rewrite take_0, drop_0. reflexivity.
Qed.

End ClassifyLoop.

(** C9: for an input of [len >= 1] bytes and an output array of at least
    [len] entries, [neon_json_classify] returns 0 and writes, for each input
    byte, its code under the fixed contract, leaving the rest of the array
    alone; the codes depend on the input bytes only, so a second call (on
    whatever the array held before) writes the same codes. *)
Theorem C9_classify_contract input output len :
  Forall is_byte input ->
  len = Z.of_nat (length input) -> 1 <= len < 2 ^ 64 ->
  len <= Z.of_nat (length output) ->
  neon_json_classify (Some input) (Some output) len =
    Some (0, Some (map classify_code input ++ drop (length input) output)) /\
  forall output2, len <= Z.of_nat (length output2) ->
    exists rest, neon_json_classify (Some input) (Some output2) len =
                   Some (0, Some (map classify_code input ++ rest)).
Proof.
  intros Hbytes -> Hlen Hcap.
  split; [apply classify_run; assumption |].
  intros output2 H2. eexists. apply classify_run; assumption.
Qed.

Lemma C9_witness :
  neon_json_classify (Some ex_bytes) (Some ex_buf16) 14 =
    Some (0, Some (map classify_code ex_bytes ++ drop (length ex_bytes) ex_buf16)) /\
  forall output2, 14 <= Z.of_nat (length output2) ->
    exists rest, neon_json_classify (Some ex_bytes) (Some output2) 14 =
                   Some (0, Some (map classify_code ex_bytes ++ rest)).
Proof.
  apply (C9_classify_contract ex_bytes ex_buf16 14).
  - unfold ex_bytes, is_byte. repeat constructor; lia.
  - reflexivity.
  - lia.
  - cbn. lia.
Defined.

(** ** Argument errors *)

(** C7: [neon_json_find_structural] returns -1 exactly when one of its
    pointer arguments is null or [input_len] is 0, and then leaves both
    output arrays as they were; [neon_json_classify] returns -1 exactly on a
    null input, a null output or a zero length, and then writes nothing. *)
Theorem C7_argument_errors ctx input input_len positions characters max_output
    cin cout clen :
  valid_find_args input input_len positions characters max_output ->
  valid_classify_args cin cout clen ->
  (exists r,
     neon_json_find_structural ctx input input_len positions characters
       max_output = Some r /\
     find_error_contract ctx input input_len positions characters r) /\
  (exists rc output',
     neon_json_classify cin cout clen = Some (rc, output') /\
     classify_error_contract cin cout clen rc output').
Proof.
  intros (Hlen & Hin & Hcap) (Hclen & Hcin & Hcout). split.
  - unfold find_error_contract.
    destruct ctx as [c |], input as [inp |], positions as [ps |],
      characters as [cs |];
      try (eexists; split; [reflexivity |]; cbn [ret res_positions res_characters];
           split; [split; [intros _ | reflexivity] | intros _; split; reflexivity];
           tauto).
    destruct (Hin inp eq_refl) as [Hl Hb]. specialize (Hcap ps cs eq_refl eq_refl).
    destruct (Z.eq_dec input_len 0) as [-> | Hne].
    + eexists. split; [reflexivity |]. cbn [ret res_positions res_characters].
      split; [split; [intros _ | reflexivity] | intros _; split; reflexivity].
      tauto.
    + subst input_len.
      destruct (run_shape c inp ps cs max_output ltac:(lia) Hcap)
        as (r & ks & Hrun & _ & Hret & _).
      exists r. split; [assumption |]. split.
      * split; [lia |]. intros [H | [H | [H | [H | H]]]];
          try discriminate H. lia.
      * lia.
  - unfold classify_error_contract.
    destruct cin as [inp |], cout as [out |];
      try (eexists _, _; split; [reflexivity |];
           split; [split; [intros _ | reflexivity] | intros _; reflexivity];
           tauto).
    destruct (Hcin inp eq_refl) as [Hbytes Hl]. specialize (Hcout out eq_refl).
    destruct (Z.eq_dec clen 0) as [-> | Hne].
    + eexists _, _. split; [reflexivity |].
      split; [split; [intros _ | reflexivity] | intros _; reflexivity]. tauto.
    + subst clen.
      eexists _, _. split; [apply classify_run; assumption || lia |]. split.
      * split; [lia |]. intros [H | [H | H]]; try discriminate H. lia.
      * lia.
Qed.

Lemma C7_witness :
  (exists r,
     neon_json_find_structural (Some ex_ctx) (Some ex_object) 7 None
       (Some ex_buf) 8 = Some r /\
     find_error_contract (Some ex_ctx) (Some ex_object) 7 None (Some ex_buf) r) /\
  (exists rc output',
     neon_json_classify (Some ex_bytes) None 14 = Some (rc, output') /\
     classify_error_contract (Some ex_bytes) None 14 rc output').
Proof.
  apply (C7_argument_errors (Some ex_ctx) (Some ex_object) 7 None (Some ex_buf) 8
           (Some ex_bytes) None 14).
  - unfold valid_find_args. split; [lia |]. split.
    + intros inp H. injection H as <-. cbn. lia.
    + intros ps cs H. discriminate H.
  - unfold valid_classify_args. split; [lia |]. split.
    + intros inp H. injection H as <-. split; [| reflexivity].
      unfold ex_bytes, is_byte. repeat constructor; lia.
    + intros out H. discriminate H.
Defined.

(** ** Reaching the output capacity *)

(** C8 (amended): when the capacity is reached first, the call returns
    [max_output] and the arrays hold exactly the first [max_output] entries
    a call with room for the whole input emits; in general the returned
    count is the smaller of [max_output] and the full count.  The result
    carries no truncation flag. *)
Theorem C8_truncation ctx input ps cs max_output ps_full cs_full max_full :
  0 < Z.of_nat (length input) < 2 ^ 63 ->
  capacity_ok max_output ps cs ->
  capacity_ok max_full ps_full cs_full ->
  Z.of_nat (length input) <= max_full ->
  exists r r_full,
    neon_json_find_structural (Some ctx) (Some input) (Z.of_nat (length input))
      (Some ps) (Some cs) max_output = Some r /\
    neon_json_find_structural (Some ctx) (Some input) (Z.of_nat (length input))
      (Some ps_full) (Some cs_full) max_full = Some r_full /\
    ret r = Z.min max_output (ret r_full) /\
    emitted r = take (Z.to_nat max_output) (emitted r_full).
Proof.
  intros Hlen Hcap Hcapf Hroom.
  destruct (emitted_run ctx input ps cs max_output Hlen Hcap)
    as (r & Hrun & Hret & _ & _ & Hem).
  destruct (emitted_run ctx input ps_full cs_full max_full Hlen Hcapf)
    as (rf & Hrunf & Hretf & _ & _ & Hemf).
  pose proof (code_out_length input) as Hco.
  rewrite (take_ge (code_out input)) in Hretf, Hemf by lia.
  exists r, rf. split; [assumption |]. split; [assumption |]. split.
  - rewrite Hret, Hretf, length_take. destruct Hcap as ((? & ?) & _). lia.
  - rewrite Hem, Hemf. symmetry. apply firstn_map.
Qed.

Lemma C8_witness :
  exists r r_full,
    neon_json_find_structural (Some ex_ctx) (Some ex_object)
      (Z.of_nat (length ex_object)) (Some ex_buf) (Some ex_buf) 3 = Some r /\
    neon_json_find_structural (Some ex_ctx) (Some ex_object)
      (Z.of_nat (length ex_object)) (Some ex_buf) (Some ex_buf) 8 = Some r_full /\
    ret r = Z.min 3 (ret r_full) /\
    emitted r = take (Z.to_nat 3) (emitted r_full).
Proof.
  apply (C8_truncation ex_ctx ex_object ex_buf ex_buf 3 ex_buf ex_buf 8).
  - cbn. lia.
  - unfold capacity_ok. cbn. lia.
  - unfold capacity_ok. cbn. lia.
  - cbn. lia.
Defined.

(** C8 as stated fails: a call cut short at two entries (a third one, the
    comma, is dropped) leaves exactly what a complete call leaves, so
    nothing in the result can serve as a truncation flag. *)
Lemma C8_counterexample :
  length (code_out [123; 125; 44]) = 3%nat /\
  length (code_out [123; 125]) = 2%nat /\
  ~ exists flag : option result -> bool,
      flag (neon_json_find_structural (Some ex_ctx) (Some [123; 125; 44]) 3
              (Some [0; 0]) (Some [0; 0]) 2) = true /\
      flag (neon_json_find_structural (Some ex_ctx) (Some [123; 125]) 2
              (Some [0; 0]) (Some [0; 0]) 2) = false.
Proof.
  split; [vm_compute; reflexivity |]. split; [vm_compute; reflexivity |].
  intros (flag & Ht & Hc).
  assert (E : neon_json_find_structural (Some ex_ctx) (Some [123; 125; 44]) 3
                (Some [0; 0]) (Some [0; 0]) 2 =
              neon_json_find_structural (Some ex_ctx) (Some [123; 125]) 2
                (Some [0; 0]) (Some [0; 0]) 2) by (vm_compute; reflexivity).
  rewrite E in Ht. congruence.
Qed.

(** ** Escape analysis *)

(** C2 (amended): inside each 64-byte chunk, bit [k] of the escape mask is
    set exactly when byte [k] is immediately preceded, within that chunk, by
    an odd number of consecutive backslashes.  Runs are not followed across
    a chunk boundary: there is no backslash carry, bit 0 is always clear and
    the mask of a chunk is determined by its own 64 bytes. *)
Theorem C2_escape_mask_local input i :
  0 <= i -> i + 64 <= Z.of_nat (length input) ->
  exists m,
    escape_mask input i = Some m /\
    (forall k, 0 <= k < 64 ->
       Z.testbit m k = Nat.odd (run_before (bs_at input i) (Z.to_nat k))) /\
    Z.testbit m 0 = false /\
    (forall input' i' m',
       escape_mask input' i' = Some m' ->
       0 <= i' -> i' + 64 <= Z.of_nat (length input') ->
       (forall k, 0 <= k < 64 -> byte_at input' (i' + k) = byte_at input (i + k)) ->
       forall k, 0 <= k < 64 -> Z.testbit m' k = Z.testbit m k).
Proof.
  assert (Hmask : forall inp j, 0 <= j -> j + 64 <= Z.of_nat (length inp) ->
    exists m, escape_mask inp j = Some m /\
      forall k, 0 <= k < 64 ->
        Z.testbit m k = Nat.odd (run_before (bs_at inp j) (Z.to_nat k))).
  { intros inp j Hj Hlen. unfold escape_mask.
    destruct (classify_chunk_64_spec inp j Hj Hlen)
      as (s & q & b & -> & Hs & Hq & Hb & Hbits).
    destruct (find_odd_backslash_sequences_spec b Hb)
      as (odd_bs & -> & Ho & _ & Hesc).
    destruct (chunk_masks inp j q b odd_bs Hq Hb Ho) as (_ & Hloc & _);
      [intros k Hk; destruct (Hbits k Hk) as (_ & ? & ?); tauto | assumption |].
    eexists. split; [reflexivity |].
    intros k Hk. rewrite Hloc by assumption. unfold esc_local, escZ.
    apply esc_run_odd. }
  intros Hi Hlen. destruct (Hmask input i Hi Hlen) as (m & Hm & Hbits).
  exists m. split; [assumption |]. split; [assumption |].
  split; [rewrite Hbits by lia; reflexivity |].
  intros input' i' m' Hm' Hi' Hlen' Hsame k Hk.
  destruct (Hmask input' i' Hi' Hlen') as (m2 & Hm2 & Hbits2).
  rewrite Hm' in Hm2. injection Hm2 as <-.
  rewrite Hbits, Hbits2 by assumption.
  rewrite <- !esc_run_odd. apply esc_run_ext.
  intros j Hj. unfold bs_at. rewrite Hsame by lia. reflexivity.
Qed.

Lemma C2_witness :
  exists m,
    escape_mask ex_straddle 64 = Some m /\
    (forall k, 0 <= k < 64 ->
       Z.testbit m k = Nat.odd (run_before (bs_at ex_straddle 64) (Z.to_nat k))) /\
    Z.testbit m 0 = false /\
    (forall input' i' m',
       escape_mask input' i' = Some m' ->
       0 <= i' -> i' + 64 <= Z.of_nat (length input') ->
       (forall k, 0 <= k < 64 ->
          byte_at input' (i' + k) = byte_at ex_straddle (64 + k)) ->
       forall k, 0 <= k < 64 -> Z.testbit m' k = Z.testbit m k).
Proof.
  apply (C2_escape_mask_local ex_straddle 64).
  - lia.
  - cbn. lia.
Defined.

(** C2 as stated fails at a chunk boundary: the quote at offset 64 follows
    exactly one backslash, yet bit 0 of the second chunk's escape mask is
    clear and the quote is emitted as a string delimiter. *)
Lemma C2_counterexample :
  escaped ex_straddle 64 = true /\
  exists m, escape_mask ex_straddle 64 = Some m /\ Z.testbit m 0 = false.
Proof.
  split; [vm_compute; reflexivity |].
  eexists. split; [vm_compute; reflexivity |]. reflexivity.
Qed.

(** ** The string carry between chunks *)

(** C3: on [ex_open_string] the chunk loop leaves [prev_string_state = 0]
    after the second chunk, the parity of that chunk alone, where the
    incoming carry XOR that parity is 1: the brace at offset 128 lies inside
    the still open string and is emitted all the same. *)
Lemma C3_carry_dropped :
  in_string ex_open_string 128 = true /\
  (exists o,
     simd_loop 3 ex_open_string 129 8 0 0
       {| positions_buf := ex_buf; characters_buf := ex_buf; count := 0 |}
     = Some (128, 0, o)) /\
  exists r,
    neon_json_find_structural (Some ex_ctx) (Some ex_open_string) 129
      (Some ex_buf) (Some ex_buf) 8 = Some r /\
    emitted r = [(0, 34); (128, 123)].
Proof.
  split; [vm_compute; reflexivity |].
  split; [eexists; vm_compute; reflexivity |].
  eexists. split; [vm_compute; reflexivity |]. reflexivity.
Qed.

(** ** Inserting a byte *)

Section Shim.

Variables l1 l2 : list Z.
Variable shim : Z.
Let input := l1 ++ l2.
Let input' := l1 ++ shim :: l2.
Let q := Z.of_nat (length l1).

Hypothesis shim_not_structural : is_structural shim = false.
Hypothesis shim_not_backslash : is_backslash shim = false.

Lemma shim_not_quote : is_quote shim = false.
Proof using shim_not_structural.
  rewrite is_structural_split in shim_not_structural.
  apply orb_false_iff in shim_not_structural. tauto.
Qed.

Lemma shim_not_punct : is_json_punct shim = false.
Proof using shim_not_structural.
  rewrite is_structural_split in shim_not_structural.
  apply orb_false_iff in shim_not_structural. tauto.
Qed.

Lemma byte_before p : 0 <= p < q -> byte_at input' p = byte_at input p.
Proof.
  intros Hp. unfold byte_at, input, input'.
  rewrite !app_nth1 by lia. reflexivity.
Qed.

Lemma byte_shim : byte_at input' q = shim.
Proof.
  unfold byte_at, input', q. rewrite Nat2Z.id, app_nth2 by lia.
  rewrite Nat.sub_diag. reflexivity.
Qed.

Lemma byte_after p : q <= p -> byte_at input' (p + 1) = byte_at input p.
Proof.
  intros Hp. unfold byte_at, input, input'.
  rewrite !app_nth2 by lia.
  replace (Z.to_nat (p + 1) - length l1)%nat
    with (S (Z.to_nat p - length l1)) by lia.
  reflexivity.
Qed.

Lemma from_q (P : Z -> Prop) :
  P q -> (forall p, q <= p -> P p -> P (p + 1)) -> forall p, q <= p -> P p.
Proof.
  intros H0 HS p Hp.
  replace p with (q + Z.of_nat (Z.to_nat (p - q))) by lia.
  induction (Z.to_nat (p - q)) as [| n IH].
  - rewrite Z.add_0_r. assumption.
  - replace (q + Z.of_nat (S n)) with (q + Z.of_nat n + 1) by lia.
    apply HS; [lia | assumption].
Qed.

Lemma escaped_before p : 0 <= p <= q -> escaped input' p = escaped input p.
Proof.
  intros Hp. rewrite !escaped_escZ. apply escZ_ext.
  intros j Hj. rewrite byte_before by lia. reflexivity.
Qed.

Lemma escaped_after :
  escaped input q = false ->
  forall p, q <= p -> escaped input' (p + 1) = escaped input p.
Proof using shim_not_backslash.
  intros Hq. apply from_q.
  - rewrite escaped_succ by (unfold q; lia).
    rewrite byte_shim, shim_not_backslash, Hq. reflexivity.
  - intros p Hp IH.
    rewrite (escaped_succ input' (p + 1)), (escaped_succ input p)
      by (unfold q in *; lia).
    rewrite IH, byte_after by assumption. reflexivity.
Qed.

Lemma unescaped_quote_before p :
  0 <= p < q -> unescaped_quote input' p = unescaped_quote input p.
Proof.
  intros Hp. unfold unescaped_quote.
  rewrite byte_before, escaped_before by lia. reflexivity.
Qed.

Lemma unescaped_quote_shim : unescaped_quote input' q = false.
Proof using shim_not_structural.
  unfold unescaped_quote. rewrite byte_shim, shim_not_quote. reflexivity.
Qed.

Lemma unescaped_quote_after p :
  escaped input q = false -> q <= p ->
  unescaped_quote input' (p + 1) = unescaped_quote input p.
Proof using shim_not_backslash.
  intros Hq Hp. unfold unescaped_quote.
  rewrite byte_after, escaped_after by assumption. reflexivity.
Qed.

Lemma in_string_before p : 0 <= p <= q -> in_string input' p = in_string input p.
Proof.
  intros Hp. rewrite !in_string_pxor. apply pxor_upto_ext.
  intros j Hj. apply unescaped_quote_before. lia.
Qed.

Lemma in_string_after :
  escaped input q = false ->
  forall p, q <= p -> in_string input' (p + 1) = in_string input p.
Proof using shim_not_backslash shim_not_structural.
  intros Hq. apply from_q.
  - rewrite in_string_succ by (unfold q; lia).
    rewrite unescaped_quote_shim, xorb_false_r.
    apply in_string_before. unfold q. lia.
  - intros p Hp IH.
    rewrite (in_string_succ input' (p + 1)), (in_string_succ input p)
      by (unfold q in *; lia).
    rewrite IH, unescaped_quote_after by assumption. reflexivity.
Qed.

Lemma should_emit_before p :
  0 <= p < q -> should_emit input' p = should_emit input p.
Proof.
  intros Hp. unfold should_emit.
  rewrite byte_before, in_string_before, unescaped_quote_before by lia.
  reflexivity.
Qed.

Lemma should_emit_shim : should_emit input' q = false.
Proof using shim_not_structural.
  unfold should_emit.
  rewrite unescaped_quote_shim, byte_shim, shim_not_punct. reflexivity.
Qed.

Lemma should_emit_after p :
  escaped input q = false -> q <= p ->
  should_emit input' (p + 1) = should_emit input p.
Proof using shim_not_backslash shim_not_structural.
  intros Hq Hp. unfold should_emit.
  rewrite byte_after, in_string_after, unescaped_quote_after by assumption.
  reflexivity.
Qed.

Lemma entries_reindex (inp inp' : list Z) (f g : Z -> bool) (h : Z -> Z) l :
  (forall k, In k l -> g (h k) = f k /\ byte_at inp' (h k) = byte_at inp k) ->
  entries inp' 0 (List.filter g (map h l)) =
  map (fun e => (h (fst e), snd e)) (entries inp 0 (List.filter f l)).
Proof.
  induction l as [| k l IH]; intros H; [reflexivity |].
  cbn [map List.filter].
  destruct (H k ltac:(left; reflexivity)) as [-> Hb].
  specialize (IH ltac:(intros j Hj; apply H; right; assumption)).
  destruct (f k); [| assumption].
  unfold entries in *. cbn [map fst snd]. rewrite IH, !Z.add_0_l, Hb.
  reflexivity.
Qed.

Lemma seqZ_with_gap len :
  q <= len ->
  seqZ 0 (len + 1) =
  map (shift_pos q) (seqZ 0 q) ++ [q] ++ map (shift_pos q) (seqZ q (len - q)).
Proof.
  intros Hlen. assert (Hq : 0 <= q) by (unfold q; lia).
  replace (len + 1) with (q + (1 + (len - q))) by lia.
  rewrite (seqZ_app 0 q), (seqZ_app (0 + q) 1) by lia.
  rewrite Z.add_0_l. f_equal; [| f_equal].
  - rewrite <- (map_id (seqZ 0 q)) at 1. apply map_ext_in.
    intros k Hk. apply In_seqZ in Hk. unfold shift_pos.
    destruct (Z.ltb_spec k q); [reflexivity | lia].
  - replace (q + 1) with (1 + q) by lia.
    rewrite <- (fmap_add_seqZ 1 q). apply map_ext_in.
    intros k Hk. apply In_seqZ in Hk. unfold shift_pos.
    destruct (Z.ltb_spec k q); lia.
Qed.

(** The specification's positions of the longer input are those of the
    shorter one, moved past the inserted byte. *)
Lemma ideal_shift :
  escaped input q = false ->
  entries input' 0 (List.filter (should_emit input')
                      (seqZ 0 (Z.of_nat (length input'))))
  = map (shift_after q)
        (entries input 0 (List.filter (should_emit input)
                            (seqZ 0 (Z.of_nat (length input))))).
Proof using shim_not_backslash shim_not_structural.
  intros Hq.
  assert (Hlen' : Z.of_nat (length input') = Z.of_nat (length input) + 1).
  { unfold input, input'. rewrite !length_app. cbn [length]. lia. }
  assert (Hql : q <= Z.of_nat (length input)).
  { unfold input, q. rewrite length_app. lia. }
  rewrite Hlen', (seqZ_with_gap _ Hql).
  rewrite !List.filter_app. cbn [List.filter]. rewrite should_emit_shim.
  rewrite app_nil_l, <- List.filter_app, <- map_app.
  replace (seqZ 0 q ++ seqZ q (Z.of_nat (length input) - q))
    with (seqZ 0 (Z.of_nat (length input))).
  2:{ replace (Z.of_nat (length input))
        with (q + (Z.of_nat (length input) - q)) at 1 by lia.
      rewrite seqZ_app by (unfold q; lia). reflexivity. }
  apply entries_reindex. intros k Hk. apply In_seqZ in Hk. unfold shift_pos.
  destruct (Z.ltb_spec k q).
  - split; [apply should_emit_before | apply byte_before]; lia.
  - split; [apply should_emit_after | apply byte_after]; assumption.
Qed.

End Shim.

(** C4 (amended): when the input and the input with one byte inserted are
    both well-placed and at most 2^32 bytes long, the inserted byte is none
    of the eight special characters and it is inserted outside a string,
    the later positions move up by exactly one and the emitted characters
    stay the same. *)
Theorem C4_shim_shift ctx l1 l2 shim ps cs max_output :
  is_structural shim = false -> is_backslash shim = false ->
  well_placed (l1 ++ l2) -> well_placed (l1 ++ shim :: l2) ->
  in_string (l1 ++ l2) (Z.of_nat (length l1)) = false ->
  0 < Z.of_nat (length (l1 ++ l2)) ->
  Z.of_nat (length (l1 ++ shim :: l2)) <= 2 ^ 32 ->
  capacity_ok max_output ps cs ->
  Z.of_nat (length (l1 ++ shim :: l2)) <= max_output ->
  exists r r',
    neon_json_find_structural (Some ctx) (Some (l1 ++ l2))
      (Z.of_nat (length (l1 ++ l2))) (Some ps) (Some cs) max_output = Some r /\
    neon_json_find_structural (Some ctx) (Some (l1 ++ shim :: l2))
      (Z.of_nat (length (l1 ++ shim :: l2))) (Some ps) (Some cs) max_output
      = Some r' /\
    emitted r' = map (shift_after (Z.of_nat (length l1))) (emitted r).
Proof.
  intros Hs Hb Hwp Hwp' Hout Hlen Hlen' Hcap Hroom.
  assert (Hl : Z.of_nat (length (l1 ++ shim :: l2))
               = Z.of_nat (length (l1 ++ l2)) + 1).
  { rewrite !length_app. cbn [length]. lia. }
  assert (Hq : escaped (l1 ++ l2) (Z.of_nat (length l1)) = false).
  { destruct (escaped (l1 ++ l2) (Z.of_nat (length l1))) eqn:E; [| reflexivity].
    rewrite (escaped_in_string (l1 ++ l2)) in Hout; [discriminate | | | exact E].
    - apply (backslashes_in_strings _ Hwp).
    - rewrite length_app. lia. }
  destruct (emitted_ideal ctx (l1 ++ l2) ps cs max_output Hwp ltac:(lia) Hcap)
    as (r & Hrun & Hem).
  { pose proof (List.filter_length_le (should_emit (l1 ++ l2))
                  (seqZ 0 (Z.of_nat (length (l1 ++ l2))))) as H.
    rewrite length_seqZ in H. lia. }
  destruct (emitted_ideal ctx (l1 ++ shim :: l2) ps cs max_output Hwp'
              ltac:(lia) Hcap) as (r' & Hrun' & Hem').
  { pose proof (List.filter_length_le (should_emit (l1 ++ shim :: l2))
                  (seqZ 0 (Z.of_nat (length (l1 ++ shim :: l2))))) as H.
    rewrite length_seqZ in H. lia. }
  exists r, r'. split; [assumption |]. split; [assumption |].
  rewrite Hem, Hem'. apply ideal_shift; assumption.
Qed.

Lemma C4_witness :
  exists r r',
    neon_json_find_structural (Some ex_ctx)
      (Some ([123] ++ [34; 120; 34; 58; 34; 92; 34; 34; 125]))
      (Z.of_nat (length ([123] ++ [34; 120; 34; 58; 34; 92; 34; 34; 125])))
      (Some ex_buf16) (Some ex_buf16) 16 = Some r /\
    neon_json_find_structural (Some ex_ctx)
      (Some ([123] ++ 32 :: [34; 120; 34; 58; 34; 92; 34; 34; 125]))
      (Z.of_nat (length ([123] ++ 32 :: [34; 120; 34; 58; 34; 92; 34; 34; 125])))
      (Some ex_buf16) (Some ex_buf16) 16 = Some r' /\
    emitted r' = map (shift_after (Z.of_nat (length [123]))) (emitted r).
Proof.
  apply (C4_shim_shift ex_ctx [123] [34; 120; 34; 58; 34; 92; 34; 34; 125] 32
           ex_buf16 ex_buf16 16).
  - reflexivity.
  - reflexivity.
  - apply well_placedb_sound. vm_compute. reflexivity.
  - apply well_placedb_sound. vm_compute. reflexivity.
  - reflexivity.
  - cbn. lia.
  - cbn. lia.
  - unfold capacity_ok. cbn. lia.
  - cbn. lia.
Defined.

(** C4 as stated fails: a space put in front of [ex_boundary] (outside any
    string) moves the backslash and the quote into the same pass, and the
    quote that was emitted at offset 64 is no longer emitted at all. *)
Lemma C4_counterexample :
  in_string ex_boundary 0 = false /\
  exists r r',
    neon_json_find_structural (Some ex_ctx) (Some ex_boundary) 65
      (Some ex_buf) (Some ex_buf) 8 = Some r /\
    neon_json_find_structural (Some ex_ctx) (Some (32 :: ex_boundary)) 66
      (Some ex_buf) (Some ex_buf) 8 = Some r' /\
    emitted r = [(64, 34)] /\ emitted r' = [] /\
    emitted r' <> map (shift_after 0) (emitted r).
Proof.
  split; [reflexivity |].
  eexists _, _. split; [vm_compute; reflexivity |].
  split; [vm_compute; reflexivity |].
  split; [reflexivity |]. split; [reflexivity |].
  cbn. discriminate.
Qed.

(** * Further properties of the code *)

(** ** The movemask *)

Section Movemask.

Lemma land_bit x j c :
  0 <= j < 8 -> c = 2 ^ j ->
  Z.land x c = Z.land (mask_of (Z.testbit x j)) c.
Proof.
  intros Hj ->. apply Z.bits_inj'. intros k Hk.
  rewrite !Z.land_spec, pow2_testbit by lia.
  destruct (Z.eqb_spec k j) as [-> | ?]; [| rewrite !andb_false_r; reflexivity].
  rewrite !andb_true_r. destruct (Z.testbit x j); cbn [mask_of].
  - assert (Hc : j = 0 \/ j = 1 \/ j = 2 \/ j = 3 \/ j = 4 \/ j = 5 \/ j = 6
                 \/ j = 7) by lia.
    repeat destruct Hc as [-> | Hc]; try subst j; reflexivity.
  - rewrite Z.bits_0. reflexivity.
Qed.

Lemma movemask_masked v v' :
  vandq_u8 v shift_vals = vandq_u8 v' shift_vals ->
  neon_movemask_16 v = neon_movemask_16 v'.
Proof. intros H. unfold neon_movemask_16. cbv zeta. rewrite H. reflexivity. Qed.

(** Only bit [i mod 8] of lane [i] reaches the result. *)
Lemma movemask_lanes x0 x1 x2 x3 x4 x5 x6 x7 x8 x9 x10 x11 x12 x13 x14 x15 :
  neon_movemask_16 [x0; x1; x2; x3; x4; x5; x6; x7;
                    x8; x9; x10; x11; x12; x13; x14; x15]
  = bits_of_bools
      [Z.testbit x0 0; Z.testbit x1 1; Z.testbit x2 2; Z.testbit x3 3;
       Z.testbit x4 4; Z.testbit x5 5; Z.testbit x6 6; Z.testbit x7 7;
       Z.testbit x8 0; Z.testbit x9 1; Z.testbit x10 2; Z.testbit x11 3;
       Z.testbit x12 4; Z.testbit x13 5; Z.testbit x14 6; Z.testbit x15 7].
Proof.
  rewrite <- movemask_bools. apply movemask_masked.
  unfold vandq_u8, shift_vals. cbn [zip_with map].
  rewrite (land_bit x0 0 1), (land_bit x1 1 2), (land_bit x2 2 4),
    (land_bit x3 3 8), (land_bit x4 4 16), (land_bit x5 5 32),
    (land_bit x6 6 64), (land_bit x7 7 128), (land_bit x8 0 1),
    (land_bit x9 1 2), (land_bit x10 2 4), (land_bit x11 3 8),
    (land_bit x12 4 16), (land_bit x13 5 32), (land_bit x14 6 64),
    (land_bit x15 7 128) by (first [lia | reflexivity]).
  reflexivity.
Qed.

End Movemask.

(** X1 ([neon_movemask_16]): on any sixteen lanes the result is a 16-bit
    number whose bit [i] is bit [i mod 8] of lane [i]; so on a comparison
    result, whose lanes are 0x00 or 0xFF, bit [i] tells whether lane [i] is
    0xFF, and on other vectors the remaining bits of a lane are ignored. *)
Theorem X1_movemask_bits v :
  length v = 16%nat ->
  0 <= neon_movemask_16 v < 2 ^ 16 /\
  forall i, 0 <= i < 16 ->
    Z.testbit (neon_movemask_16 v) i
    = Z.testbit (nth (Z.to_nat i) v 0) (i mod 8).
Proof.
  intros H. destruct (length_16 v H) as
    (x0 & x1 & x2 & x3 & x4 & x5 & x6 & x7 & x8 & x9 & x10 & x11 & x12 & x13
     & x14 & x15 & ->).
  rewrite movemask_lanes. split.
  - match goal with |- _ <= bits_of_bools ?l < _ =>
      exact (bits_of_bools_range l) end.
  - intros i Hi. rewrite bits_of_bools_testbit by lia.
    assert (Hc : i = 0 \/ i = 1 \/ i = 2 \/ i = 3 \/ i = 4 \/ i = 5 \/ i = 6
                 \/ i = 7 \/ i = 8 \/ i = 9 \/ i = 10 \/ i = 11 \/ i = 12
                 \/ i = 13 \/ i = 14 \/ i = 15) by lia.
    repeat destruct Hc as [-> | Hc]; try subst i; reflexivity.
Qed.

Lemma X1_witness :
  0 <= neon_movemask_16 ex_lanes < 2 ^ 16 /\
  forall i, 0 <= i < 16 ->
    Z.testbit (neon_movemask_16 ex_lanes) i
    = Z.testbit (nth (Z.to_nat i) ex_lanes 0) (i mod 8).
Proof. apply (X1_movemask_bits ex_lanes). reflexivity. Defined.

(** ** The three masks of a chunk *)

Section ChunkMasks.

Lemma classify_lane_fault input base acc i :
  ~ (0 <= base + i * 16 /\ base + i * 16 + 16 <= Z.of_nat (length input)) ->
  classify_lane input base acc i = None.
Proof.
  intros H. destruct acc as [[s q] b]. unfold classify_lane, vld1q_u8.
  destruct (Z.leb_spec 0 (base + i * 16));
    destruct (Z.leb_spec (base + i * 16 + 16) (Z.of_nat (length input)));
    cbn [andb]; try reflexivity.
  exfalso. apply H. lia.
Qed.

Lemma classify_chunk_64_fault input base :
  ~ (0 <= base /\ base + 64 <= Z.of_nat (length input)) ->
  classify_chunk_64 input base = None.
Proof.
  intros H. unfold classify_chunk_64.
  destruct (Z.lt_ge_cases base 0) as [Hneg | Hpos].
  - rewrite (classify_lane_fault input base (0, 0, 0) 0) by lia. reflexivity.
  - destruct (classify_lane input base (0, 0, 0) 0) as [a0 |]; [| reflexivity].
    destruct (classify_lane input base a0 1) as [a1 |]; [| reflexivity].
    destruct (classify_lane input base a1 2) as [a2 |]; [| reflexivity].
    apply classify_lane_fault. lia.
Qed.

Lemma masks_of_code x :
  is_structural x = (1 <=? classify_code x) && (classify_code x <=? 7) /\
  is_quote x = (classify_code x =? 5) /\
  is_backslash x = (classify_code x =? 8).
Proof.
  unfold is_structural, is_quote, is_backslash, classify_code.
  destruct (Z.eqb_spec x 32); [subst; repeat split; reflexivity |].
  destruct (Z.eqb_spec x 9); [subst; repeat split; reflexivity |].
  destruct (Z.eqb_spec x 10); [subst; repeat split; reflexivity |].
  destruct (Z.eqb_spec x 13); [subst; repeat split; reflexivity |].
  destruct (Z.eqb_spec x 123); [subst; repeat split; reflexivity |].
  destruct (Z.eqb_spec x 125); [subst; repeat split; reflexivity |].
  destruct (Z.eqb_spec x 91); [subst; repeat split; reflexivity |].
  destruct (Z.eqb_spec x 93); [subst; repeat split; reflexivity |].
  destruct (Z.eqb_spec x 34); [subst; repeat split; reflexivity |].
  destruct (Z.eqb_spec x 58); [subst; repeat split; reflexivity |].
  destruct (Z.eqb_spec x 44); [subst; repeat split; reflexivity |].
  destruct (Z.eqb_spec x 92); [subst; repeat split; reflexivity |].
  repeat split; reflexivity.
Qed.

Lemma byte_at_is_byte input p :
  Forall is_byte input -> is_byte (byte_at input p).
Proof.
  intros H. unfold byte_at.
  destruct (nth_in_or_default (Z.to_nat p) input 0) as [Hin | ->].
  - rewrite List.Forall_forall in H. apply H. exact Hin.
  - unfold is_byte. lia.
Qed.

End ChunkMasks.

(** X2 ([classify_chunk_64]): when the 64 bytes at [base] lie inside the
    buffer, the call yields three 64-bit masks whose bit [k] tells whether
    byte [base + k] is one of the seven structural bytes, a quote, a
    backslash; every quote bit is also a structural bit and no backslash
    bit is.  The call reads all 64 bytes: it runs off the buffer exactly
    when fewer than 64 bytes are left at [base]. *)
Theorem X2_classify_chunk_masks input base :
  (0 <= base /\ base + 64 <= Z.of_nat (length input) ->
   exists s q b,
     classify_chunk_64 input base = Some (s, q, b) /\
     in64 s /\ in64 q /\ in64 b /\
     (forall k, 0 <= k < 64 ->
        Z.testbit s k = is_structural (byte_at input (base + k)) /\
        Z.testbit q k = is_quote (byte_at input (base + k)) /\
        Z.testbit b k = is_backslash (byte_at input (base + k))) /\
     Z.land q s = q /\ Z.land b s = 0) /\
  (classify_chunk_64 input base = None <->
   ~ (0 <= base /\ base + 64 <= Z.of_nat (length input))).
Proof.
  split.
  - intros [Hb Hl].
    destruct (classify_chunk_64_spec input base Hb Hl)
      as (s & q & b & Hrun & Hs & Hq & Hbk & Hbits).
    exists s, q, b. repeat (split; [assumption |]). split.
    + apply in64_eq; [apply in64_land; assumption | assumption |].
      intros k Hk. rewrite Z.land_spec.
      destruct (Hbits k Hk) as (-> & -> & _).
      rewrite is_structural_split.
      destruct (is_quote (byte_at input (base + k)));
        [rewrite orb_true_r |]; reflexivity.
    + apply in64_eq; [apply in64_land; assumption | unfold in64; lia |].
      intros k Hk. rewrite Z.land_spec, Z.bits_0.
      destruct (Hbits k Hk) as (-> & _ & ->).
      unfold is_backslash, is_structural.
      destruct (Z.eqb_spec (byte_at input (base + k)) 92) as [-> | ?];
        reflexivity.
  - split.
    + intros Hnone Hin.
      destruct (classify_chunk_64_spec input base (proj1 Hin) (proj2 Hin))
        as (s & q & b & Hrun & _). congruence.
    + apply classify_chunk_64_fault.
Qed.

(** X3 ([classify_chunk_64] and the [LOOKUP] table of
    [neon_json_classify]): the vector comparisons and the table agree on
    every byte.  A structural bit is set exactly for the bytes the table
    gives a code from 1 to 7, a quote bit for code 5, a backslash bit for
    code 8. *)
Theorem X3_chunk_masks_match_table input base :
  Forall is_byte input ->
  0 <= base -> base + 64 <= Z.of_nat (length input) ->
  exists s q b,
    classify_chunk_64 input base = Some (s, q, b) /\
    forall k, 0 <= k < 64 ->
      exists code,
        load LOOKUP (byte_at input (base + k)) = Some code /\
        Z.testbit s k = (1 <=? code) && (code <=? 7) /\
        Z.testbit q k = (code =? 5) /\
        Z.testbit b k = (code =? 8).
Proof.
  intros Hbytes Hb Hl.
  destruct (classify_chunk_64_spec input base Hb Hl)
    as (s & q & b & Hrun & _ & _ & _ & Hbits).
  exists s, q, b. split; [assumption |].
  intros k Hk. exists (classify_code (byte_at input (base + k))).
  split; [apply LOOKUP_spec, byte_at_is_byte; assumption |].
  destruct (Hbits k Hk) as (-> & -> & ->).
  apply masks_of_code.
Qed.

Lemma X3_witness :
  exists s q b,
    classify_chunk_64 ex_straddle 0 = Some (s, q, b) /\
    forall k, 0 <= k < 64 ->
      exists code,
        load LOOKUP (byte_at ex_straddle (0 + k)) = Some code /\
        Z.testbit s k = (1 <=? code) && (code <=? 7) /\
        Z.testbit q k = (code =? 5) /\
        Z.testbit b k = (code =? 8).
Proof.
  apply (X3_chunk_masks_match_table ex_straddle 0).
  - unfold ex_straddle, is_byte.
    repeat (apply Forall_app; split); try apply Forall_replicate;
      repeat constructor; lia.
  - lia.
  - cbn. lia.
Defined.

(** ** The prefix XOR *)

Lemma in64_lxor x y : in64 x -> in64 y -> in64 (Z.lxor x y).
Proof.
  intros Hx Hy. apply in64_of_bits.
  - apply Z.lxor_nonneg. unfold in64 in *. lia.
  - intros k Hk. rewrite Z.lxor_spec.
    rewrite (in64_testbit_high x), (in64_testbit_high y) by assumption.
    reflexivity.
Qed.

(** X4 ([prefix_xor]): bit [k] of the result is the XOR of bits 0 to [k] of
    the mask, so a bit is set from an opening quote up to the byte before
    the closing one.  XOR-ing the result with itself shifted left by one
    gives the mask back, and the top bit is the parity of the mask, the
    value [__builtin_parityll] hands to the next chunk. *)
Theorem X4_prefix_xor mask :
  in64 mask ->
  in64 (prefix_xor mask) /\
  (forall k, 0 <= k < 64 ->
     Z.testbit (prefix_xor mask) k
     = pxor_upto (Z.testbit mask) (Z.to_nat k + 1)) /\
  Z.lxor (prefix_xor mask) (shl64 (prefix_xor mask) 1) = mask /\
  Z.testbit (prefix_xor mask) 63 = c_true (parityll mask).
Proof.
  intros Hm. split; [apply prefix_xor_in64 |].
  split; [intros k Hk; apply prefix_xor_testbit; assumption |]. split.
  - apply in64_eq; [| assumption |].
    + apply in64_lxor; [apply prefix_xor_in64 | apply u64_in64].
    + intros k Hk. rewrite Z.lxor_spec, shl64_testbit by assumption.
      rewrite prefix_xor_testbit by assumption.
      replace (Z.to_nat k + 1)%nat with (Z.to_nat (k + 1)) by lia.
      rewrite pxor_upto_succ by lia.
      destruct (Z.eq_dec k 0) as [-> | Hk0].
      * rewrite (Z.testbit_neg_r (prefix_xor mask) (0 - 1)) by lia.
        cbn [Z.to_nat pxor_upto]. rewrite xorb_false_r. reflexivity.
      * rewrite prefix_xor_testbit by lia.
        replace (Z.to_nat (k - 1) + 1)%nat with (Z.to_nat k) by lia.
        destruct (pxor_upto (Z.testbit mask) (Z.to_nat k)),
          (Z.testbit mask k); reflexivity.
  - rewrite prefix_xor_testbit by lia. rewrite parityll_spec, c_true_b2z.
    reflexivity.
Qed.

Lemma X4_witness :
  in64 (prefix_xor 36) /\
  (forall k, 0 <= k < 64 ->
     Z.testbit (prefix_xor 36) k
     = pxor_upto (Z.testbit 36) (Z.to_nat k + 1)) /\
  Z.lxor (prefix_xor 36) (shl64 (prefix_xor 36) 1) = 36 /\
  Z.testbit (prefix_xor 36) 63 = c_true (parityll 36).
Proof. apply (X4_prefix_xor 36). unfold in64. lia. Defined.

(** ** The backslash runs of a 64-bit word *)

(** X5 ([find_odd_backslash_sequences]): on every 64-bit word the two
    nested loops terminate; bit [k] of the result is set exactly when the
    run of set bits of the input that ends at [k], bit [k] included, has
    odd length.  Every result bit is an input bit, and inside a run the
    marked bits alternate, starting with the run's first bit. *)
Theorem X5_odd_backslash_bits bs :
  in64 bs ->
  exists odd_ends,
    find_odd_backslash_sequences bs = Some odd_ends /\
    in64 odd_ends /\
    (forall k, 0 <= k < 64 ->
       Z.testbit odd_ends k
       = Nat.odd (run_before (Z.testbit bs) (Z.to_nat k + 1))) /\
    Z.land odd_ends bs = odd_ends /\
    (forall k, 0 <= k < 63 -> Z.testbit bs k = true ->
       Z.testbit bs (k + 1) = true ->
       Z.testbit odd_ends (k + 1) = negb (Z.testbit odd_ends k)).
Proof.
  intros Hbs.
  destruct (find_odd_backslash_sequences_spec bs Hbs)
    as (r & Hrun & Hr & Hbits & _).
  assert (Hodd : forall k, 0 <= k < 64 ->
            Z.testbit r k
            = Nat.odd (run_before (Z.testbit bs) (Z.to_nat k + 1))).
  { intros k Hk. rewrite Hbits by assumption.
    replace (Z.to_nat k + 1)%nat with (S (Z.to_nat k)) by lia.
    cbn [run_before]. rewrite Z2Nat.id by lia.
    unfold escZ. rewrite esc_run_odd.
    destruct (Z.testbit bs k); [| reflexivity].
    rewrite Nat.odd_succ, <- Nat.negb_odd. reflexivity. }
  exists r. split; [assumption |]. split; [assumption |].
  split; [assumption |]. split.
  - apply in64_eq; [apply in64_land; assumption | assumption |].
    intros k Hk. rewrite Z.land_spec, Hbits by assumption.
    destruct (Z.testbit bs k), (escZ (Z.testbit bs) k); reflexivity.
  - intros k Hk Hb Hb1. rewrite !Hbits by lia.
    rewrite escZ_succ by lia. rewrite Hb, Hb1.
    destruct (escZ (Z.testbit bs) k); reflexivity.
Qed.

Lemma X5_witness :
  exists odd_ends,
    find_odd_backslash_sequences 119 = Some odd_ends /\
    in64 odd_ends /\
    (forall k, 0 <= k < 64 ->
       Z.testbit odd_ends k
       = Nat.odd (run_before (Z.testbit 119) (Z.to_nat k + 1))) /\
    Z.land odd_ends 119 = odd_ends /\
    (forall k, 0 <= k < 63 -> Z.testbit 119 k = true ->
       Z.testbit 119 (k + 1) = true ->
       Z.testbit odd_ends (k + 1) = negb (Z.testbit odd_ends k)).
Proof. apply (X5_odd_backslash_bits 119). unfold in64. lia. Defined.

(** ** The context's life on the heap *)

Section HeapFacts.

Lemma heap_key_lt (h : Heap.heap) e : In e h -> fst e < Heap.fresh h.
Proof.
  unfold Heap.fresh. induction h as [| x h IH]; intros Hin; [destruct Hin |].
  cbn [fold_right]. destruct Hin as [-> | Hin]; [lia |].
  specialize (IH Hin). lia.
Qed.

Lemma fresh_cons x b (h : Heap.heap) :
  Heap.fresh ((x, b) :: h) = 1 + Z.max x (Heap.fresh h - 1).
Proof. unfold Heap.fresh. cbn [fold_right fst]. lia. Qed.

Lemma lookup_at (l1 : Heap.heap) x b l2 :
  (forall e, In e l1 -> fst e <> x) ->
  Heap.lookup (l1 ++ (x, b) :: l2) x = Some b.
Proof.
  intros H. unfold Heap.lookup.
  induction l1 as [| e l1 IH]; cbn [app List.find].
  - unfold Heap.at_addr. cbn [fst]. rewrite Z.eqb_refl. reflexivity.
  - unfold Heap.at_addr at 1. destruct (Z.eqb_spec (fst e) x) as [Heq | _].
    + exfalso. apply (H e); [left; reflexivity | assumption].
    + apply IH. intros e' He'. apply H. right. assumption.
Qed.

Lemma filter_keep x (l : Heap.heap) :
  (forall e, In e l -> fst e <> x) ->
  List.filter (fun e => negb (Heap.at_addr x e)) l = l.
Proof.
  induction l as [| e l IH]; intros H; cbn [List.filter]; [reflexivity |].
  unfold Heap.at_addr at 1. destruct (Z.eqb_spec (fst e) x) as [Heq | _].
  - exfalso. apply (H e); [left; reflexivity | assumption].
  - cbn [negb]. f_equal. apply IH. intros e' He'. apply H. right. assumption.
Qed.

Lemma free_at (l1 : Heap.heap) x b l2 :
  (forall e, In e l1 -> fst e <> x) -> (forall e, In e l2 -> fst e <> x) ->
  Heap.free (l1 ++ (x, b) :: l2) (Some x) = Some (l1 ++ l2).
Proof.
  intros H1 H2. unfold Heap.free. rewrite lookup_at by assumption.
  rewrite List.filter_app. cbn [List.filter]. unfold Heap.at_addr at 2.
  cbn [fst]. rewrite Z.eqb_refl. cbn [negb].
  rewrite !filter_keep by assumption. reflexivity.
Qed.

Lemma set_keep x b (l : Heap.heap) :
  (forall e, In e l -> fst e <> x) -> Heap.set_block l x b = l.
Proof.
  unfold Heap.set_block.
  induction l as [| e l IH]; intros H; cbn [map]; [reflexivity |].
  unfold Heap.at_addr at 1. destruct (Z.eqb_spec (fst e) x) as [Heq | _].
  - exfalso. apply (H e); [left; reflexivity | assumption].
  - f_equal. apply IH. intros e' He'. apply H. right. assumption.
Qed.

Lemma set_at (l1 : Heap.heap) x b b' l2 :
  (forall e, In e l1 -> fst e <> x) -> (forall e, In e l2 -> fst e <> x) ->
  Heap.set_block (l1 ++ (x, b) :: l2) x b' = l1 ++ (x, b') :: l2.
Proof.
  intros H1 H2. pose proof (set_keep x b' l1 H1) as E1.
  pose proof (set_keep x b' l2 H2) as E2. unfold Heap.set_block in *.
  rewrite map_app. cbn [map]. rewrite E1, E2.
  unfold Heap.at_addr. cbn [fst]. rewrite Z.eqb_refl. reflexivity.
Qed.

Lemma buf_blocks_key p cap e : In e (buf_blocks p cap) -> p = Some (fst e).
Proof.
  destruct p as [x |]; cbn [buf_blocks]; intros Hin; [| destruct Hin].
  destruct Hin as [<- | []]. reflexivity.
Qed.

Lemma chunks_needed_range input_len : 0 <= chunks_needed input_len < 2 ^ 58.
Proof.
  unfold chunks_needed, add64.
  pose proof (u64_in64 (input_len + 63)) as H. unfold in64 in H. split.
  - apply Z.div_pos; lia.
  - apply Z.div_lt_upper_bound; lia.
Qed.

Lemma max_chunks_range calls : 0 <= max_chunks calls < 2 ^ 58.
Proof.
  induction calls as [| c calls IH]; cbn [max_chunks fold_right]; [lia |].
  fold (max_chunks calls). pose proof (chunks_needed_range (snd c)). lia.
Qed.

Lemma max_chunks_ge calls c :
  In c calls -> chunks_needed (snd c) <= max_chunks calls.
Proof.
  induction calls as [| c' calls IH]; intros Hin; [destruct Hin |].
  cbn [max_chunks fold_right]. fold (max_chunks calls).
  destruct Hin as [-> | Hin]; [lia | specialize (IH Hin); lia].
Qed.

End HeapFacts.

Section CtxHeap.

Variable h0 : Heap.heap.
Let a := Heap.fresh h0.

Lemma below_ctx e x : In e h0 -> a <= x -> fst e <> x.
Proof. intros Hin Hx. pose proof (heap_key_lt h0 e Hin). unfold a in Hx. lia. Qed.

Lemma lookup_ctx q s cap :
  owned_above a q s ->
  Heap.lookup (ctx_heap h0 a q s cap) a = Some (Heap.CtxBlock q s cap).
Proof.
  intros (Hq & Hs & _). unfold ctx_heap. rewrite app_assoc.
  apply lookup_at. intros e Hin. apply in_app_or in Hin.
  destruct Hin as [Hin | Hin]; apply buf_blocks_key in Hin.
  - specialize (Hs _ Hin). lia.
  - specialize (Hq _ Hin). lia.
Qed.

Lemma free_q q s cap :
  owned_above a q s ->
  Heap.free (ctx_heap h0 a q s cap) q
  = Some (buf_blocks s cap ++ (a, Heap.CtxBlock q s cap) :: h0).
Proof.
  intros (Hq & Hs & Hqs). unfold ctx_heap.
  destruct q as [x |]; cbn [buf_blocks app]; [| reflexivity].
  apply free_at.
  - intros e Hin. apply buf_blocks_key in Hin. intros <-.
    apply (Hqs (fst e) (fst e)); [reflexivity | assumption | reflexivity].
  - intros e [<- | Hin]; cbn [fst].
    + specialize (Hq x eq_refl). lia.
    + apply (below_ctx e x Hin). specialize (Hq x eq_refl). lia.
Qed.

Lemma free_s q s cap :
  owned_above a q s ->
  Heap.free (buf_blocks s cap ++ (a, Heap.CtxBlock q s cap) :: h0) s
  = Some ((a, Heap.CtxBlock q s cap) :: h0).
Proof.
  intros (_ & Hs & _).
  destruct s as [y |]; cbn [buf_blocks app]; [| reflexivity].
  apply (free_at [] y).
  - intros e [].
  - intros e [<- | Hin]; cbn [fst].
    + specialize (Hs y eq_refl). lia.
    + apply (below_ctx e y Hin). specialize (Hs y eq_refl). lia.
Qed.

Lemma free_ctx_heap q s cap :
  owned_above a q s ->
  neon_json_free_heap (ctx_heap h0 a q s cap) (Some a) = Some h0.
Proof.
  intros Hown. unfold neon_json_free_heap.
  rewrite lookup_ctx, free_q, free_s by assumption.
  apply (free_at [] a).
  - intros e [].
  - intros e Hin. apply (below_ctx e a Hin). lia.
Qed.

Lemma fresh_above_ctx b : Heap.fresh ((a, b) :: h0) = a + 1.
Proof. rewrite fresh_cons. fold a. lia. Qed.

Lemma fresh_above_buf b b' :
  Heap.fresh ((a + 1, b') :: (a, b) :: h0) = a + 2.
Proof. rewrite fresh_cons, fresh_above_ctx. lia. Qed.

Lemma set_ctx (l1 : Heap.heap) b b' :
  (forall e, In e l1 -> a < fst e) ->
  Heap.set_block (l1 ++ (a, b) :: h0) a b' = l1 ++ (a, b') :: h0.
Proof.
  intros H. apply set_at.
  - intros e Hin. specialize (H e Hin). lia.
  - intros e Hin. apply (below_ctx e a Hin). lia.
Qed.

(** One call: the context ends with the larger of the two capacities. *)
Lemma ensure_step ok_q ok_s q s cap input_len :
  owned_above a q s ->
  exists q' s',
    ensure_buffers_heap ok_q ok_s (ctx_heap h0 a q s cap) a input_len
    = Some (ctx_heap h0 a q' s' (Z.max cap (chunks_needed input_len))) /\
    owned_above a q' s'.
Proof.
  intros Hown. unfold ensure_buffers_heap. rewrite lookup_ctx by assumption.
  fold (chunks_needed input_len). set (n := chunks_needed input_len).
  destruct (Z.leb_spec n cap) as [Hle | Hgt].
  - exists q, s. rewrite Z.max_l by lia. split; [reflexivity | assumption].
  - rewrite Z.max_r by lia. rewrite free_q, free_s by assumption.
    unfold Heap.alloc.
    destruct ok_q, ok_s; rewrite ?fresh_above_ctx, ?fresh_above_buf;
      cbv beta iota zeta; rewrite ?fresh_above_ctx, ?fresh_above_buf.
    + exists (Some (a + 1)), (Some (a + 2)). split.
      * f_equal. apply (set_ctx [(a + 2, _); (a + 1, _)]).
        intros e [<- | [<- | []]]; cbn [fst]; lia.
      * repeat split; intros; simplify_eq; lia.
    + exists (Some (a + 1)), None. split.
      * f_equal. apply (set_ctx [(a + 1, _)]).
        intros e [<- | []]; cbn [fst]; lia.
      * repeat split; intros; simplify_eq; lia.
    + exists None, (Some (a + 1)). split.
      * f_equal. apply (set_ctx [(a + 1, _)]).
        intros e [<- | []]; cbn [fst]; lia.
      * repeat split; intros; simplify_eq; lia.
    + exists None, None. split.
      * f_equal. apply (set_ctx []). intros e [].
      * repeat split; intros; simplify_eq.
Qed.

Lemma ensure_all_run : forall calls q s cap,
  0 <= cap -> owned_above a q s ->
  exists q' s',
    ensure_all (ctx_heap h0 a q s cap) a calls
    = Some (ctx_heap h0 a q' s' (Z.max cap (max_chunks calls))) /\
    owned_above a q' s'.
Proof.
  induction calls as [| [[ok_q ok_s] input_len] calls IH];
    intros q s cap Hcap Hown.
  - exists q, s. cbn [ensure_all max_chunks fold_right].
    rewrite Z.max_l by lia. split; [reflexivity | assumption].
  - cbn [ensure_all].
    destruct (ensure_step ok_q ok_s q s cap input_len Hown)
      as (q1 & s1 & -> & Hown1).
    destruct (IH q1 s1 (Z.max cap (chunks_needed input_len))
                ltac:(lia) Hown1) as (q2 & s2 & -> & Hown2).
    exists q2, s2. split; [| assumption].
    cbn [max_chunks fold_right snd]. fold (max_chunks calls).
    rewrite Z.max_assoc. reflexivity.
Qed.

Lemma init_ctx_heap :
  neon_json_init_heap true h0 = (Some a, ctx_heap h0 a None None 0).
Proof. reflexivity. Qed.

Lemma owned_above_null : owned_above a None None.
Proof. repeat split; intros; discriminate. Qed.

End CtxHeap.

(** X6 ([neon_json_init], [ensure_buffers], [neon_json_free]): a context
    that is created, taken through any series of [ensure_buffers] calls
    (whatever the lengths, and whether or not the allocations succeed) and
    then freed leaves the heap exactly as it was before: every block
    allocated on the way is released, and no block is released twice.  A
    failed [neon_json_init] returns NULL and allocates nothing, and
    [neon_json_free] does nothing on NULL. *)
Theorem X6_context_lifecycle h0 calls :
  (exists a h1 h2,
     neon_json_init_heap true h0 = (Some a, h1) /\
     ensure_all h1 a calls = Some h2 /\
     neon_json_free_heap h2 (Some a) = Some h0) /\
  neon_json_init_heap false h0 = (None, h0) /\
  neon_json_free_heap h0 None = Some h0.
Proof.
  split; [| split; reflexivity].
  destruct (ensure_all_run h0 calls None None 0 ltac:(lia)
              (owned_above_null h0)) as (q & s & Hrun & Hown).
  eexists _, _, _. split; [apply init_ctx_heap |].
  split; [exact Hrun |]. apply free_ctx_heap. assumption.
Qed.

Lemma chunks_cover input_len :
  0 <= input_len <= 2 ^ 64 - 64 -> input_len <= 64 * chunks_needed input_len.
Proof.
  intros H. unfold chunks_needed, add64, u64.
  rewrite Z.mod_small by lia.
  pose proof (Z.mul_succ_div_gt (input_len + 63) 64 ltac:(lia)). lia.
Qed.

(** X7 ([ensure_buffers]): after any series of calls on a fresh context,
    [buffer_capacity] is the largest chunk count asked for so far, which
    covers every input length up to 2^64 - 64 seen so far; each buffer
    pointer is NULL (its [malloc] failed) or owns a live block of exactly
    [buffer_capacity] 64-bit words; the context keeps at most two buffers,
    so growing releases the old ones; and a call that asks for no more than
    the capacity changes nothing, even if a buffer pointer is NULL. *)
Theorem X7_ensure_buffers_capacity h0 calls :
  exists a h1 h2 q s,
    neon_json_init_heap true h0 = (Some a, h1) /\
    ensure_all h1 a calls = Some h2 /\
    h2 = ctx_heap h0 a q s (max_chunks calls) /\
    Heap.lookup h2 a = Some (Heap.CtxBlock q s (max_chunks calls)) /\
    (forall c, In c calls -> 0 <= snd c <= 2 ^ 64 - 64 ->
       snd c <= 64 * max_chunks calls) /\
    (forall x, q = Some x \/ s = Some x ->
       Heap.lookup h2 x = Some (Heap.BufBlock (8 * max_chunks calls))) /\
    (length h2 <= length h0 + 3)%nat /\
    (forall ok_q ok_s input_len,
       chunks_needed input_len <= max_chunks calls ->
       ensure_buffers_heap ok_q ok_s h2 a input_len = Some h2).
Proof.
  destruct (ensure_all_run h0 calls None None 0 ltac:(lia)
              (owned_above_null h0)) as (q & s & Hrun & Hown).
  pose proof (max_chunks_range calls) as Hrange.
  rewrite Z.max_r in Hrun by lia.
  set (cap := max_chunks calls) in *.
  exists (Heap.fresh h0), (ctx_heap h0 (Heap.fresh h0) None None 0),
    (ctx_heap h0 (Heap.fresh h0) q s cap), q, s.
  split; [apply init_ctx_heap |]. split; [exact Hrun |].
  split; [reflexivity |]. split; [apply lookup_ctx; assumption |].
  split; [| split; [| split]].
  - intros c Hin Hc. pose proof (max_chunks_ge calls c Hin).
    pose proof (chunks_cover (snd c) Hc). fold cap in H. lia.
  - assert (Hsize : u64 (cap * 8) = 8 * cap).
    { unfold u64. rewrite Z.mod_small by lia. lia. }
    destruct Hown as (Hq & Hs & Hqs). unfold ctx_heap.
    intros x [-> | ->]; cbn [buf_blocks].
    + rewrite <- Hsize. apply lookup_at. intros e Hin.
      apply buf_blocks_key in Hin. intros <-.
      apply (Hqs (fst e) (fst e)); [reflexivity | assumption | reflexivity].
    + rewrite <- Hsize. apply (lookup_at [] x). intros e [].
  - unfold ctx_heap. rewrite !length_app. cbn [length].
    destruct q, s; cbn [buf_blocks length]; lia.
  - intros ok_q ok_s input_len Hle. unfold ensure_buffers_heap.
    rewrite lookup_ctx by assumption. fold (chunks_needed input_len).
    destruct (Z.leb_spec (chunks_needed input_len) cap); [reflexivity | lia].
Qed.

(** ** What the indexer emits, position by position *)

Section ClosedForm.

Variable input : list Z.
Let len := Z.of_nat (length input).

(** The state handed on depends on the last chunk alone. *)
Lemma carry_after_last : forall m base carry,
  carry_after input base carry (S m)
  = chunk_carry input (base + 64 * Z.of_nat m).
Proof.
  induction m as [| m IH]; intros base carry.
  - cbn [carry_after]. f_equal. lia.
  - change (carry_after input base carry (S (S m)))
      with (carry_after input (base + 64) (chunk_carry input base) (S m)).
    rewrite IH. f_equal. lia.
Qed.

Lemma carry_at_succ c :
  0 <= c -> carry_at input (c + 1) = chunk_carry input (64 * c).
Proof.
  intros Hc. unfold carry_at.
  replace (Z.to_nat (c + 1)) with (S (Z.to_nat c)) by lia.
  rewrite carry_after_last. f_equal. lia.
Qed.

Lemma code_keep_chunk c k :
  0 <= c -> c < len / 64 -> 0 <= k < 64 ->
  code_keep input (64 * c + k) = simd_keep input (64 * c) (carry_at input c) k.
Proof.
  intros Hc Hlt Hk. unfold code_keep. fold len.
  assert (Hdiv : (64 * c + k) / 64 = c).
  { symmetry. apply (Z.div_unique _ 64 c k); lia. }
  rewrite Hdiv. destruct (Z.ltb_spec c (len / 64)); [| lia].
  f_equal. lia.
Qed.

Lemma code_keep_tail k :
  0 <= k -> 64 * (len / 64) + k < len ->
  code_keep input (64 * (len / 64) + k)
  = tail_keep input (64 * (len / 64)) (carry_at input (len / 64)) k.
Proof.
  intros Hk Hlt. unfold code_keep. fold len.
  assert (Hlen0 : 0 <= len) by (unfold len; lia).
  pose proof (Z.mul_succ_div_gt len 64 ltac:(lia)) as Hhi.
  assert (Hdiv : (64 * (len / 64) + k) / 64 = len / 64).
  { symmetry. apply (Z.div_unique _ 64 (len / 64) k); lia. }
  rewrite Hdiv. destruct (Z.ltb_spec (len / 64) (len / 64)); [lia |].
  f_equal. lia.
Qed.

Lemma chunks_closed : forall n c,
  0 <= c -> c + Z.of_nat n <= len / 64 ->
  chunks_out input (64 * c) (carry_at input c) n
  = entries input 0 (List.filter (code_keep input)
                       (seqZ (64 * c) (64 * Z.of_nat n))).
Proof.
  induction n as [| n IH]; intros c Hc Hle; [reflexivity |].
  cbn [chunks_out].
  assert (Hchunk : chunk_out input (64 * c) (carry_at input c) =
            entries input 0 (List.filter (code_keep input) (seqZ (64 * c) 64))).
  { unfold chunk_out.
    pose proof (entries_shift input (64 * c)
                  (simd_keep input (64 * c) (carry_at input c))
                  (code_keep input) 64 0) as Hs.
    change (Z.of_nat 64) with 64 in Hs. rewrite Z.add_0_r in Hs.
    apply Hs. intros k Hk. symmetry. apply code_keep_chunk; lia. }
  rewrite Hchunk.
  replace (64 * Z.of_nat (S n)) with (64 + 64 * Z.of_nat n) by lia.
  rewrite seqZ_app by lia. rewrite List.filter_app, entries_app.
  rewrite <- carry_at_succ by lia.
  replace (64 * c + 64) with (64 * (c + 1)) by lia.
  rewrite IH by lia. reflexivity.
Qed.

(** The entries of a call are the offsets that pass [code_keep], in
    increasing order. *)
Lemma code_out_closed :
  code_out input
  = entries input 0 (List.filter (code_keep input) (seqZ 0 len)).
Proof.
  unfold code_out. fold len.
  assert (Hlen0 : 0 <= len) by (unfold len; lia).
  assert (Hq : 0 <= len / 64) by (apply Z.div_pos; lia).
  pose proof (Z.mul_div_le len 64 ltac:(lia)) as Hlo.
  pose proof (Z.mul_succ_div_gt len 64 ltac:(lia)) as Hhi.
  pose proof (chunks_closed (Z.to_nat (len / 64)) 0 ltac:(lia) ltac:(lia))
    as Hch.
  change (64 * 0) with 0 in Hch. change (carry_at input 0) with false in Hch.
  rewrite Hch. rewrite Z2Nat.id by lia.
  assert (Hsplit : seqZ 0 len = seqZ 0 (64 * (len / 64))
            ++ seqZ (0 + 64 * (len / 64)) (len - 64 * (len / 64))).
  { rewrite <- seqZ_app by lia. f_equal. lia. }
  rewrite Hsplit, List.filter_app, entries_app. f_equal.
  unfold tail_out. fold (carry_at input (len / 64)).
  pose proof (entries_shift input (64 * (len / 64))
                (tail_keep input (64 * (len / 64)) (carry_at input (len / 64)))
                (code_keep input)
                (Z.to_nat (len - 64 * (len / 64))) 0) as Hs.
  rewrite Z2Nat.id, Z.add_0_r in Hs by lia. rewrite Z.add_0_l.
  apply Hs. intros k Hk. symmetry. apply code_keep_tail; lia.
Qed.

Lemma simd_keep_structural base carry k :
  simd_keep input base carry k = true ->
  is_structural (byte_at input (base + k)) = true.
Proof.
  unfold simd_keep, uq_local. rewrite is_structural_split.
  destruct (is_json_punct (byte_at input (base + k)));
    destruct (is_quote (byte_at input (base + k))); cbn [andb orb];
    intros H; try reflexivity; discriminate H.
Qed.

Lemma tail_keep_structural base carry k :
  tail_keep input base carry k = true ->
  is_structural (byte_at input (base + k)) = true.
Proof.
  unfold tail_keep, uq_local. rewrite is_structural_split.
  destruct (is_json_punct (byte_at input (base + k)));
    destruct (is_quote (byte_at input (base + k))); cbn [andb orb];
    rewrite ?andb_false_r; intros H; try reflexivity; discriminate H.
Qed.

Lemma code_keep_structural p :
  code_keep input p = true -> is_structural (byte_at input p) = true.
Proof.
  unfold code_keep.
  destruct (p / 64 <? Z.of_nat (length input) / 64); intros H.
  - apply simd_keep_structural in H.
    replace (64 * (p / 64) + (p - 64 * (p / 64))) with p in H by lia.
    exact H.
  - apply tail_keep_structural in H.
    match type of H with is_structural (byte_at input ?x) = true =>
      replace x with p in H by lia end.
    exact H.
Qed.

End ClosedForm.

Lemma filter_length_mono {A} (f g : A -> bool) (l : list A) :
  (forall x, In x l -> f x = true -> g x = true) ->
  (length (List.filter f l) <= length (List.filter g l))%nat.
Proof.
  induction l as [| x l IH]; intros H; [reflexivity |].
  cbn [List.filter].
  assert (IH' : (length (List.filter f l) <= length (List.filter g l))%nat).
  { apply IH. intros y Hy. apply H. right. assumption. }
  destruct (f x) eqn:Hf.
  - rewrite (H x (or_introl eq_refl) Hf). cbn [length]. lia.
  - destruct (g x); cbn [length]; lia.
Qed.

Lemma positions_length (f : Z -> bool) input :
  length (List.filter (fun p => f (byte_at input p))
                      (seqZ 0 (Z.of_nat (length input))))
  = length (List.filter f input).
Proof.
  transitivity (length (List.filter f
                  (map (byte_at input) (seqZ 0 (Z.of_nat (length input)))))).
  - rewrite List.filter_map_swap, length_map. reflexivity.
  - rewrite byte_at_seqZ. reflexivity.
Qed.

Lemma In_take {A} (x : A) n (l : list A) : In x (take n l) -> In x l.
Proof.
  intros H. rewrite <- (firstn_skipn n l). apply in_or_app. left. exact H.
Qed.

(** X8 ([neon_json_find_structural]): every character a call stores is one
    of the seven structural bytes, whatever the input holds and however
    long it is, and the returned count never exceeds the number of
    structural bytes of the input; an input without them yields 0. *)
Theorem X8_only_structural_bytes ctx input ps cs max_output :
  0 < Z.of_nat (length input) < 2 ^ 63 ->
  capacity_ok max_output ps cs ->
  exists r,
    neon_json_find_structural (Some ctx) (Some input) (Z.of_nat (length input))
      (Some ps) (Some cs) max_output = Some r /\
    (forall p c, In (p, c) (emitted r) -> is_structural c = true) /\
    0 <= ret r <= Z.of_nat (length (List.filter is_structural input)).
Proof.
  intros Hlen Hcap.
  destruct (emitted_run ctx input ps cs max_output Hlen Hcap)
    as (r & Hrun & Hret & _ & _ & Hem).
  exists r. split; [assumption |]. split.
  - intros p c Hin. rewrite Hem in Hin. apply in_map_iff in Hin.
    destruct Hin as ([k b] & Heq & Hin). cbn [fst snd] in Heq.
    injection Heq as _ <-.
    apply In_take in Hin.
    rewrite code_out_closed in Hin. apply entries_In in Hin.
    destruct Hin as (_ & -> & Hkeep).
    apply code_keep_structural. assumption.
  - rewrite Hret. split; [lia |].
    rewrite length_take, code_out_closed, entries_length.
    rewrite <- (positions_length is_structural input).
    pose proof (filter_length_mono (code_keep input)
                  (fun p => is_structural (byte_at input p))
                  (seqZ 0 (Z.of_nat (length input)))
                  ltac:(intros x _; apply code_keep_structural)).
    lia.
Qed.

Lemma X8_witness :
  exists r,
    neon_json_find_structural (Some ex_ctx) (Some ex_escaped)
      (Z.of_nat (length ex_escaped)) (Some ex_buf16) (Some ex_buf16) 16
    = Some r /\
    (forall p c, In (p, c) (emitted r) -> is_structural c = true) /\
    0 <= ret r <= Z.of_nat (length (List.filter is_structural ex_escaped)).
Proof.
  apply (X8_only_structural_bytes ex_ctx ex_escaped ex_buf16 ex_buf16 16).
  - cbn. lia.
  - unfold capacity_ok. cbn. lia.
Defined.

(** ** The two paths, seen from the start of the input *)

Section FromStart.

Variable input : list Z.
Let len := Z.of_nat (length input).

Lemma uq_from_start p :
  0 <= p -> uq_local input 0 p = unescaped_quote input p.
Proof.
  intros Hp. rewrite uq_local_global by (lia || apply escaped_0).
  f_equal.
Qed.

Lemma pxor_from_start n :
  pxor_upto (uq_local input 0) n = in_string input (Z.of_nat n).
Proof.
  rewrite pxor_local_global by (lia || apply escaped_0).
  rewrite in_string_0, xorb_false_l. f_equal.
Qed.

Lemma tail_keep_from_start p :
  0 <= p -> tail_keep input 0 false p = scalar_keep input p.
Proof.
  intros Hp. unfold tail_keep, scalar_keep.
  rewrite uq_from_start, pxor_from_start by assumption.
  rewrite esc_local_global by (lia || apply escaped_0).
  rewrite Z2Nat.id, !Z.add_0_l by assumption. cbn [xorb].
  destruct (unescaped_quote input p), (in_string input p),
    (escaped input p), (is_json_punct (byte_at input p)); reflexivity.
Qed.

Lemma simd_keep_from_start p :
  0 <= p -> simd_keep input 0 false p = first_chunk_keep input p.
Proof.
  intros Hp. unfold simd_keep, first_chunk_keep.
  rewrite uq_from_start, pxor_from_start by assumption.
  replace (Z.of_nat (Z.to_nat p + 1)) with (p + 1) by lia.
  rewrite in_string_succ by assumption. rewrite Z.add_0_l. cbn [xorb].
  destruct (unescaped_quote input p), (in_string input p),
    (is_structural (byte_at input p)); reflexivity.
Qed.

Lemma code_out_short :
  len < 64 ->
  code_out input
  = entries input 0 (List.filter (scalar_keep input) (seqZ 0 len)).
Proof.
  intros Hshort. rewrite code_out_closed. fold len. f_equal.
  apply List.filter_ext_in. intros p Hin. apply In_seqZ in Hin.
  assert (Hd : len / 64 = 0) by (apply Z.div_small; unfold len; lia).
  pose proof (code_keep_tail input p) as H. fold len in H.
  rewrite Hd in H. change (64 * 0) with 0 in H. rewrite Z.add_0_l in H.
  rewrite H by lia. apply tail_keep_from_start. lia.
Qed.

Lemma code_out_first_chunk :
  64 <= len ->
  code_out input
  = entries input 0 (List.filter (first_chunk_keep input) (seqZ 0 64))
    ++ entries input 0 (List.filter (code_keep input) (seqZ 64 (len - 64))).
Proof.
  intros Hlong. rewrite code_out_closed. fold len.
  replace len with (64 + (len - 64)) at 1 by lia.
  rewrite seqZ_app by lia. rewrite List.filter_app, entries_app.
  f_equal. f_equal. apply List.filter_ext_in. intros p Hin.
  apply In_seqZ in Hin.
  assert (Hq : 1 <= len / 64) by (apply Z.div_le_lower_bound; lia).
  pose proof (code_keep_chunk input 0 p) as H. fold len in H.
  change (64 * 0) with 0 in H. rewrite Z.add_0_l in H.
  rewrite H by lia. apply simd_keep_from_start. lia.
Qed.

End FromStart.

(** X9 ([neon_json_find_structural], scalar loop): an input shorter than
    64 bytes is indexed by the scalar loop alone, which tracks backslash
    runs and strings exactly.  The call stores, in increasing order and up
    to the capacity, the unescaped quotes and the bytes [{ } [ ] : ,] that
    are outside a string and not escaped; an escaped punctuation byte
    outside a string is left out. *)
Theorem X9_short_input ctx input ps cs max_output :
  0 < Z.of_nat (length input) < 64 ->
  capacity_ok max_output ps cs ->
  exists r,
    neon_json_find_structural (Some ctx) (Some input) (Z.of_nat (length input))
      (Some ps) (Some cs) max_output = Some r /\
    emitted r
    = take (Z.to_nat max_output)
        (entries input 0 (List.filter (scalar_keep input)
                            (seqZ 0 (Z.of_nat (length input))))).
Proof.
  intros Hlen Hcap.
  destruct (emitted_run ctx input ps cs max_output ltac:(lia) Hcap)
    as (r & Hrun & _ & _ & _ & Hem).
  exists r. split; [assumption |].
  rewrite Hem, code_out_short by lia.
  rewrite <- firstn_map. rewrite entries_u32 by lia. reflexivity.
Qed.

Lemma X9_witness :
  exists r,
    neon_json_find_structural (Some ex_ctx) (Some ex_escaped)
      (Z.of_nat (length ex_escaped)) (Some ex_buf16) (Some ex_buf16) 16
    = Some r /\
    emitted r
    = take (Z.to_nat 16)
        (entries ex_escaped 0 (List.filter (scalar_keep ex_escaped)
                                 (seqZ 0 (Z.of_nat (length ex_escaped))))).
Proof.
  apply (X9_short_input ex_ctx ex_escaped ex_buf16 ex_buf16 16).
  - cbn. lia.
  - unfold capacity_ok. cbn. lia.
Defined.

(** X10 ([neon_json_find_structural], chunk loop): on an input of at least
    64 bytes with room for 64 entries, the entries of the first chunk come
    first and are the unescaped quotes and every one of the seven
    structural bytes that is outside a string, escaped or not: unlike the
    scalar loop, the chunk loop keeps an escaped quote or brace that stands
    outside a string.  All later entries come from offsets 64 and above. *)
Theorem X10_first_chunk ctx input ps cs max_output :
  64 <= Z.of_nat (length input) < 2 ^ 63 ->
  capacity_ok max_output ps cs ->
  64 <= max_output ->
  exists r rest,
    neon_json_find_structural (Some ctx) (Some input) (Z.of_nat (length input))
      (Some ps) (Some cs) max_output = Some r /\
    emitted r
    = entries input 0 (List.filter (first_chunk_keep input) (seqZ 0 64))
      ++ map (fun e => (u32 (fst e), snd e)) rest /\
    forall e, In e rest -> 64 <= fst e.
Proof.
  intros Hlen Hcap Hmax.
  destruct (emitted_run ctx input ps cs max_output ltac:(lia) Hcap)
    as (r & Hrun & _ & _ & _ & Hem).
  set (first := entries input 0
                  (List.filter (first_chunk_keep input) (seqZ 0 64))) in *.
  assert (Hfirst : (length first <= 64)%nat).
  { unfold first. rewrite entries_length.
    pose proof (List.filter_length_le (first_chunk_keep input) (seqZ 0 64))
      as H. rewrite length_seqZ in H. lia. }
  exists r,
    (take (Z.to_nat max_output - length first)
       (entries input 0 (List.filter (code_keep input)
          (seqZ 64 (Z.of_nat (length input) - 64))))).
  split; [assumption |]. split.
  - rewrite Hem, code_out_first_chunk by lia. fold first.
    rewrite take_app_ge by lia. rewrite map_app. f_equal.
    unfold first. apply entries_u32. lia.
  - intros e Hin. apply In_take in Hin. unfold entries in Hin.
    apply in_map_iff in Hin. destruct Hin as (k & <- & Hk).
    apply List.filter_In in Hk. destruct Hk as [Hk _].
    apply In_seqZ in Hk. cbn [fst]. lia.
Qed.

Lemma X10_witness :
  exists r rest,
    neon_json_find_structural (Some ex_ctx) (Some ex_straddle)
      (Z.of_nat (length ex_straddle)) (Some (replicate 64 0))
      (Some (replicate 64 0)) 64 = Some r /\
    emitted r
    = entries ex_straddle 0
        (List.filter (first_chunk_keep ex_straddle) (seqZ 0 64))
      ++ map (fun e => (u32 (fst e), snd e)) rest /\
    forall e, In e rest -> 64 <= fst e.
Proof.
  apply (X10_first_chunk ex_ctx ex_straddle (replicate 64 0)
           (replicate 64 0) 64).
  - cbn. lia.
  - unfold capacity_ok. cbn. lia.
  - lia.
Defined.

(** ** Appending to an input that ends on a chunk boundary *)

Section Append.

Lemma simd_keep_ext input input' base carry k :
  (forall j, 0 <= j < 64 -> byte_at input (base + j) = byte_at input' (base + j)) ->
  0 <= k < 64 ->
  simd_keep input base carry k = simd_keep input' base carry k.
Proof.
  intros Hsame Hk.
  assert (Hesc : forall j, 0 <= j < 64 ->
            esc_local input base j = esc_local input' base j).
  { intros j Hj. unfold esc_local. apply escZ_ext. intros i Hi.
    unfold bs_at. rewrite Hsame by lia. reflexivity. }
  assert (Huq : forall j, 0 <= j < 64 ->
            uq_local input base j = uq_local input' base j).
  { intros j Hj. unfold uq_local. rewrite Hsame, Hesc by lia. reflexivity. }
  unfold simd_keep. rewrite Hsame, Huq by lia.
  rewrite (pxor_upto_ext (uq_local input base) (uq_local input' base));
    [reflexivity |].
  intros j Hj. apply Huq. lia.
Qed.

Lemma chunk_carry_ext input input' base :
  (forall j, 0 <= j < 64 -> byte_at input (base + j) = byte_at input' (base + j)) ->
  chunk_carry input base = chunk_carry input' base.
Proof.
  intros Hsame. unfold chunk_carry. apply pxor_upto_ext. intros j Hj.
  unfold uq_local, esc_local. rewrite Hsame by lia. f_equal. f_equal.
  apply escZ_ext. intros i Hi. unfold bs_at. rewrite Hsame by lia.
  reflexivity.
Qed.

Lemma chunk_out_ext input input' base carry :
  (forall j, 0 <= j < 64 -> byte_at input (base + j) = byte_at input' (base + j)) ->
  chunk_out input base carry = chunk_out input' base carry.
Proof.
  intros Hsame. unfold chunk_out, entries.
  rewrite (List.filter_ext_in (simd_keep input base carry)
             (simd_keep input' base carry)).
  - apply map_ext_in. intros k Hin. apply List.filter_In in Hin.
    destruct Hin as [Hin _]. apply In_seqZ in Hin.
    rewrite Hsame by lia. reflexivity.
  - intros k Hin. apply In_seqZ in Hin. apply simd_keep_ext; [assumption | lia].
Qed.

Lemma chunks_out_ext input input' : forall n base carry,
  (forall p, base <= p < base + 64 * Z.of_nat n ->
     byte_at input p = byte_at input' p) ->
  chunks_out input base carry n = chunks_out input' base carry n.
Proof.
  induction n as [| n IH]; intros base carry Hsame; [reflexivity |].
  cbn [chunks_out].
  assert (H0 : forall j, 0 <= j < 64 ->
            byte_at input (base + j) = byte_at input' (base + j))
    by (intros j Hj; apply Hsame; lia).
  rewrite (chunk_out_ext input input' base carry H0).
  rewrite (chunk_carry_ext input input' base H0).
  rewrite IH; [reflexivity |]. intros p Hp. apply Hsame. lia.
Qed.

Lemma chunks_out_app input : forall n m base carry,
  chunks_out input base carry (n + m)
  = chunks_out input base carry n
    ++ chunks_out input (base + 64 * Z.of_nat n)
         (carry_after input base carry n) m.
Proof.
  induction n as [| n IH]; intros m base carry.
  - cbn [chunks_out carry_after Nat.add app]. f_equal. lia.
  - cbn [chunks_out carry_after Nat.add]. rewrite IH, <- app_assoc.
    do 3 f_equal. lia.
Qed.

Lemma byte_at_app_l (l1 l2 : list Z) p :
  0 <= p < Z.of_nat (length l1) -> byte_at (l1 ++ l2) p = byte_at l1 p.
Proof. intros Hp. unfold byte_at. apply app_nth1. lia. Qed.

(** The entries of an input that is a whole number of chunks open the
    entries of every input it is a prefix of. *)
Lemma code_out_app (l1 l2 : list Z) m :
  Z.of_nat (length l1) = 64 * m ->
  exists rest, code_out (l1 ++ l2) = code_out l1 ++ rest.
Proof.
  intros H1.
  assert (Hm : 0 <= m) by lia.
  set (len := Z.of_nat (length (l1 ++ l2))).
  assert (Hlen : len = 64 * m + Z.of_nat (length l2))
    by (unfold len; rewrite length_app; lia).
  assert (Hq : m <= len / 64) by (apply Z.div_le_lower_bound; lia).
  assert (Hd1 : Z.of_nat (length l1) / 64 = m).
  { rewrite H1. rewrite Z.mul_comm. apply Z.div_mul. lia. }
  unfold code_out at 2. rewrite Hd1.
  unfold tail_out at 1. rewrite H1, Z.sub_diag. cbn [seqZ]. 
  rewrite seqZ_nil by lia. cbn [List.filter entries map]. rewrite app_nil_r.
  unfold code_out. fold len.
  replace (Z.to_nat (len / 64))
    with (Z.to_nat m + (Z.to_nat (len / 64) - Z.to_nat m))%nat by lia.
  rewrite chunks_out_app, <- app_assoc.
  rewrite (chunks_out_ext (l1 ++ l2) l1 (Z.to_nat m) 0 false).
  - eexists. reflexivity.
  - intros p Hp. apply byte_at_app_l. lia.
Qed.

End Append.

(** X11 ([neon_json_find_structural]): what is indexed for a whole number
    of 64-byte chunks does not depend on what follows them.  When the
    length of [l1] is a multiple of 64, a call on [l1] followed by any
    further bytes stores first exactly the entries of a call on [l1]
    alone. *)
Theorem X11_whole_chunks_stable ctx l1 l2 ps cs max_output m :
  Z.of_nat (length l1) = 64 * m -> 0 < m ->
  Z.of_nat (length (l1 ++ l2)) < 2 ^ 63 ->
  capacity_ok max_output ps cs ->
  Z.of_nat (length (l1 ++ l2)) <= max_output ->
  exists r1 r12 rest,
    neon_json_find_structural (Some ctx) (Some l1) (Z.of_nat (length l1))
      (Some ps) (Some cs) max_output = Some r1 /\
    neon_json_find_structural (Some ctx) (Some (l1 ++ l2))
      (Z.of_nat (length (l1 ++ l2))) (Some ps) (Some cs) max_output
    = Some r12 /\
    emitted r12 = emitted r1 ++ rest.
Proof.
  intros H1 Hm Hlen Hcap Hmax.
  assert (Hlen1 : Z.of_nat (length l1) <= Z.of_nat (length (l1 ++ l2)))
    by (rewrite length_app; lia).
  destruct (emitted_run ctx l1 ps cs max_output ltac:(lia) Hcap)
    as (r1 & Hrun1 & _ & _ & _ & Hem1).
  destruct (emitted_run ctx (l1 ++ l2) ps cs max_output ltac:(lia) Hcap)
    as (r12 & Hrun12 & _ & _ & _ & Hem12).
  destruct (code_out_app l1 l2 m H1) as [rest Hrest].
  exists r1, r12, (map (fun e => (u32 (fst e), snd e)) rest).
  split; [assumption |]. split; [assumption |].
  rewrite Hem1, Hem12.
  pose proof (code_out_length l1). pose proof (code_out_length (l1 ++ l2)).
  rewrite !firstn_all2 by lia.
  rewrite Hrest, map_app. reflexivity.
Qed.

Lemma X11_witness :
  exists r1 r12 rest,
    neon_json_find_structural (Some ex_ctx) (Some (replicate 63 97 ++ [92]))
      (Z.of_nat (length (replicate 63 97 ++ [92])))
      (Some (replicate 128 0)) (Some (replicate 128 0)) 128 = Some r1 /\
    neon_json_find_structural (Some ex_ctx)
      (Some ((replicate 63 97 ++ [92]) ++ [34]))
      (Z.of_nat (length ((replicate 63 97 ++ [92]) ++ [34])))
      (Some (replicate 128 0)) (Some (replicate 128 0)) 128 = Some r12 /\
    emitted r12 = emitted r1 ++ rest.
Proof.
  apply (X11_whole_chunks_stable ex_ctx (replicate 63 97 ++ [92]) [34]
           (replicate 128 0) (replicate 128 0) 128 1).
  - reflexivity.
  - lia.
  - cbn. lia.
  - unfold capacity_ok. cbn. lia.
  - cbn. lia.
Defined.

(** ** The buffers [neon_json_classify] needs *)

Section ClassifyBounds.

Lemma load_take (l : list Z) n i :
  0 <= i < n -> n <= Z.of_nat (length l) ->
  load (take (Z.to_nat n) l) i = load l i.
Proof.
  intros Hi Hn. unfold load. rewrite length_take.
  destruct (Z.leb_spec 0 i); [| lia].
  destruct (Z.ltb_spec i (Z.of_nat (length l))); [| lia].
  destruct (Z.ltb_spec i (Z.of_nat (Nat.min (Z.to_nat n) (length l))));
    [| lia].
  cbn [andb]. apply lookup_take_lt. lia.
Qed.

(** The loop looks at the first [len] bytes only. *)
Lemma classify_loop_take input len : forall fuel output i,
  0 <= i -> len <= Z.of_nat (length input) ->
  classify_loop fuel input output len i
  = classify_loop fuel (take (Z.to_nat len) input) output len i.
Proof.
  induction fuel as [| f IH]; intros output i Hi Hlen; [reflexivity |].
  rewrite !classify_loop_S.
  destruct (Z.ltb_spec i len) as [Hlt | Hge]; [| reflexivity].
  rewrite load_take by lia.
  destruct (load input i) as [ch |]; [| reflexivity].
  destruct (load LOOKUP ch) as [code |]; [| reflexivity].
  destruct (store output i code) as [output' |]; [| reflexivity].
  apply IH; [| assumption].
  pose proof (u64_in64 (i + 1)) as H. unfold in64 in H. unfold add64. lia.
Qed.

(** With a buffer shorter than [len] the loop runs off its end. *)
Lemma classify_loop_fault input len : forall fuel output i,
  Forall is_byte input -> len < 2 ^ 64 ->
  0 <= i -> i <= Z.of_nat (length input) -> i <= Z.of_nat (length output) ->
  Z.of_nat (length input) < len \/ Z.of_nat (length output) < len ->
  classify_loop fuel input output len i = None.
Proof.
  induction fuel as [| f IH]; intros output i Hbytes H64 Hi Hin Hout Hshort;
    [reflexivity |].
  rewrite classify_loop_S.
  destruct (Z.ltb_spec i len) as [Hlt | Hge]; [| lia].
  destruct (Z.lt_ge_cases i (Z.of_nat (length input))) as [Hi1 | Hi1].
  - rewrite load_ok by lia.
    rewrite (LOOKUP_spec _ (byte_at_is_byte input i Hbytes)).
    unfold store. destruct (Z.leb_spec 0 i); [| lia].
    destruct (Z.ltb_spec i (Z.of_nat (length output))) as [Hi2 | Hi2];
      cbn [andb]; [| reflexivity].
    assert (add64 i 1 = i + 1) as -> by (apply u64_small; unfold in64; lia).
    apply IH; try assumption; try lia; rewrite length_insert; lia.
  - unfold load. destruct (Z.ltb_spec i (Z.of_nat (length input))); [lia |].
    rewrite andb_false_r. reflexivity.
Qed.

End ClassifyBounds.

(** X12 ([neon_json_classify]): the call looks at the first [len] bytes of
    the input and writes the first [len] entries of the output, nothing
    else: with both arrays at least [len] long, the output holds the codes
    of those bytes and keeps its entries from [len] on.  The function makes
    no check of its own on the arrays: the call runs off the end of one of
    them exactly when one of them is shorter than [len]. *)
Theorem X12_classify_bounds input output len :
  Forall is_byte input -> 1 <= len < 2 ^ 64 ->
  (len <= Z.of_nat (length input) -> len <= Z.of_nat (length output) ->
   neon_json_classify (Some input) (Some output) len
   = Some (0, Some (map classify_code (take (Z.to_nat len) input)
                    ++ drop (Z.to_nat len) output))) /\
  (neon_json_classify (Some input) (Some output) len = None <->
   Z.of_nat (length input) < len \/ Z.of_nat (length output) < len).
Proof.
  intros Hbytes Hlen.
  assert (Hfit : len <= Z.of_nat (length input) ->
            len <= Z.of_nat (length output) ->
            neon_json_classify (Some input) (Some output) len
            = Some (0, Some (map classify_code (take (Z.to_nat len) input)
                             ++ drop (Z.to_nat len) output))).
  { intros Hin Hout.
    assert (Hl : Z.of_nat (length (take (Z.to_nat len) input)) = len)
      by (rewrite length_take; lia).
    pose proof (classify_run (take (Z.to_nat len) input) output
                  ltac:(apply Forall_take; assumption)
                  ltac:(lia) ltac:(lia)) as Hrun.
    rewrite Hl in Hrun.
    replace (length (take (Z.to_nat len) input)) with (Z.to_nat len) in Hrun
      by lia.
    rewrite <- Hrun. unfold neon_json_classify.
    destruct (len =? 0); [reflexivity |].
    rewrite (classify_loop_take input len) by lia. reflexivity. }
  split; [exact Hfit |]. split.
  - intros Hnone.
    destruct (Z.lt_ge_cases (Z.of_nat (length input)) len); [left; lia |].
    destruct (Z.lt_ge_cases (Z.of_nat (length output)) len); [right; lia |].
    rewrite Hfit in Hnone by lia. discriminate Hnone.
  - intros Hshort. unfold neon_json_classify.
    destruct (Z.eqb_spec len 0); [lia |].
    rewrite (classify_loop_fault input len) by (assumption || lia).
    reflexivity.
Qed.

Lemma X12_witness :
  (14 <= Z.of_nat (length (ex_bytes ++ [123; 125])) ->
   14 <= Z.of_nat (length ex_buf16) ->
   neon_json_classify (Some (ex_bytes ++ [123; 125])) (Some ex_buf16) 14
   = Some (0, Some (map classify_code
                      (take (Z.to_nat 14) (ex_bytes ++ [123; 125]))
                    ++ drop (Z.to_nat 14) ex_buf16))) /\
  (neon_json_classify (Some (ex_bytes ++ [123; 125])) (Some ex_buf16) 14
   = None <->
   Z.of_nat (length (ex_bytes ++ [123; 125])) < 14
   \/ Z.of_nat (length ex_buf16) < 14).
Proof.
  apply (X12_classify_bounds (ex_bytes ++ [123; 125]) ex_buf16 14).
  - unfold ex_bytes, is_byte. repeat constructor; lia.
  - lia.
Defined.

(** ** The bytes behind [input_len] *)

Section InputPrefix.

Variables l1 l2 : list Z.
Let len := Z.of_nat (length l1).
Hypothesis len_bound : len < 2 ^ 63.

Lemma load_app_l p : p < len -> load (l1 ++ l2) p = load l1 p.
Proof using Type.
  intros Hp. unfold load. rewrite length_app.
  destruct (Z.leb_spec 0 p); [| reflexivity].
  destruct (Z.ltb_spec p (Z.of_nat (length l1))); [| unfold len in Hp; lia].
  destruct (Z.ltb_spec p (Z.of_nat (length l1 + length l2))); [| lia].
  cbn [andb]. apply lookup_app_l. lia.
Qed.

Lemma vld1q_app off :
  0 <= off -> off + 16 <= len -> vld1q_u8 (l1 ++ l2) off = vld1q_u8 l1 off.
Proof using Type.
  intros H0 H16. unfold len in H16. unfold vld1q_u8. rewrite length_app.
  destruct (Z.leb_spec 0 off); [| lia].
  destruct (Z.leb_spec (off + 16) (Z.of_nat (length l1))); [| lia].
  destruct (Z.leb_spec (off + 16) (Z.of_nat (length l1 + length l2))); [| lia].
  cbn [andb]. f_equal. rewrite drop_app_le by lia.
  apply take_app_le. rewrite length_drop. lia.
Qed.

Lemma classify_chunk_app base :
  0 <= base -> base + 64 <= len ->
  classify_chunk_64 (l1 ++ l2) base = classify_chunk_64 l1 base.
Proof using Type.
  intros H0 H64.
  assert (Hlane : forall acc i, 0 <= i < 4 ->
            classify_lane (l1 ++ l2) base acc i = classify_lane l1 base acc i).
  { intros [[s q] b] i Hi. unfold classify_lane.
    rewrite vld1q_app by lia. reflexivity. }
  unfold classify_chunk_64. rewrite Hlane by lia.
  destruct (classify_lane l1 base (0, 0, 0) 0) as [a0 |]; [| reflexivity].
  rewrite Hlane by lia.
  destruct (classify_lane l1 base a0 1) as [a1 |]; [| reflexivity].
  rewrite Hlane by lia.
  destruct (classify_lane l1 base a1 2) as [a2 |]; [| reflexivity].
  apply Hlane. lia.
Qed.

Lemma extract_loop_app i max_output : forall fuel filtered o,
  0 <= i -> i + 64 <= len -> in64 filtered ->
  extract_loop fuel (l1 ++ l2) i filtered max_output o
  = extract_loop fuel l1 i filtered max_output o.
Proof using len_bound.
  induction fuel as [| f IH]; intros filtered o Hi H64 Hf; [reflexivity |].
  rewrite !extract_loop_S.
  destruct (c_true filtered) eqn:Hnz; cbn [andb]; [| reflexivity].
  destruct (count o <? max_output); [| reflexivity].
  assert (Hne : filtered <> 0).
  { intros ->. discriminate Hnz. }
  destruct (ctzll_spec filtered Hf Hne) as (Hpos & _ & _).
  assert (add64 i (ctzll filtered) = i + ctzll filtered) as ->
    by (apply u64_small; unfold in64; lia).
  rewrite load_app_l by lia.
  destruct (load l1 (i + ctzll filtered)) as [ch |]; [| reflexivity].
  destruct (emit o (i + ctzll filtered) ch) as [o' |]; [| reflexivity].
  apply IH; try assumption. apply clear_bit_in64. assumption.
Qed.

Lemma simd_loop_app max_output : forall fuel i prev o,
  0 <= i <= len ->
  simd_loop fuel (l1 ++ l2) len max_output i prev o
  = simd_loop fuel l1 len max_output i prev o.
Proof using len_bound.
  induction fuel as [| f IH]; intros i prev o Hi; [reflexivity |].
  rewrite !simd_loop_S.
  assert (add64 i 64 = i + 64) as ->
    by (apply u64_small; unfold in64; lia).
  destruct (Z.leb_spec (i + 64) len) as [Hle | Hgt]; cbn [andb];
    [| reflexivity].
  destruct (count o <? max_output); [| reflexivity].
  rewrite classify_chunk_app by lia.
  destruct (classify_chunk_64_spec l1 i ltac:(lia) ltac:(fold len; lia))
    as (s & q & b & -> & Hs & Hq & Hb & _).
  cbv beta iota zeta.
  destruct (find_odd_backslash_sequences b) as [odd_bs |]; [| reflexivity].
  rewrite extract_loop_app; try lia.
  - match goal with |- context [extract_loop ?f ?l ?j ?x ?m ?oo] =>
      destruct (extract_loop f l j x m oo) as [o' |]; [| reflexivity] end.
    apply IH. lia.
  - apply in64_lor; apply in64_land; try assumption; apply u64_in64.
Qed.

Lemma tail_loop_app max_output : forall fuel i in_string prev_backslash o,
  tail_loop fuel (l1 ++ l2) len max_output i in_string prev_backslash o
  = tail_loop fuel l1 len max_output i in_string prev_backslash o.
Proof using Type.
  induction fuel as [| f IH]; intros i ins pb o; [reflexivity |].
  rewrite !tail_loop_S.
  destruct (Z.ltb_spec i len) as [Hlt | Hge]; cbn [andb]; [| reflexivity].
  destruct (count o <? max_output); [| reflexivity].
  rewrite load_app_l by lia.
  destruct (load l1 i) as [ch |]; [| reflexivity].
  destruct ((ch =? 92) && negb (c_true pb)); [apply IH |].
  destruct ((ch =? 34) && negb (c_true pb)).
  { destruct (emit o i ch) as [o' |]; [apply IH | reflexivity]. }
  destruct (negb (c_true ins) && negb (c_true pb)); [| apply IH].
  destruct (is_json_punct ch); [| apply IH].
  destruct (emit o i ch) as [o' |]; [apply IH | reflexivity].
Qed.

End InputPrefix.

(** X13 ([neon_json_find_structural]): the call never looks at a byte at
    or behind offset [input_len].  Whatever follows the first [input_len]
    bytes in the buffer, the returned value, the output arrays and the
    context are the same, on the error paths too. *)
Theorem X13_reads_input_len_only ctx l1 l2 positions characters max_output :
  Z.of_nat (length l1) < 2 ^ 63 ->
  neon_json_find_structural ctx (Some (l1 ++ l2)) (Z.of_nat (length l1))
    positions characters max_output
  = neon_json_find_structural ctx (Some l1) (Z.of_nat (length l1))
      positions characters max_output.
Proof.
  intros Hlen. unfold neon_json_find_structural.
  destruct ctx as [c |]; [| reflexivity].
  destruct positions as [ps |]; [| reflexivity].
  destruct characters as [cs |]; [| reflexivity].
  destruct (Z.of_nat (length l1) =? 0); [reflexivity |].
  rewrite simd_loop_app by lia.
  match goal with |- context [simd_loop ?f ?l ?n ?m ?i ?p ?o] =>
    destruct (simd_loop f l n m i p o) as [[[i' prev'] o'] |];
      [| reflexivity] end.
  rewrite tail_loop_app. reflexivity.
Qed.

Lemma X13_witness :
  neon_json_find_structural (Some ex_ctx) (Some (ex_object ++ [44; 123; 125]))
    (Z.of_nat (length ex_object)) (Some ex_buf) (Some ex_buf) 8
  = neon_json_find_structural (Some ex_ctx) (Some ex_object)
      (Z.of_nat (length ex_object)) (Some ex_buf) (Some ex_buf) 8.
Proof.
  apply (X13_reads_input_len_only (Some ex_ctx) ex_object [44; 123; 125]
           (Some ex_buf) (Some ex_buf) 8).
  cbn. lia.
Defined.

(** ** Reusing a context *)

Lemma chunks_needed_mono a b :
  0 <= a <= b -> b < 2 ^ 63 -> chunks_needed a <= chunks_needed b.
Proof.
  intros Hab Hb. unfold chunks_needed, add64, u64.
  rewrite !Z.mod_small by lia. apply Z.div_le_mono; lia.
Qed.

(** X14 ([neon_json_find_structural] and [ensure_buffers]): a successful
    call hands back the context with [buffer_capacity] raised to the chunk
    count of its input when that is larger, so that 64 times the capacity
    covers the input; a later call with that context on an input that is
    not longer leaves the context as it is. *)
Theorem X14_context_reuse ctx input ps cs max_output :
  0 < Z.of_nat (length input) < 2 ^ 63 ->
  capacity_ok max_output ps cs ->
  exists r ctx',
    neon_json_find_structural (Some ctx) (Some input) (Z.of_nat (length input))
      (Some ps) (Some cs) max_output = Some r /\
    res_ctx r = Some ctx' /\
    buffer_capacity ctx'
    = Z.max (buffer_capacity ctx) (chunks_needed (Z.of_nat (length input))) /\
    Z.of_nat (length input) <= 64 * buffer_capacity ctx' /\
    forall input2 ps2 cs2 max2,
      0 < Z.of_nat (length input2) <= Z.of_nat (length input) ->
      capacity_ok max2 ps2 cs2 ->
      exists r2,
        neon_json_find_structural (Some ctx') (Some input2)
          (Z.of_nat (length input2)) (Some ps2) (Some cs2) max2 = Some r2 /\
        res_ctx r2 = Some ctx'.
Proof.
  intros Hlen Hcap.
  set (len := Z.of_nat (length input)) in *.
  assert (Hcap' : buffer_capacity (ensure_buffers ctx len)
                  = Z.max (buffer_capacity ctx) (chunks_needed len)).
  { unfold ensure_buffers. fold (chunks_needed len).
    destruct (Z.leb_spec (chunks_needed len) (buffer_capacity ctx));
      cbn [buffer_capacity]; lia. }
  eexists _, (ensure_buffers ctx len).
  split; [apply find_structural_run; assumption |].
  split; [reflexivity |]. split; [exact Hcap' |].
  pose proof (chunks_cover len ltac:(lia)) as Hcover.
  split; [lia |].
  intros input2 ps2 cs2 max2 Hlen2 Hcap2.
  eexists. split; [apply find_structural_run; [lia | assumption] |].
  cbn [res_ctx]. f_equal.
  pose proof (chunks_needed_mono (Z.of_nat (length input2)) len
                ltac:(lia) ltac:(lia)) as Hmono.
  unfold ensure_buffers at 1.
  fold (chunks_needed (Z.of_nat (length input2))).
  destruct (Z.leb_spec (chunks_needed (Z.of_nat (length input2)))
              (buffer_capacity (ensure_buffers ctx len))); [reflexivity | lia].
Qed.

Lemma X14_witness :
  exists r ctx',
    neon_json_find_structural (Some ex_ctx) (Some ex_escaped)
      (Z.of_nat (length ex_escaped)) (Some ex_buf16) (Some ex_buf16) 16
    = Some r /\
    res_ctx r = Some ctx' /\
    buffer_capacity ctx'
    = Z.max (buffer_capacity ex_ctx)
        (chunks_needed (Z.of_nat (length ex_escaped))) /\
    Z.of_nat (length ex_escaped) <= 64 * buffer_capacity ctx' /\
    forall input2 ps2 cs2 max2,
      0 < Z.of_nat (length input2) <= Z.of_nat (length ex_escaped) ->
      capacity_ok max2 ps2 cs2 ->
      exists r2,
        neon_json_find_structural (Some ctx') (Some input2)
          (Z.of_nat (length input2)) (Some ps2) (Some cs2) max2 = Some r2 /\
        res_ctx r2 = Some ctx'.
Proof.
  apply (X14_context_reuse ex_ctx ex_escaped ex_buf16 ex_buf16 16).
  - cbn. lia.
  - unfold capacity_ok. cbn. lia.
Defined.

(** ** Indexing a concatenation *)

Section Shift.

Variables input input' : list Z.
Variables base base' : Z.
Hypothesis same : forall j,
  0 <= j -> byte_at input (base + j) = byte_at input' (base' + j).

Lemma esc_local_shift k : esc_local input base k = esc_local input' base' k.
Proof using same.
  unfold esc_local. apply escZ_ext. intros j Hj. unfold bs_at.
  rewrite same by lia. reflexivity.
Qed.

Lemma uq_local_shift k :
  0 <= k -> uq_local input base k = uq_local input' base' k.
Proof using same.
  intros Hk. unfold uq_local. rewrite same, esc_local_shift by lia.
  reflexivity.
Qed.

Lemma pxor_shift n :
  pxor_upto (uq_local input base) n = pxor_upto (uq_local input' base') n.
Proof using same. apply pxor_upto_ext. intros j Hj. apply uq_local_shift. lia. Qed.

Lemma simd_keep_shift carry k :
  0 <= k -> simd_keep input base carry k = simd_keep input' base' carry k.
Proof using same.
  intros Hk. unfold simd_keep.
  rewrite same, uq_local_shift, pxor_shift by lia. reflexivity.
Qed.

Lemma tail_keep_shift carry k :
  0 <= k -> tail_keep input base carry k = tail_keep input' base' carry k.
Proof using same.
  intros Hk. unfold tail_keep.
  rewrite same, uq_local_shift, pxor_shift, esc_local_shift by lia.
  reflexivity.
Qed.

Lemma chunk_carry_shift : chunk_carry input base = chunk_carry input' base'.
Proof using same. unfold chunk_carry. apply pxor_shift. Qed.

Lemma entries_move ks :
  (forall k, In k ks -> 0 <= k) ->
  entries input base ks
  = map (fun e => (fst e + (base - base'), snd e)) (entries input' base' ks).
Proof using same.
  intros Hks. unfold entries. rewrite map_map. apply map_ext_in.
  intros k Hin. cbn [fst snd]. rewrite same by (apply Hks; assumption).
  f_equal. lia.
Qed.

Lemma filtered_move (f g : Z -> bool) n :
  (forall k, 0 <= k -> f k = g k) ->
  entries input base (List.filter f (seqZ 0 n))
  = map (fun e => (fst e + (base - base'), snd e))
        (entries input' base' (List.filter g (seqZ 0 n))).
Proof using same.
  intros Hfg.
  rewrite (List.filter_ext_in f g).
  - apply entries_move. intros k Hin. apply List.filter_In in Hin.
    destruct Hin as [Hin _]. apply In_seqZ in Hin. lia.
  - intros k Hin. apply In_seqZ in Hin. apply Hfg. lia.
Qed.

Lemma chunk_out_shift carry :
  chunk_out input base carry
  = map (fun e => (fst e + (base - base'), snd e))
        (chunk_out input' base' carry).
Proof using same.
  unfold chunk_out. apply filtered_move. intros k Hk.
  apply simd_keep_shift. assumption.
Qed.

Lemma tail_out_shift carry len len' :
  len - base = len' - base' ->
  tail_out input base carry len
  = map (fun e => (fst e + (base - base'), snd e))
        (tail_out input' base' carry len').
Proof using same.
  intros Hlen. unfold tail_out. rewrite Hlen. apply filtered_move.
  intros k Hk. apply tail_keep_shift. assumption.
Qed.

End Shift.

Lemma chunks_out_shift input input' d : forall n base' carry,
  (forall j, 0 <= j ->
     byte_at input (base' + d + j) = byte_at input' (base' + j)) ->
  chunks_out input (base' + d) carry n
  = map (fun e => (fst e + d, snd e)) (chunks_out input' base' carry n) /\
  carry_after input (base' + d) carry n = carry_after input' base' carry n.
Proof.
  induction n as [| n IH]; intros base' carry Hsame; [split; reflexivity |].
  cbn [chunks_out carry_after].
  rewrite (chunk_out_shift input input' (base' + d) base' Hsame).
  rewrite (chunk_carry_shift input input' (base' + d) base' Hsame).
  replace (base' + d - base') with d by lia.
  replace (base' + d + 64) with (base' + 64 + d) by lia.
  destruct (IH (base' + 64) (chunk_carry input' base')) as [IH1 IH2].
  { intros j Hj. replace (base' + 64 + d + j) with (base' + d + (j + 64)) by lia.
    rewrite Hsame by lia. f_equal. lia. }
  rewrite IH1, IH2, map_app. split; reflexivity.
Qed.

Lemma carry_after_app input : forall n m base carry,
  carry_after input base carry (n + m)
  = carry_after input (base + 64 * Z.of_nat n)
      (carry_after input base carry n) m.
Proof.
  induction n as [| n IH]; intros m base carry.
  - cbn [carry_after Nat.add]. f_equal. lia.
  - cbn [carry_after Nat.add]. rewrite IH. f_equal. lia.
Qed.

Lemma byte_at_app_r (l1 l2 : list Z) p :
  0 <= p -> byte_at (l1 ++ l2) (Z.of_nat (length l1) + p) = byte_at l2 p.
Proof.
  intros Hp. unfold byte_at. rewrite app_nth2 by lia. f_equal. lia.
Qed.

Lemma code_out_whole (l1 : list Z) m :
  Z.of_nat (length l1) = 64 * m ->
  code_out l1 = chunks_out l1 0 false (Z.to_nat m).
Proof.
  intros H1. unfold code_out.
  assert (Hd1 : Z.of_nat (length l1) / 64 = m).
  { rewrite H1. rewrite Z.mul_comm. apply Z.div_mul. lia. }
  rewrite Hd1. unfold tail_out. rewrite H1, Z.sub_diag.
  rewrite seqZ_nil by lia. cbn [List.filter entries map].
  apply app_nil_r.
Qed.

(** A chunk hands on the parity of its own unescaped quotes and nothing
    else: behind a chunk with evenly many of them the indexer starts
    afresh. *)
Lemma code_out_concat (l1 l2 : list Z) m :
  Z.of_nat (length l1) = 64 * m -> 0 < m ->
  chunk_carry l1 (64 * (m - 1)) = false ->
  code_out (l1 ++ l2)
  = code_out l1 ++ map (fun e => (fst e + 64 * m, snd e)) (code_out l2).
Proof.
  intros H1 Hm Heven.
  set (len2 := Z.of_nat (length l2)).
  assert (Hlen : Z.of_nat (length (l1 ++ l2)) = 64 * m + len2)
    by (unfold len2; rewrite length_app; lia).
  assert (Hq2 : 0 <= len2 / 64) by (apply Z.div_pos; unfold len2; lia).
  assert (Hdiv : (64 * m + len2) / 64 = m + len2 / 64).
  { rewrite (Z.mul_comm 64 m). rewrite Z.div_add_l by lia. reflexivity. }
  assert (Hsame : forall base' j, 0 <= base' -> 0 <= j ->
            byte_at (l1 ++ l2) (base' + 64 * m + j) = byte_at l2 (base' + j)).
  { intros base' j Hb Hj. rewrite <- H1.
    replace (base' + Z.of_nat (length l1) + j)
      with (Z.of_nat (length l1) + (base' + j)) by lia.
    apply byte_at_app_r. lia. }
  rewrite (code_out_whole l1 m H1).
  unfold code_out. rewrite Hlen, Hdiv. fold len2.
  replace (Z.to_nat (m + len2 / 64))
    with (Z.to_nat m + Z.to_nat (len2 / 64))%nat by lia.
  rewrite chunks_out_app, carry_after_app, <- app_assoc.
  rewrite (chunks_out_ext (l1 ++ l2) l1 (Z.to_nat m) 0 false)
    by (intros p Hp; apply byte_at_app_l; lia).
  f_equal.
  assert (Hcarry : carry_after (l1 ++ l2) 0 false (Z.to_nat m) = false).
  { replace (Z.to_nat m) with (S (Z.to_nat (m - 1))) by lia.
    rewrite carry_after_last, <- Heven.
    replace (0 + 64 * Z.of_nat (Z.to_nat (m - 1))) with (64 * (m - 1)) by lia.
    apply chunk_carry_ext. intros j Hj. apply byte_at_app_l. lia. }
  rewrite Hcarry. rewrite Z2Nat.id by lia. rewrite Z.add_0_l.
  destruct (chunks_out_shift (l1 ++ l2) l2 (64 * m) (Z.to_nat (len2 / 64))
              0 false) as [Hch Hca].
  { intros j Hj. apply Hsame; lia. }
  rewrite Z.add_0_l in Hch, Hca. rewrite Hch, Hca, map_app. f_equal.
  rewrite (tail_out_shift (l1 ++ l2) l2 (64 * (m + len2 / 64))
             (64 * (len2 / 64))) with (len' := len2).
  - apply map_ext. intros e. f_equal. lia.
  - intros j Hj.
    replace (64 * (m + len2 / 64) + j)
      with (64 * (len2 / 64) + 64 * m + j) by lia.
    apply Hsame; lia.
  - lia.
Qed.

Lemma u32_add_idem p d : u32 (u32 p + d) = u32 (p + d).
Proof. unfold u32. apply Z.add_mod_idemp_l. lia. Qed.

(** X15 ([neon_json_find_structural]): the chunk loop hands on from one
    chunk to the next only the parity of that chunk's own quotes (those not
    behind an odd backslash run inside the chunk).  So when [l1] is a whole
    number of chunks and its last chunk holds evenly many such quotes, a
    call on [l1 ++ l2] stores the entries of a call on [l1] followed by the
    entries of a call on [l2] with the positions moved up by the length of
    [l1] (modulo 2^32), whether or not [l1] ends inside a string or on a
    backslash. *)
Theorem X15_concatenation ctx l1 l2 ps cs max_output m :
  Z.of_nat (length l1) = 64 * m -> 0 < m ->
  chunk_carry l1 (64 * (m - 1)) = false ->
  0 < Z.of_nat (length l2) ->
  Z.of_nat (length (l1 ++ l2)) < 2 ^ 63 ->
  capacity_ok max_output ps cs ->
  Z.of_nat (length (l1 ++ l2)) <= max_output ->
  exists r1 r2 r12,
    neon_json_find_structural (Some ctx) (Some l1) (Z.of_nat (length l1))
      (Some ps) (Some cs) max_output = Some r1 /\
    neon_json_find_structural (Some ctx) (Some l2) (Z.of_nat (length l2))
      (Some ps) (Some cs) max_output = Some r2 /\
    neon_json_find_structural (Some ctx) (Some (l1 ++ l2))
      (Z.of_nat (length (l1 ++ l2))) (Some ps) (Some cs) max_output
    = Some r12 /\
    emitted r12
    = emitted r1
      ++ map (fun e => (u32 (fst e + Z.of_nat (length l1)), snd e))
             (emitted r2).
Proof.
  intros H1 Hm Heven Hl2 Hlen Hcap Hmax.
  assert (Hlen12 : Z.of_nat (length (l1 ++ l2))
                   = Z.of_nat (length l1) + Z.of_nat (length l2))
    by (rewrite length_app; lia).
  destruct (emitted_run ctx l1 ps cs max_output ltac:(lia) Hcap)
    as (r1 & Hrun1 & _ & _ & _ & Hem1).
  destruct (emitted_run ctx l2 ps cs max_output ltac:(lia) Hcap)
    as (r2 & Hrun2 & _ & _ & _ & Hem2).
  destruct (emitted_run ctx (l1 ++ l2) ps cs max_output ltac:(lia) Hcap)
    as (r12 & Hrun12 & _ & _ & _ & Hem12).
  exists r1, r2, r12. repeat (split; [assumption |]).
  rewrite Hem1, Hem2, Hem12.
  pose proof (code_out_length l1). pose proof (code_out_length l2).
  pose proof (code_out_length (l1 ++ l2)).
  rewrite !firstn_all2 by lia.
  rewrite (code_out_concat l1 l2 m H1 Hm Heven), map_app. f_equal.
  rewrite !map_map. apply map_ext. intros e. cbn [fst snd].
  rewrite u32_add_idem, H1. reflexivity.
Qed.

Lemma X15_witness :
  exists r1 r2 r12,
    neon_json_find_structural (Some ex_ctx) (Some (replicate 63 97 ++ [92]))
      (Z.of_nat (length (replicate 63 97 ++ [92])))
      (Some (replicate 128 0)) (Some (replicate 128 0)) 128 = Some r1 /\
    neon_json_find_structural (Some ex_ctx) (Some ex_object)
      (Z.of_nat (length ex_object))
      (Some (replicate 128 0)) (Some (replicate 128 0)) 128 = Some r2 /\
    neon_json_find_structural (Some ex_ctx)
      (Some ((replicate 63 97 ++ [92]) ++ ex_object))
      (Z.of_nat (length ((replicate 63 97 ++ [92]) ++ ex_object)))
      (Some (replicate 128 0)) (Some (replicate 128 0)) 128 = Some r12 /\
    emitted r12
    = emitted r1
      ++ map (fun e =>
                (u32 (fst e + Z.of_nat (length (replicate 63 97 ++ [92]))),
                 snd e))
             (emitted r2).
Proof.
  apply (X15_concatenation ex_ctx (replicate 63 97 ++ [92]) ex_object
           (replicate 128 0) (replicate 128 0) 128 1).
  - reflexivity.
  - lia.
  - vm_compute. reflexivity.
  - cbn. lia.
  - cbn. lia.
  - unfold capacity_ok. cbn. lia.
  - cbn. lia.
Defined.

(** ** Classifying what the indexer stored *)

Lemma classify_prefix input output len :
  1 <= len <= Z.of_nat (length input) ->
  neon_json_classify (Some input) (Some output) len
  = neon_json_classify (Some (take (Z.to_nat len) input)) (Some output) len.
Proof.
  intros Hlen. unfold neon_json_classify.
  destruct (len =? 0); [reflexivity |].
  rewrite (classify_loop_take input len) by lia. reflexivity.
Qed.

Lemma structural_code c :
  is_structural c = true -> is_byte c /\ 1 <= classify_code c <= 7.
Proof.
  intros H. destruct (masks_of_code c) as (Hs & _ & _).
  rewrite Hs in H. apply andb_true_iff in H. destruct H as [H1 H2].
  apply Z.leb_le in H1, H2. split; [| lia].
  unfold is_structural in Hs. unfold is_byte.
  destruct (Z.eqb_spec c 123); [lia |]. destruct (Z.eqb_spec c 125); [lia |].
  destruct (Z.eqb_spec c 91); [lia |]. destruct (Z.eqb_spec c 93); [lia |].
  destruct (Z.eqb_spec c 58); [lia |]. destruct (Z.eqb_spec c 44); [lia |].
  destruct (Z.eqb_spec c 34); [lia |].
  cbn [orb] in Hs. destruct (Z.leb_spec 1 (classify_code c));
    destruct (Z.leb_spec (classify_code c) 7); cbn [andb] in Hs;
    try discriminate Hs; lia.
Qed.

(** X16 ([neon_json_find_structural] then [neon_json_classify]): the
    characters a call has stored can be handed to [neon_json_classify] as
    they are; it returns 0 and gives every one of them a code from 1 to 7,
    never whitespace, backslash or other. *)
Theorem X16_stored_characters_classify ctx input ps cs max_output out :
  0 < Z.of_nat (length input) < 2 ^ 63 ->
  capacity_ok max_output ps cs ->
  exists r chars,
    neon_json_find_structural (Some ctx) (Some input) (Z.of_nat (length input))
      (Some ps) (Some cs) max_output = Some r /\
    res_characters r = Some chars /\
    (1 <= ret r -> ret r <= Z.of_nat (length out) ->
     exists codes,
       neon_json_classify (Some chars) (Some out) (ret r)
       = Some (0, Some (codes ++ drop (Z.to_nat (ret r)) out)) /\
       length codes = Z.to_nat (ret r) /\
       Forall (fun code => 1 <= code <= 7) codes).
Proof.
  intros Hlen Hcap.
  destruct (emitted_run ctx input ps cs max_output Hlen Hcap)
    as (r & Hrun & Hret & _ & Hchars & _).
  set (es := take (Z.to_nat max_output) (code_out input)) in *.
  exists r, (characters_buf (written ps cs es)).
  split; [assumption |]. split; [assumption |].
  intros Hpos Hout.
  assert (Hes : Z.of_nat (length es) <= max_output).
  { unfold es. rewrite length_take. destruct Hcap. lia. }
  assert (Htake : take (Z.to_nat (ret r)) (characters_buf (written ps cs es))
                  = map snd es).
  { destruct Hcap as (Hm & Hps & Hcs).
    destruct (push_all_contents
                {| positions_buf := ps; characters_buf := cs; count := 0 |} es)
      as [_ Hc]; cbn [count positions_buf characters_buf]; try lia.
    cbn [count positions_buf characters_buf] in Hc.
    change (Z.to_nat 0) with O in Hc. rewrite firstn_O in Hc.
    cbn [app] in Hc.
    unfold written. rewrite Hc, Hret, Nat2Z.id.
    rewrite <- (length_map snd es) at 1. apply take_app_length. }
  assert (Hstruct : Forall (fun c => is_structural c = true) (map snd es)).
  { apply List.Forall_forall. intros c Hin. apply in_map_iff in Hin.
    destruct Hin as ([k b] & <- & Hin). cbn [snd].
    unfold es in Hin. apply In_take in Hin.
    rewrite code_out_closed in Hin. apply entries_In in Hin.
    destruct Hin as (_ & -> & Hkeep).
    apply code_keep_structural. assumption. }
  pose proof (written_lookup ps cs es) as (_ & _ & _ & Hlenc);
    [destruct Hcap; lia | destruct Hcap; lia |].
  rewrite classify_prefix
    by (rewrite Hlenc; destruct Hcap as (? & ? & ?); lia).
  rewrite Htake.
  exists (map classify_code (map snd es)).
  assert (Hl : Z.of_nat (length (map snd es)) = ret r)
    by (rewrite length_map; lia).
  split; [| split].
  - pose proof (classify_run (map snd es) out) as Hc.
    destruct Hcap as (Hm & _ & _). rewrite Hl in Hc.
    replace (length (map snd es)) with (Z.to_nat (ret r)) in Hc by lia.
    apply Hc; try lia.
    eapply List.Forall_impl; [| exact Hstruct].
    intros c Hc'. apply structural_code. assumption.
  - rewrite length_map. lia.
  - rewrite List.Forall_map. eapply List.Forall_impl; [| exact Hstruct].
    intros c Hc'. cbn beta. apply structural_code. assumption.
Qed.

Lemma X16_witness :
  exists r chars,
    neon_json_find_structural (Some ex_ctx) (Some ex_escaped)
      (Z.of_nat (length ex_escaped)) (Some ex_buf16) (Some ex_buf16) 16
    = Some r /\
    res_characters r = Some chars /\
    (1 <= ret r -> ret r <= Z.of_nat (length ex_buf16) ->
     exists codes,
       neon_json_classify (Some chars) (Some ex_buf16) (ret r)
       = Some (0, Some (codes ++ drop (Z.to_nat (ret r)) ex_buf16)) /\
       length codes = Z.to_nat (ret r) /\
       Forall (fun code => 1 <= code <= 7) codes).
Proof.
  apply (X16_stored_characters_classify ex_ctx ex_escaped ex_buf16 ex_buf16
           16 ex_buf16).
  - cbn. lia.
  - unfold capacity_ok. cbn. lia.
Defined.
